(** * outline-ss-server: port orchestration, duplex relay, metrics and socket marks

    A shallow embedding of three Go files of the server:
    - [net/net.go]: [DuplexConn], [duplexConnAdaptor], [WrapConn],
      [copyOneWay], [Relay], [NewMarker], [MarkSocket];
    - [service/metrics/metrics.go]: [addIfNonZero], the methods of
      [shadowsocksMetrics], [GetIpAddress], [ProxyMetrics], [measuredConn];
    - the server's [main] package: [startPort], [removePort], [loadConfig],
      [loadConfigFile], [Stop], [RunSSServer], [LoadSecretsHandler].

    The first part of the file holds the definitions, one module per Go
    package; the second part states and proves the properties. *)

From Stdlib Require Import ZArith Lia List Ascii DecimalString.
From Stdlib.Strings Require Import Byte.
From stdpp Require Import base option list gmap strings.

Local Open Scope Z_scope.

(** A Go [error] value is modelled by the text that its [Error()] method
    yields; the [nil] error is [None]. *)
Definition error := string.

(** [%v] of an [int] in [fmt.Errorf]: signed decimal. *)
Definition itoa (n : Z) : string := NilZero.string_of_int (Z.to_int n).

(* ================================================================== *)
(** * Package [net] *)
(* ================================================================== *)
Module Net.

(** ** Byte streams

    An [io.Reader] is described by what its successive [Read] calls return:
    [Chunk data rest] returns [(len data, nil)] and goes on as [rest];
    [End data err] returns [(len data, e)] where [e] is [io.EOF] when [err]
    is [None] and the error [err] otherwise, and keeps returning [(0, e)]. *)
Inductive Stream :=
| Chunk (data : list byte) (rest : Stream)
| End (data : list byte) (err : option error).

Inductive read_err :=
| EOF
| ReadErr (e : error).

Definition end_err (err : option error) : read_err :=
  match err with None => EOF | Some e => ReadErr e end.

Definition Stream_Read (s : Stream) : (list byte * option read_err) * Stream :=
  match s with
  | Chunk data rest => ((data, None), rest)
  | End data err => ((data, Some (end_err err)), End [] err)
  end.

(** An [io.Writer]: the bytes taken so far, and possibly a point of failure:
    [w_fail = Some (k, e)] takes [k] more bytes and then fails with [e] (a
    [Write] that crosses the limit is a short write that returns [e]). *)
Record Sink := { w_data : list byte; w_fail : option (nat * error) }.

Definition Sink_Write (b : list byte) (w : Sink) : (nat * option error) * Sink :=
  match w_fail w with
  | None => ((length b, None), {| w_data := w_data w ++ b; w_fail := None |})
  | Some (k, e) =>
      if (length b <=? k)%nat
      then ((length b, None),
            {| w_data := w_data w ++ b; w_fail := Some ((k - length b)%nat, e) |})
      else ((k, Some e),
            {| w_data := w_data w ++ take k b; w_fail := Some (0%nat, e) |})
  end.

(** ** Duplex connections

    The implementations of the interface [DuplexConn]: a connection of the
    network ([tcpConn], with its inbound stream, its outbound sink and the
    number of [CloseRead] and [CloseWrite] calls it has received), and the
    [duplexConnAdaptor] of this package, whose embedded field is
    [DuplexConn_]. *)
Inductive DuplexConn :=
| tcpConn (rd : Stream) (wr : Sink) (readCloses writeCloses : nat)
| duplexConnAdaptor (DuplexConn_ : DuplexConn) (r : Stream) (w : Sink).

Definition errClosedRead : error := "read: use of closed read half".
Definition errClosedWrite : error := "write: broken pipe".
Definition errAlreadyClosed : error := "shutdown: half already closed".

(** [Read]: a network connection reads its inbound stream unless its read
    half was closed; the adaptor's method is [return dc.r.Read(b)].  What a
    network connection answers to a read after [CloseRead] is the system's
    and not in the sources: the error here is a choice of the model, and
    no byte is yielded then in any case. *)
Definition Read (c : DuplexConn) : (list byte * option read_err) * DuplexConn :=
  match c with
  | tcpConn rd wr cr cw =>
      if (0 <? cr)%nat then (([], Some (ReadErr errClosedRead)), c)
      else let '(res, rd') := Stream_Read rd in (res, tcpConn rd' wr cr cw)
  | duplexConnAdaptor conn r w =>
      let '(res, r') := Stream_Read r in (res, duplexConnAdaptor conn r' w)
  end.

(** [Write]: the adaptor's method is [return dc.w.Write(b)]. *)
Definition Write (b : list byte) (c : DuplexConn) : (nat * option error) * DuplexConn :=
  match c with
  | tcpConn rd wr cr cw =>
      if (0 <? cw)%nat then ((0%nat, Some errClosedWrite), c)
      else let '(res, wr') := Sink_Write b wr in (res, tcpConn rd wr' cr cw)
  | duplexConnAdaptor conn r w =>
      let '(res, w') := Sink_Write b w in (res, duplexConnAdaptor conn r w')
  end.

(** [CloseRead]: the adaptor's method is [return dc.DuplexConn.CloseRead()]. *)
Fixpoint CloseRead (c : DuplexConn) : option error * DuplexConn :=
  match c with
  | tcpConn rd wr cr cw =>
      (if (0 <? cr)%nat then Some errAlreadyClosed else None, tcpConn rd wr (S cr) cw)
  | duplexConnAdaptor conn r w =>
      let '(err, conn') := CloseRead conn in (err, duplexConnAdaptor conn' r w)
  end.

(** [CloseWrite]: the adaptor's method is [return dc.DuplexConn.CloseWrite()]. *)
Fixpoint CloseWrite (c : DuplexConn) : option error * DuplexConn :=
  match c with
  | tcpConn rd wr cr cw =>
      (if (0 <? cw)%nat then Some errAlreadyClosed else None, tcpConn rd wr cr (S cw))
  | duplexConnAdaptor conn r w =>
      let '(err, conn') := CloseWrite conn in (err, duplexConnAdaptor conn' r w)
  end.

(** [WrapConn]: the type assertion of [c] to a pointer to
    [duplexConnAdaptor] is the match on the constructor. *)
Definition WrapConn (c : DuplexConn) (r : Stream) (w : Sink) : DuplexConn :=
  let conn :=
    (* We special-case duplexConnAdaptor to avoid multiple levels of nesting. *)
    match c with
    | duplexConnAdaptor a_DuplexConn _ _ => a_DuplexConn
    | _ => c
    end in
  duplexConnAdaptor conn r w.

(** The connection that a wrap of [c] delegates its half-closes to, and a
    connection wrapped again and again with the pairs of [rws]. *)
Definition underlying (c : DuplexConn) : DuplexConn :=
  match c with
  | duplexConnAdaptor conn _ _ => conn
  | tcpConn _ _ _ _ => c
  end.

Definition rewrap (c : DuplexConn) (rws : list (Stream * Sink)) : DuplexConn :=
  foldl (fun c rw => WrapConn c rw.1 rw.2) c rws.

(** ** [io.Copy]

    The loop of [io.copyBuffer] of the Go library, for a writer of type [W]
    and a reader of type [R] with their [Write] and [Read] methods. *)
Definition ErrShortWrite : error := "short write".

Section copyBuffer.
Context {W R : Type}.
Variable write : list byte -> W -> (nat * option error) * W.
Variable read : R -> (list byte * option read_err) * R.

(** One turn of the loop: a [Read] from [src] and, when it returned bytes,
    a [Write] to [dst].  The last component is [None] when the loop goes on
    and [Some err] when it breaks with the result [err]. *)
Definition copy_iter (dst : W) (src : R) (written : Z)
  : W * R * Z * option (option error) :=
  let '((data, er), src) := read src in
  let nr := length data in
  let after_read dst written :=
    match er with
    | Some EOF => (dst, src, written, Some None)
    | Some (ReadErr e) => (dst, src, written, Some (Some e))
    | None => (dst, src, written, None)
    end in
  if (0 <? nr)%nat then
    let '((nw, ew), dst) := write data dst in
    let written := written + Z.of_nat nw in
    match ew with
    | Some e => (dst, src, written, Some (Some e))
    | None =>
        if negb (nr =? nw)%nat
        then (dst, src, written, Some (Some ErrShortWrite))
        else after_read dst written
    end
  else after_read dst written.

(** The loop.  [turns] bounds the turns that go on; when it is the number
    of nil-error reads that [src] still has to give, the bound is never
    reached ([copyLoop_conn_unfold]). *)
Fixpoint copyLoop (turns : nat) (dst : W) (src : R) (written : Z)
  : (Z * option error) * W * R :=
  match copy_iter dst src written with
  | (dst, src, written, Some err) => ((written, err), dst, src)
  | (dst, src, written, None) =>
      match turns with
      | O => ((written, None), dst, src)
      | S turns => copyLoop turns dst src written
      end
  end.
End copyBuffer.

(** The number of [Read] calls that return a nil error before the stream
    ends. *)
Fixpoint chunks (s : Stream) : nat :=
  match s with
  | Chunk _ rest => S (chunks rest)
  | End _ _ => 0%nat
  end.

Definition conn_stream (c : DuplexConn) : Stream :=
  match c with
  | tcpConn rd _ _ _ => rd
  | duplexConnAdaptor _ r _ => r
  end.

Definition conn_chunks (c : DuplexConn) : nat := chunks (conn_stream c).

(** [ReadFrom] of the adaptor: [return io.Copy(dc.w, r)].  The sink [dc.w]
    has no [ReadFrom] of its own, and [r] is a reader that [io.Copy] has
    found to have no [WriteTo], so this [io.Copy] is the loop. *)
Definition ReadFrom {R} (read : R -> (list byte * option read_err) * R)
    (turns : R -> nat) (conn : DuplexConn) (dc_r : Stream) (dc_w : Sink) (r : R)
  : (Z * option error) * DuplexConn * R :=
  let '(res, dc_w, r) := copyLoop Sink_Write read (turns r) dc_w r 0 in
  (res, duplexConnAdaptor conn dc_r dc_w, r).

(** [io.Copy(dst, src)] into a connection once [src] is known to have no
    [WriteTo]: [dst.ReadFrom(src)] when [dst] is an adaptor, else the loop.
    (The kernel-assisted [ReadFrom] and [WriteTo] of a network connection
    move the same bytes as the loop and are modelled by it.) *)
Definition io_Copy_to {R} (read : R -> (list byte * option read_err) * R)
    (turns : R -> nat) (dst : DuplexConn) (src : R)
  : (Z * option error) * DuplexConn * R :=
  match dst with
  | duplexConnAdaptor conn dc_r dc_w => ReadFrom read turns conn dc_r dc_w src
  | tcpConn _ _ _ _ => copyLoop Write read (turns src) dst src 0
  end.

(** [WriteTo] of the adaptor: [return io.Copy(w, dc.r)], for a writer [w]
    that is a connection. *)
Definition WriteTo (conn : DuplexConn) (dc_r : Stream) (dc_w : Sink) (w : DuplexConn)
  : (Z * option error) * DuplexConn * DuplexConn :=
  let '(res, w, dc_r) := io_Copy_to Stream_Read chunks w dc_r in
  (res, w, duplexConnAdaptor conn dc_r dc_w).

(** [io.Copy(dst, src)] of the Go library between two connections:
    [src.WriteTo(dst)] when [src] implements [io.WriterTo], else
    [dst.ReadFrom(src)] when [dst] implements [io.ReaderFrom], else the
    loop. *)
Definition io_Copy (dst src : DuplexConn)
  : (Z * option error) * DuplexConn * DuplexConn :=
  match src with
  | duplexConnAdaptor conn dc_r dc_w => WriteTo conn dc_r dc_w dst
  | tcpConn _ _ _ _ => io_Copy_to Read conn_chunks dst src
  end.

(** ** The relay *)

(** [copyOneWay(leftConn, rightConn)]: the results of the two half-closes are
    dropped, as in the source.  The connections are returned in the order of
    the parameters. *)
Definition copyOneWay (leftConn rightConn : DuplexConn)
  : (Z * option error) * DuplexConn * DuplexConn :=
  let '(n_err, leftConn, rightConn) := io_Copy leftConn rightConn in
  (* Send FIN to indicate EOF *)
  let '(_, leftConn) := CloseWrite leftConn in
  (* Release reader resources *)
  let '(_, rightConn) := CloseRead rightConn in
  (n_err, leftConn, rightConn).

(** [Relay].  The goroutine runs [copyOneWay(rightConn, leftConn)] while the
    caller runs [copyOneWay(leftConn, rightConn)] and then receives [rs] from
    the channel.  The two calls work on different halves of the two
    connections, so every interleaving of them ends in the state and the
    results of running one after the other; [Relay] runs the goroutine first.
    [RelayMachine] below has the interleavings. *)
Definition Relay (leftConn rightConn : DuplexConn)
  : (Z * Z * option error) * DuplexConn * DuplexConn :=
  let '((rs_N, rs_Err), rightConn, leftConn) := copyOneWay rightConn leftConn in
  let '((n, err), leftConn, rightConn) := copyOneWay leftConn rightConn in
  let err := match err with None => rs_Err | Some _ => err end in
  ((n, rs_N, err), leftConn, rightConn).

(** ** The relay as two concurrent tasks

    [Relay] above runs its two calls of [copyOneWay] one after the other.
    Here they advance in turns that a schedule picks: a turn of a task is one
    turn of the loop of [io.Copy] (through [Read] and [Write]), or one of
    the two half-closes.  [Relay_interleaved] shows that every schedule ends
    in the results and the connections of [Relay]. *)
Inductive task :=
| Copying (written : Z)                      (* inside [io.Copy] *)
| Copied (n : Z) (err : option error)        (* before [leftConn.CloseWrite()] *)
| WriteClosed (n : Z) (err : option error)   (* before [rightConn.CloseRead()] *)
| Finished (n : Z) (err : option error).     (* [copyOneWay] has returned *)

Definition copyOneWay_step (leftConn rightConn : DuplexConn) (t : task)
  : DuplexConn * DuplexConn * task :=
  match t with
  | Copying written =>
      match copy_iter Write Read leftConn rightConn written with
      | (leftConn, rightConn, written, None) => (leftConn, rightConn, Copying written)
      | (leftConn, rightConn, n, Some err) => (leftConn, rightConn, Copied n err)
      end
  | Copied n err =>
      let '(_, leftConn) := CloseWrite leftConn in (leftConn, rightConn, WriteClosed n err)
  | WriteClosed n err =>
      let '(_, rightConn) := CloseRead rightConn in (leftConn, rightConn, Finished n err)
  | Finished _ _ => (leftConn, rightConn, t)
  end.

(** The two connections, the task of the caller, which runs
    [copyOneWay(leftConn, rightConn)], and the task of the goroutine, which
    runs [copyOneWay(rightConn, leftConn)]. *)
Record RelayState := {
  st_left : DuplexConn;
  st_right : DuplexConn;
  caller : task;
  goroutine : task
}.

Definition Relay_start (leftConn rightConn : DuplexConn) : RelayState :=
  {| st_left := leftConn; st_right := rightConn;
     caller := Copying 0; goroutine := Copying 0 |}.

(** One turn: of the goroutine when [go] is true, else of the caller.  A
    finished task waits at the channel and its turn changes nothing. *)
Definition Relay_step (st : RelayState) (go : bool) : RelayState :=
  if go then
    let '(r, l, t) := copyOneWay_step (st_right st) (st_left st) (goroutine st) in
    {| st_left := l; st_right := r; caller := caller st; goroutine := t |}
  else
    let '(l, r, t) := copyOneWay_step (st_left st) (st_right st) (caller st) in
    {| st_left := l; st_right := r; caller := t; goroutine := goroutine st |}.

Definition Relay_run (sched : list bool) (st : RelayState) : RelayState :=
  foldl Relay_step st sched.

(** What [Relay] returns once the caller has received [rs] from the channel;
    [None] while a task is still running. *)
Definition Relay_return (st : RelayState) : option (Z * Z * option error) :=
  match caller st, goroutine st with
  | Finished n err, Finished rs_N rs_Err =>
      Some (n, rs_N, match err with None => rs_Err | Some _ => err end)
  | _, _ => None
  end.

(** ** The halves of a connection

    What a copy between two connections touches: the stream and the sink
    that [Read] and [Write] reach, whether the half is closed, and the
    counters of the network connection at the bottom. *)
Definition conn_sink (c : DuplexConn) : Sink :=
  match c with
  | tcpConn _ wr _ _ => wr
  | duplexConnAdaptor _ _ w => w
  end.

Definition readClosed (c : DuplexConn) : bool :=
  match c with
  | tcpConn _ _ cr _ => (0 <? cr)%nat
  | duplexConnAdaptor _ _ _ => false
  end.

Definition writeClosed (c : DuplexConn) : bool :=
  match c with
  | tcpConn _ _ _ cw => (0 <? cw)%nat
  | duplexConnAdaptor _ _ _ => false
  end.

Definition put_stream (c : DuplexConn) (s : Stream) : DuplexConn :=
  match c with
  | tcpConn _ wr cr cw => tcpConn s wr cr cw
  | duplexConnAdaptor conn _ w => duplexConnAdaptor conn s w
  end.

Definition put_sink (c : DuplexConn) (k : Sink) : DuplexConn :=
  match c with
  | tcpConn rd _ cr cw => tcpConn rd k cr cw
  | duplexConnAdaptor conn r _ => duplexConnAdaptor conn r k
  end.

Fixpoint closeReadCalls (c : DuplexConn) : nat :=
  match c with
  | tcpConn _ _ cr _ => cr
  | duplexConnAdaptor conn _ _ => closeReadCalls conn
  end.

Fixpoint closeWriteCalls (c : DuplexConn) : nat :=
  match c with
  | tcpConn _ _ _ cw => cw
  | duplexConnAdaptor conn _ _ => closeWriteCalls conn
  end.

(** The number of adaptors stacked on the network connection. *)
Fixpoint depth (c : DuplexConn) : nat :=
  match c with
  | tcpConn _ _ _ _ => 0%nat
  | duplexConnAdaptor conn _ _ => S (depth conn)
  end.

Definition half_read (closed : bool) (s : Stream)
  : (list byte * option read_err) * Stream :=
  if closed then (([], Some (ReadErr errClosedRead)), s) else Stream_Read s.

Definition half_write (closed : bool) (b : list byte) (k : Sink)
  : (nat * option error) * Sink :=
  if closed then ((0%nat, Some errClosedWrite), k) else Sink_Write b k.

(** The copy from a stream into a sink, given which of the two halves is
    closed: what [io.Copy] amounts to on the halves ([io_Copy_transfer]). *)
Definition transfer (wclosed rclosed : bool) (k : Sink) (s : Stream)
  : (Z * option error) * Sink * Stream :=
  copyLoop (half_write wclosed) (half_read rclosed) (chunks s) k s 0.

(** The bytes of a stream, and the error that ends it. *)
Fixpoint stream_bytes (s : Stream) : list byte :=
  match s with
  | Chunk data rest => data ++ stream_bytes rest
  | End data _ => data
  end.

Fixpoint stream_err (s : Stream) : option error :=
  match s with
  | Chunk _ rest => stream_err rest
  | End _ err => err
  end.

(** A connection that yields exactly [n] bytes and then the end of the
    stream, with no read error. *)
Definition yields (c : DuplexConn) (n : Z) : Prop :=
  readClosed c = false /\
  stream_err (conn_stream c) = None /\
  Z.of_nat (length (stream_bytes (conn_stream c))) = n.

(** A connection whose writes do not fail. *)
Definition accepts (c : DuplexConn) : Prop :=
  writeClosed c = false /\ w_fail (conn_sink c) = None.

(** ** Socket marks *)

(** [net.IP] is a byte slice; the length of the list is the length (and
    the capacity) of the slice. *)
Definition IP := list byte.

Definition byteZ (b : byte) : Z := Z.of_N (Byte.to_N b).

Definition IPv4len : nat := 4.
Definition IPv6len : nat := 16.

(** [net.isZeros] of the Go library. *)
Definition isZeros (p : list byte) : bool :=
  forallb (fun b => byteZ b =? 0) p.

(** [net.IP.To4] of the Go library: a 4-byte slice is returned as it is, a
    16-byte slice that carries an IPv4-mapped address [::ffff:a.b.c.d]
    yields its last four bytes, anything else yields [nil]. *)
Definition To4 (ip : IP) : option IP :=
  if (length ip =? IPv4len)%nat then Some ip
  else if (length ip =? IPv6len)%nat
          && isZeros (take 10 ip)
          && (byteZ (nth 10 ip x00) =? 255)
          && (byteZ (nth 11 ip x00) =? 255)
       then Some (drop 12 ip)
       else None.

(** [binary.BigEndian.Uint32] of the Go library; it panics ([None]) on a
    slice shorter than four bytes and reads the FIRST four bytes. *)
Definition BigEndian_Uint32 (b : list byte) : option Z :=
  match b with
  | b0 :: b1 :: b2 :: b3 :: _ =>
      Some (Z.lor (Z.lor (Z.lor (byteZ b3) (Z.shiftl (byteZ b2) 8))
                         (Z.shiftl (byteZ b1) 16))
                  (Z.shiftl (byteZ b0) 24))
  | _ => None
  end.

(** [hash/fnv]: the 32-bit FNV-1a hash.  [New32a] starts from [offset32];
    [Write] xors each byte in and multiplies by [prime32] in [uint32]
    arithmetic; [Sum32] returns the state. *)
Definition offset32 : Z := 2166136261.
Definition prime32 : Z := 16777619.

Definition fnv32a_Write (hash : Z) (data : list byte) : Z :=
  fold_left (fun h c => (Z.lxor h (byteZ c) * prime32) mod 2 ^ 32) data hash.

Definition fnv32a_Sum32 (data : list byte) : Z := fnv32a_Write offset32 data.

Record Marker := { mark : Z }.

(** [NewMarker].  [None] is a run-time panic (an index or a slice bound out
    of range).  [int] is 64 bits wide, so [int(uint32)] keeps the value. *)
Definition NewMarker (clientIP : IP) : option Marker :=
  match To4 clientIP with
  | Some _ =>
      (* Place the client IP directly into the mark *)
      m ← BigEndian_Uint32 clientIP; Some {| mark := m |}
  | None =>
      (* Hash the top 48 bits of client IP into the mark. *)
      if (length clientIP <? 6)%nat then None
      else
        let top48 := take 6 clientIP in
        Some {| mark := fnv32a_Sum32 top48 |}
  end.

(** [net.IPv4(a, b, c, d)] of the Go library: the 16-byte form of an IPv4
    address, which is also what [net.ParseIP] returns for dotted quads. *)
Definition v4InV6Prefix : list byte :=
  [x00; x00; x00; x00; x00; x00; x00; x00; x00; x00; xff; xff].

Definition IPv4 (a b c d : byte) : IP := v4InV6Prefix ++ [a; b; c; d].

(** ** Devices of the proofs about the relay *)

(** A task running alone. *)
Definition task_run (k : nat) (x : DuplexConn * DuplexConn * task) : DuplexConn * DuplexConn * task :=
  Nat.iter k (fun '(l, r, t) => copyOneWay_step l r t) x.

Arguments task_run : simpl never.

(** Two operations on one connection that do not disturb each other. *)
Definition commute {X Y} (f : DuplexConn -> X * DuplexConn)
    (g : DuplexConn -> Y * DuplexConn) : Prop :=
  forall c, (f (g c).2).1 = (f c).1 /\ (g (f c).2).1 = (g c).1 /\
            (f (g c).2).2 = (g (f c).2).2.

Definition no_read (c : DuplexConn) : (list byte * option read_err) * DuplexConn :=
  (([], None), c).
Definition no_write (c : DuplexConn) : (nat * option error) * DuplexConn :=
  ((0%nat, None), c).
Definition closeRead_op (c : DuplexConn) : (list byte * option read_err) * DuplexConn :=
  (([], None), (CloseRead c).2).
Definition closeWrite_op (c : DuplexConn) : (nat * option error) * DuplexConn :=
  ((0%nat, None), (CloseWrite c).2).

(** The turn of a task as an operation on the read half of its source
    followed by an operation on the write half of its destination. *)
Definition task_rop (t : task) : DuplexConn -> (list byte * option read_err) * DuplexConn :=
  match t with
  | Copying _ => Read
  | WriteClosed _ _ => closeRead_op
  | _ => no_read
  end.

Definition task_wop (t : task) (x : list byte * option read_err)
  : DuplexConn -> (nat * option error) * DuplexConn :=
  match t with
  | Copying _ => if (0 <? length x.1)%nat then Write x.1 else no_write
  | Copied _ _ => closeWrite_op
  | _ => no_write
  end.

Definition task_next (t : task) (x : list byte * option read_err)
    (y : nat * option error) : task :=
  match t with
  | Copying written =>
      let after_read written :=
        match x.2 with
        | Some EOF => Copied written None
        | Some (ReadErr e) => Copied written (Some e)
        | None => Copying written
        end in
      if (0 <? length x.1)%nat then
        match y.2 with
        | Some e => Copied (written + Z.of_nat y.1) (Some e)
        | None =>
            if negb (length x.1 =? y.1)%nat
            then Copied (written + Z.of_nat y.1) (Some ErrShortWrite)
            else after_read (written + Z.of_nat y.1)
        end
      else after_read written
  | Copied n err => WriteClosed n err
  | WriteClosed n err => Finished n err
  | Finished _ _ => t
  end.

(** The turns of one task in a row. *)
Definition caller_turns (k : nat) (st : RelayState) : RelayState :=
  Nat.iter k (fun st => Relay_step st false) st.
Definition goroutine_turns (k : nat) (st : RelayState) : RelayState :=
  Nat.iter k (fun st => Relay_step st true) st.


(** ** Marking a socket

    A [syscall.Conn] as [MarkSocket] meets it: what [conn.SyscallConn()]
    and [raw.Control(f)] return, what the kernel answers to the [setsockopt]
    of [SO_MARK], and the mark that the socket carries ([None] when it was
    never set).  [Control] of the Go library runs [f] once on the file
    descriptor and returns nil, unless the descriptor is closed: then it
    returns an error and does not run [f]. *)
Record sysConn := {
  SyscallConn_err : option error;
  Control_err : option error;
  setsockopt_err : option error;
  so_mark : option Z
}.

(** [MarkSocket], with the lines that [log.Printf] has written.
    [unix.SetsockoptInt] hands the low 32 bits of [m.mark] to the kernel. *)
Definition MarkSocket (m : Marker) (conn : sysConn) (log : list string)
  : option error * sysConn * list string :=
  match SyscallConn_err conn with
  | Some err => (Some err, conn, log)
  | None =>
      match Control_err conn with
      | Some err => (Some err, conn, log)
      | None =>
          match setsockopt_err conn with
          | Some err => (None, conn, log ++ ["setsockopt: " +:+ err])
          | None =>
              (None,
               {| SyscallConn_err := SyscallConn_err conn;
                  Control_err := Control_err conn;
                  setsockopt_err := setsockopt_err conn;
                  so_mark := Some (mark m mod 2 ^ 32) |},
               log)
          end
      end
  end.

(** The bytes that a connection has been given to send. *)
Definition sent (c : DuplexConn) : list byte := w_data (conn_sink c).

(** The bytes that a connection still has to yield. *)
Definition pending (c : DuplexConn) : list byte := stream_bytes (conn_stream c).

End Net.

(* ================================================================== *)
(** * Package [metrics] *)
(* ================================================================== *)
Module Metrics.

(** Modelled from the spec: [prometheus.CounterVec], the metrics sink of the
    Prometheus client library.  A vector holds one series per tuple of label
    values; a series that was never asked for does not exist.  [series] has
    the value of every existing series and [observations] lists the [Add]
    calls in order.  [Add] takes a [float64]; the deltas of this program are
    integers converted by [float64], so a delta is kept as the integer that
    the converted number is, and a series as the sum of its deltas. *)
Record CounterVec := {
  series : gmap (list string) Z;
  observations : list (list string * Z)
}.

(** [WithLabelValues(lvs...)]: get the series, creating it at zero. *)
Definition WithLabelValues (lvs : list string) (cv : CounterVec) : CounterVec :=
  match series cv !! lvs with
  | Some _ => cv
  | None => {| series := <[lvs := 0]> (series cv); observations := observations cv |}
  end.

(** [Add(v)] on the series [lvs] of the vector. *)
Definition Add (lvs : list string) (v : Z) (cv : CounterVec) : CounterVec :=
  {| series := <[lvs := default 0 (series cv !! lvs) + v]> (series cv);
     observations := observations cv ++ [(lvs, v)] |}.

(** The conversion [float64(value)] of an integer: the nearest number with a
    significand of 53 bits, a tie going to the even significand.  An integer
    of magnitude below [2^53] is kept; above, the low [e] bits are rounded
    away, [e] being the number of bits over 53. *)
Definition float64 (value : Z) : Z :=
  let a := Z.abs value in
  if a <? 2 ^ 53 then value
  else
    let e := Z.log2 a - 52 in
    let q := a / 2 ^ e in
    let r := a mod 2 ^ e in
    let half := 2 ^ (e - 1) in
    let q' := if r <? half then q
              else if half <? r then q + 1
              else if Z.even q then q else q + 1 in
    Z.sgn value * (q' * 2 ^ e).

(** [addIfNonZero] helps avoid the creation of series that are always zero. *)
Definition addIfNonZero (value : Z) (counterVec : CounterVec) (lvs : list string)
  : CounterVec :=
  if 0 <? value then Add lvs (float64 value) (WithLabelValues lvs counterVec)
  else counterVec.

Definition newCounterVec : CounterVec := {| series := ∅; observations := [] |}.

(** ** The metrics of the server *)

(** The other vectors of the Prometheus client library, kept like
    [CounterVec]: a gauge vector has the value last set for each tuple of
    label values, a histogram vector the samples observed for it. *)
Definition GaugeVec := gmap (list string) Z.

(** A sample handed to a histogram: the [float64] that the source computes
    from a [time.Duration], a number of nanoseconds, as
    [d.Seconds() * 1000], or from a byte count as [float64(n)]. *)
Inductive sample :=
| Milliseconds (d : Z)
| Float64 (n : Z).

Definition HistogramVec := gmap (list string) (list sample).

(** [WithLabelValues(lvs...).Set(v)], [.Observe(v)] and [.Inc()]. *)
Definition GaugeVec_Set (lvs : list string) (v : Z) (gv : GaugeVec) : GaugeVec :=
  <[lvs := v]> gv.

Definition Observe (lvs : list string) (v : sample) (hv : HistogramVec) : HistogramVec :=
  <[lvs := default [] (hv !! lvs) ++ [v]]> hv.

Definition Inc (lvs : list string) (cv : CounterVec) : CounterVec :=
  Add lvs 1 (WithLabelValues lvs cv).

(** [int64] arithmetic wraps around. *)
Definition int64 (z : Z) : Z := (z + 2 ^ 63) mod 2 ^ 64 - 2 ^ 63.

Record ProxyMetrics := {
  ClientProxy : Z;
  ProxyTarget : Z;
  TargetProxy : Z;
  ProxyClient : Z
}.

(** The method [add] of [ProxyMetrics]. *)
Definition ProxyMetrics_add (m other : ProxyMetrics) : ProxyMetrics :=
  {| ClientProxy := int64 (ClientProxy m + ClientProxy other);
     ProxyTarget := int64 (ProxyTarget m + ProxyTarget other);
     TargetProxy := int64 (TargetProxy m + TargetProxy other);
     ProxyClient := int64 (ProxyClient m + ProxyClient other) |}.

(** The four counts are [int64] values. *)
Definition ProxyMetrics_in_range (m : ProxyMetrics) : Prop :=
  Forall (fun v => - 2 ^ 63 <= v < 2 ^ 63)
    [ClientProxy m; ProxyTarget m; TargetProxy m; ProxyClient m].

(** [shadowsocksMetrics]: the collectors of the server.  The two plain
    gauges and the two plain counters are numbers. *)
Record shadowsocksMetrics := {
  buildInfo : GaugeVec;
  accessKeys : Z;
  ports : Z;
  dataBytes : CounterVec;
  timeToCipherMs : HistogramVec;
  tcpProbes : HistogramVec;
  tcpOpenConnections : CounterVec;
  tcpClosedConnections : CounterVec;
  tcpConnectionDurationMs : HistogramVec;
  udpAddedNatEntries : Z;
  udpRemovedNatEntries : Z
}.

(** The label names that [newShadowsocksMetrics] gives to each vector. *)
Definition buildInfo_labels : list string := ["version"].
Definition tcpProbes_labels : list string := ["port"; "status"; "error"].
Definition tcpOpenConnections_labels : list string := ["ip"; "access_key"].
Definition tcpClosedConnections_labels : list string := ["ip"; "status"; "access_key"].
Definition tcpConnectionDurationMs_labels : list string := ["status"].
Definition dataBytes_labels : list string := ["dir"; "proto"; "access_key"; "ip"].
Definition timeToCipherMs_labels : list string := ["proto"; "found_key"].

(** [newShadowsocksMetrics]: every collector is new. *)
Definition newShadowsocksMetrics : shadowsocksMetrics :=
  {| buildInfo := ∅; accessKeys := 0; ports := 0;
     dataBytes := newCounterVec; timeToCipherMs := ∅; tcpProbes := ∅;
     tcpOpenConnections := newCounterVec; tcpClosedConnections := newCounterVec;
     tcpConnectionDurationMs := ∅;
     udpAddedNatEntries := 0; udpRemovedNatEntries := 0 |}.

Definition with_dataBytes (f : CounterVec -> CounterVec) (m : shadowsocksMetrics)
  : shadowsocksMetrics :=
  {| buildInfo := buildInfo m; accessKeys := accessKeys m; ports := ports m;
     dataBytes := f (dataBytes m); timeToCipherMs := timeToCipherMs m;
     tcpProbes := tcpProbes m; tcpOpenConnections := tcpOpenConnections m;
     tcpClosedConnections := tcpClosedConnections m;
     tcpConnectionDurationMs := tcpConnectionDurationMs m;
     udpAddedNatEntries := udpAddedNatEntries m;
     udpRemovedNatEntries := udpRemovedNatEntries m |}.

Definition with_timeToCipherMs (f : HistogramVec -> HistogramVec) (m : shadowsocksMetrics)
  : shadowsocksMetrics :=
  {| buildInfo := buildInfo m; accessKeys := accessKeys m; ports := ports m;
     dataBytes := dataBytes m; timeToCipherMs := f (timeToCipherMs m);
     tcpProbes := tcpProbes m; tcpOpenConnections := tcpOpenConnections m;
     tcpClosedConnections := tcpClosedConnections m;
     tcpConnectionDurationMs := tcpConnectionDurationMs m;
     udpAddedNatEntries := udpAddedNatEntries m;
     udpRemovedNatEntries := udpRemovedNatEntries m |}.

Definition SetBuildInfo (m : shadowsocksMetrics) (version : string) : shadowsocksMetrics :=
  {| buildInfo := GaugeVec_Set [version] 1 (buildInfo m);
     accessKeys := accessKeys m; ports := ports m;
     dataBytes := dataBytes m; timeToCipherMs := timeToCipherMs m;
     tcpProbes := tcpProbes m; tcpOpenConnections := tcpOpenConnections m;
     tcpClosedConnections := tcpClosedConnections m;
     tcpConnectionDurationMs := tcpConnectionDurationMs m;
     udpAddedNatEntries := udpAddedNatEntries m;
     udpRemovedNatEntries := udpRemovedNatEntries m |}.

Definition SetNumAccessKeys (m : shadowsocksMetrics) (numKeys ports_ : Z)
  : shadowsocksMetrics :=
  {| buildInfo := buildInfo m; accessKeys := numKeys; ports := ports_;
     dataBytes := dataBytes m; timeToCipherMs := timeToCipherMs m;
     tcpProbes := tcpProbes m; tcpOpenConnections := tcpOpenConnections m;
     tcpClosedConnections := tcpClosedConnections m;
     tcpConnectionDurationMs := tcpConnectionDurationMs m;
     udpAddedNatEntries := udpAddedNatEntries m;
     udpRemovedNatEntries := udpRemovedNatEntries m |}.

Definition AddOpenTCPConnection (m : shadowsocksMetrics) (clientIp accessKey : string)
  : shadowsocksMetrics :=
  {| buildInfo := buildInfo m; accessKeys := accessKeys m; ports := ports m;
     dataBytes := dataBytes m; timeToCipherMs := timeToCipherMs m;
     tcpProbes := tcpProbes m;
     tcpOpenConnections := Inc [clientIp; accessKey] (tcpOpenConnections m);
     tcpClosedConnections := tcpClosedConnections m;
     tcpConnectionDurationMs := tcpConnectionDurationMs m;
     udpAddedNatEntries := udpAddedNatEntries m;
     udpRemovedNatEntries := udpRemovedNatEntries m |}.

(** Converts accessKey to "true" or "false" *)
Definition isFound (accessKey : string) : string :=
  if decide (accessKey <> EmptyString) then "true" else "false".

Definition AddClosedTCPConnection (m : shadowsocksMetrics)
    (clientIp accessKey status : string) (data : ProxyMetrics)
    (timeToCipher duration : Z) : shadowsocksMetrics :=
  let m :=
    {| buildInfo := buildInfo m; accessKeys := accessKeys m; ports := ports m;
       dataBytes := dataBytes m; timeToCipherMs := timeToCipherMs m;
       tcpProbes := tcpProbes m; tcpOpenConnections := tcpOpenConnections m;
       tcpClosedConnections :=
         Inc [clientIp; status; accessKey] (tcpClosedConnections m);
       tcpConnectionDurationMs :=
         Observe [status] (Milliseconds duration) (tcpConnectionDurationMs m);
       udpAddedNatEntries := udpAddedNatEntries m;
       udpRemovedNatEntries := udpRemovedNatEntries m |} in
  let m := with_timeToCipherMs
             (Observe ["tcp"; isFound accessKey] (Milliseconds timeToCipher)) m in
  let m := with_dataBytes
             (fun cv => addIfNonZero (ClientProxy data) cv ["c>p"; "tcp"; accessKey; clientIp]) m in
  let m := with_dataBytes
             (fun cv => addIfNonZero (ProxyTarget data) cv ["p>t"; "tcp"; accessKey; clientIp]) m in
  let m := with_dataBytes
             (fun cv => addIfNonZero (TargetProxy data) cv ["p<t"; "tcp"; accessKey; clientIp]) m in
  with_dataBytes
    (fun cv => addIfNonZero (ProxyClient data) cv ["c<p"; "tcp"; accessKey; clientIp]) m.

Definition AddTCPProbe (m : shadowsocksMetrics) (status drainResult : string)
    (port : Z) (data : ProxyMetrics) : shadowsocksMetrics :=
  {| buildInfo := buildInfo m; accessKeys := accessKeys m; ports := ports m;
     dataBytes := dataBytes m; timeToCipherMs := timeToCipherMs m;
     tcpProbes := Observe [itoa port; status; drainResult]
                    (Float64 (ClientProxy data)) (tcpProbes m);
     tcpOpenConnections := tcpOpenConnections m;
     tcpClosedConnections := tcpClosedConnections m;
     tcpConnectionDurationMs := tcpConnectionDurationMs m;
     udpAddedNatEntries := udpAddedNatEntries m;
     udpRemovedNatEntries := udpRemovedNatEntries m |}.

Definition AddUDPPacketFromClient (m : shadowsocksMetrics)
    (clientIp accessKey status : string) (clientProxyBytes proxyTargetBytes : Z)
    (timeToCipher : Z) : shadowsocksMetrics :=
  let m := with_timeToCipherMs
             (Observe ["udp"; isFound accessKey] (Milliseconds timeToCipher)) m in
  let m := with_dataBytes
             (fun cv => addIfNonZero clientProxyBytes cv ["c>p"; "udp"; accessKey; clientIp]) m in
  with_dataBytes
    (fun cv => addIfNonZero proxyTargetBytes cv ["p>t"; "udp"; accessKey; clientIp]) m.

Definition AddUDPPacketFromTarget (m : shadowsocksMetrics)
    (clientIp accessKey status : string) (targetProxyBytes proxyClientBytes : Z)
  : shadowsocksMetrics :=
  let m := with_dataBytes
             (fun cv => addIfNonZero targetProxyBytes cv ["p<t"; "udp"; accessKey; clientIp]) m in
  with_dataBytes
    (fun cv => addIfNonZero proxyClientBytes cv ["c<p"; "udp"; accessKey; clientIp]) m.

Definition AddUDPNatEntry (m : shadowsocksMetrics) : shadowsocksMetrics :=
  {| buildInfo := buildInfo m; accessKeys := accessKeys m; ports := ports m;
     dataBytes := dataBytes m; timeToCipherMs := timeToCipherMs m;
     tcpProbes := tcpProbes m; tcpOpenConnections := tcpOpenConnections m;
     tcpClosedConnections := tcpClosedConnections m;
     tcpConnectionDurationMs := tcpConnectionDurationMs m;
     udpAddedNatEntries := udpAddedNatEntries m + 1;
     udpRemovedNatEntries := udpRemovedNatEntries m |}.

Definition RemoveUDPNatEntry (m : shadowsocksMetrics) : shadowsocksMetrics :=
  {| buildInfo := buildInfo m; accessKeys := accessKeys m; ports := ports m;
     dataBytes := dataBytes m; timeToCipherMs := timeToCipherMs m;
     tcpProbes := tcpProbes m; tcpOpenConnections := tcpOpenConnections m;
     tcpClosedConnections := tcpClosedConnections m;
     tcpConnectionDurationMs := tcpConnectionDurationMs m;
     udpAddedNatEntries := udpAddedNatEntries m;
     udpRemovedNatEntries := udpRemovedNatEntries m + 1 |}.

(** The calls of the interface [ShadowsocksMetrics] that change the
    collectors, and a run of such calls. *)
Inductive call :=
| Call_SetBuildInfo (version : string)
| Call_SetNumAccessKeys (numKeys numPorts : Z)
| Call_AddOpenTCPConnection (clientIp accessKey : string)
| Call_AddClosedTCPConnection (clientIp accessKey status : string)
    (data : ProxyMetrics) (timeToCipher duration : Z)
| Call_AddTCPProbe (status drainResult : string) (port : Z) (data : ProxyMetrics)
| Call_AddUDPPacketFromClient (clientIp accessKey status : string)
    (clientProxyBytes proxyTargetBytes : Z) (timeToCipher : Z)
| Call_AddUDPPacketFromTarget (clientIp accessKey status : string)
    (targetProxyBytes proxyClientBytes : Z)
| Call_AddUDPNatEntry
| Call_RemoveUDPNatEntry.

Definition do_call (m : shadowsocksMetrics) (c : call) : shadowsocksMetrics :=
  match c with
  | Call_SetBuildInfo version => SetBuildInfo m version
  | Call_SetNumAccessKeys numKeys numPorts => SetNumAccessKeys m numKeys numPorts
  | Call_AddOpenTCPConnection clientIp accessKey =>
      AddOpenTCPConnection m clientIp accessKey
  | Call_AddClosedTCPConnection clientIp accessKey status data timeToCipher duration =>
      AddClosedTCPConnection m clientIp accessKey status data timeToCipher duration
  | Call_AddTCPProbe status drainResult port data =>
      AddTCPProbe m status drainResult port data
  | Call_AddUDPPacketFromClient clientIp accessKey status cp pt timeToCipher =>
      AddUDPPacketFromClient m clientIp accessKey status cp pt timeToCipher
  | Call_AddUDPPacketFromTarget clientIp accessKey status tp pc =>
      AddUDPPacketFromTarget m clientIp accessKey status tp pc
  | Call_AddUDPNatEntry => AddUDPNatEntry m
  | Call_RemoveUDPNatEntry => RemoveUDPNatEntry m
  end.

(** Every series of a counter vector has a positive value and label
    values that are [ok]; every series of a histogram vector has a sample
    and label values that are [ok]. *)
Definition counters_ok (ok : list string -> Prop) (cv : CounterVec) : Prop :=
  forall lvs v, series cv !! lvs = Some v -> 0 < v /\ ok lvs.

Definition samples_ok (ok : list string -> Prop) (hv : HistogramVec) : Prop :=
  forall lvs obs, hv !! lvs = Some obs -> obs <> [] /\ ok lvs.

(** The label values of a series of [dataBytes] and of [timeToCipherMs]. *)
Definition dataBytes_lvs (lvs : list string) : Prop :=
  exists dir proto accessKey clientIp : string,
    lvs = [dir; proto; accessKey; clientIp] /\
    dir ∈ ["c>p"; "p>t"; "p<t"; "c<p"]%string /\ proto ∈ ["tcp"; "udp"]%string.

Definition timeToCipherMs_lvs (lvs : list string) : Prop :=
  exists proto found_key : string,
    lvs = [proto; found_key] /\
    proto ∈ ["tcp"; "udp"]%string /\ found_key ∈ ["true"; "false"]%string.

(** ** The client address of a connection *)

(** [bytealg.IndexByteString] and [bytealg.LastIndexByteString] of the Go
    library, with [None] for [-1], and the slices [s[:n]] and [s[n:]] of a
    string. *)
Fixpoint IndexByteString (s : string) (c : Ascii.ascii) : option nat :=
  match s with
  | EmptyString => None
  | String a s => if Ascii.eqb a c then Some 0%nat else S <$> IndexByteString s c
  end.

Fixpoint LastIndexByteString (s : string) (c : Ascii.ascii) : option nat :=
  match s with
  | EmptyString => None
  | String a s =>
      match LastIndexByteString s c with
      | Some i => Some (S i)
      | None => if Ascii.eqb a c then Some 0%nat else None
      end
  end.

Fixpoint slice_to (n : nat) (s : string) : string :=
  match n, s with
  | S n, String a s => String a (slice_to n s)
  | _, _ => EmptyString
  end.

Fixpoint slice_from (n : nat) (s : string) : string :=
  match n, s with
  | S n, String _ s => slice_from n s
  | _, _ => s
  end.

(** The text of a [net.AddrError]. *)
Definition AddrError (Err Addr : string) : error :=
  if decide (Addr <> EmptyString) then "address " +:+ Addr +:+ ": " +:+ Err else Err.

(** [net.SplitHostPort] of the Go library. *)
Definition SplitHostPort (hostport : string) : string * string * option error :=
  let missingPort : string := "missing port in address" in
  let tooManyColons : string := "too many colons in address" in
  let addrErr (addr why : string) : string * string * option error :=
    (EmptyString, EmptyString, Some (AddrError why addr)) in
  (* The port starts after the last colon. *)
  match LastIndexByteString hostport ":" with
  | None => addrErr hostport missingPort
  | Some i =>
      let host_j_k : (string * string * option error) + (string * nat * nat) :=
        if decide (String.get 0 hostport = Some "["%char) then
          (* Expect the first ']' just before the last ':'. *)
          match IndexByteString hostport "]" with
          | None => inl (addrErr hostport "missing ']' in address")
          | Some end_ =>
              if (end_ + 1 =? String.length hostport)%nat then
                inl (addrErr hostport missingPort)
              else if (end_ + 1 =? i)%nat then
                inr (slice_to (end_ - 1) (slice_from 1 hostport), 1%nat, (end_ + 1)%nat)
              else if decide (String.get (end_ + 1) hostport = Some ":"%char) then
                inl (addrErr hostport tooManyColons)
              else inl (addrErr hostport missingPort)
          end
        else
          let host := slice_to i hostport in
          if decide (is_Some (IndexByteString host ":")) then
            inl (addrErr hostport tooManyColons)
          else inr (host, 0%nat, 0%nat) in
      match host_j_k with
      | inl failure => failure
      | inr (host, j, k) =>
          if decide (is_Some (IndexByteString (slice_from j hostport) "[")) then
            addrErr hostport "unexpected '[' in address"
          else if decide (is_Some (IndexByteString (slice_from k hostport) "]")) then
            addrErr hostport "unexpected ']' in address"
          else (host, slice_from (i + 1) hostport, None)
      end
  end.

(** [GetIpAddress], for the text [addr.String()] of the address. *)
Definition GetIpAddress (addr_String : string) : string :=
  let '(ip, _, _) := SplitHostPort addr_String in ip.

(** ** Measured connections *)

(** The counters of a measured connection are pointers to [int64]
    variables of the caller: addresses into a store that has the value of
    each variable. *)
Definition store := nat -> Z.

(** [*p += n] *)
Definition add_at (p : nat) (n : Z) (h : store) : store :=
  fun q => if decide (q = p) then int64 (h p + n) else h q.

Record measuredConn := {
  mc_DuplexConn : Net.DuplexConn;
  readCount : nat;
  writeCount : nat
}.

Definition MeasureConn (conn : Net.DuplexConn) (bytesSent bytesReceived : nat)
  : measuredConn :=
  {| mc_DuplexConn := conn; writeCount := bytesSent; readCount := bytesReceived |}.

Definition with_conn (c : measuredConn) (conn : Net.DuplexConn) : measuredConn :=
  {| mc_DuplexConn := conn; readCount := readCount c; writeCount := writeCount c |}.

Definition measuredConn_Read (c : measuredConn) (h : store)
  : (list byte * option Net.read_err) * measuredConn * store :=
  let '((data, err), conn) := Net.Read (mc_DuplexConn c) in
  ((data, err), with_conn c conn, add_at (readCount c) (Z.of_nat (length data)) h).

Definition measuredConn_Write (b : list byte) (c : measuredConn) (h : store)
  : (nat * option error) * measuredConn * store :=
  let '((n, err), conn) := Net.Write b (mc_DuplexConn c) in
  ((n, err), with_conn c conn, add_at (writeCount c) (Z.of_nat n) h).

(** The connections that meet in a copy: those of package [net], bare or
    measured. *)
Inductive Conn :=
| bare (c : Net.DuplexConn)
| measured (c : measuredConn).

(** [io.Copy(dst, src)] for a reader [src] that has no [WriteTo]: when [dst]
    is measured this is [dst.ReadFrom(src)], that is
    [io.Copy(c.DuplexConn, r)] followed by [*c.writeCount += n]. *)
Definition io_Copy_into {R} (read : R -> (list byte * option Net.read_err) * R)
    (turns : R -> nat) (dst : Conn) (src : R) (h : store)
  : (Z * option error) * Conn * R * store :=
  match dst with
  | bare d =>
      let '(res, d, src) := Net.io_Copy_to read turns d src in (res, bare d, src, h)
  | measured c =>
      let '((n, err), conn, src) := Net.io_Copy_to read turns (mc_DuplexConn c) src in
      ((n, err), measured (with_conn c conn), src, add_at (writeCount c) n h)
  end.

(** [io.Copy(dst, src)] out of a connection of package [net]: the [WriteTo]
    of an adaptor is [io.Copy(w, dc.r)]. *)
Definition io_Copy_from (dst : Conn) (src : Net.DuplexConn) (h : store)
  : (Z * option error) * Conn * Net.DuplexConn * store :=
  match src with
  | Net.duplexConnAdaptor conn dc_r dc_w =>
      let '(res, dst, dc_r, h) := io_Copy_into Net.Stream_Read Net.chunks dst dc_r h in
      (res, dst, Net.duplexConnAdaptor conn dc_r dc_w, h)
  | Net.tcpConn _ _ _ _ => io_Copy_into Net.Read Net.conn_chunks dst src h
  end.

(** [io.Copy(dst, src)]: out of a measured connection it is
    [src.WriteTo(dst)], that is [io.Copy(w, c.DuplexConn)] followed by
    [*c.readCount += n]. *)
Definition io_Copy_Conn (dst src : Conn) (h : store)
  : (Z * option error) * Conn * Conn * store :=
  match src with
  | bare s =>
      let '(res, dst, s, h) := io_Copy_from dst s h in (res, dst, bare s, h)
  | measured c =>
      let '((n, err), dst, conn, h) := io_Copy_from dst (mc_DuplexConn c) h in
      ((n, err), dst, measured (with_conn c conn), add_at (readCount c) n h)
  end.

(** [CloseRead] and [CloseWrite] of a measured connection are those of the
    connection it embeds. *)
Definition Conn_CloseRead (c : Conn) : option error * Conn :=
  match c with
  | bare d => let '(err, d) := Net.CloseRead d in (err, bare d)
  | measured c =>
      let '(err, conn) := Net.CloseRead (mc_DuplexConn c) in
      (err, measured (with_conn c conn))
  end.

Definition Conn_CloseWrite (c : Conn) : option error * Conn :=
  match c with
  | bare d => let '(err, d) := Net.CloseWrite d in (err, bare d)
  | measured c =>
      let '(err, conn) := Net.CloseWrite (mc_DuplexConn c) in
      (err, measured (with_conn c conn))
  end.

(** [copyOneWay] and [Relay] of package [net] (see [Net.copyOneWay] and
    [Net.Relay]) on such connections, with the store of the counters. *)
Definition copyOneWay_Conn (leftConn rightConn : Conn) (h : store)
  : (Z * option error) * Conn * Conn * store :=
  let '(n_err, leftConn, rightConn, h) := io_Copy_Conn leftConn rightConn h in
  let '(_, leftConn) := Conn_CloseWrite leftConn in
  let '(_, rightConn) := Conn_CloseRead rightConn in
  (n_err, leftConn, rightConn, h).

Definition Relay_Conn (leftConn rightConn : Conn) (h : store)
  : (Z * Z * option error) * Conn * Conn * store :=
  let '((rs_N, rs_Err), rightConn, leftConn, h) := copyOneWay_Conn rightConn leftConn h in
  let '((n, err), leftConn, rightConn, h) := copyOneWay_Conn leftConn rightConn h in
  let err := match err with None => rs_Err | Some _ => err end in
  ((n, rs_N, err), leftConn, rightConn, h).

(** The connection of package [net] inside. *)
Definition conn_of (c : Conn) : Net.DuplexConn :=
  match c with
  | bare d => d
  | measured c => mc_DuplexConn c
  end.

Definition put_conn (c : Conn) (d : Net.DuplexConn) : Conn :=
  match c with
  | bare _ => bare d
  | measured c => measured (with_conn c d)
  end.

(** The counter updates of a copy of [n] bytes from [src] to [dst]. *)
Definition count_read (src : Conn) (n : Z) (h : store) : store :=
  match src with
  | bare _ => h
  | measured c => add_at (readCount c) n h
  end.

Definition count_written (dst : Conn) (n : Z) (h : store) : store :=
  match dst with
  | bare _ => h
  | measured c => add_at (writeCount c) n h
  end.

End Metrics.

(* ================================================================== *)
(** * Package [main] *)
(* ================================================================== *)
Module Main.

(** Whether the text [hay] has the text [needle] in it. *)
Fixpoint mentions (needle hay : string) : bool :=
  String.prefix needle hay ||
  match hay with
  | EmptyString => false
  | String _ hay => mentions needle hay
  end.

(** One element of [Config.Keys]. *)
Record KeyConfig := {
  ID : string;
  Port : Z;
  Cipher : string;
  Secret : string
}.

Record Config := { Keys : list KeyConfig }.

(** The operating system and the Go runtime, as one reconcile pass meets
    them: whether a bind succeeds ([None]) or fails with an error, what the
    [Stop] of a service returns, and the orders in which the three [range]
    loops of [loadConfig] visit their maps (see [rangeOrder]). *)
Record OS := {
  ListenTCP : Z -> option error;
  ListenUDP : Z -> option error;
  tcpStop : nat -> option error;
  udpStop : nat -> option error;
  rangePorts : list nat;
  rangeChanges : list nat;
  rangeCiphers : list nat
}.

Definition insert_at {A} (k : nat) (x : A) (l : list A) : list A :=
  take k l ++ x :: drop k l.

(** The order of a [range] over a Go map is not specified.  A schedule, a
    list of numbers, picks one: each element is inserted at the position the
    schedule names among the elements that follow it.  Every order of the
    elements comes from some schedule ([rangeOrder_complete]). *)
Fixpoint rangeOrder {A} (sched : list nat) (l : list A) : list A :=
  match l with
  | [] => []
  | x :: l' =>
      let rest := rangeOrder (tl sched) l' in
      insert_at (hd 0%nat sched `mod` S (length rest))%nat x rest
  end.

Section WithCipher.

(** [ss.NewCipher] of the package [shadowsocks], which is not among the
    sources: a function from a cipher name and a secret to a cipher or an
    error. *)
Context {CipherT : Type}.
Variable NewCipher : string -> string -> CipherT + error.

(** Modelled from the spec: [service.CipherEntry] and
    [service.MakeCipherEntry] (package [service] is not among the sources):
    one entry of a port's cipher set, made of a key's id, cipher and
    secret. *)
Record CipherEntry := {
  entryID : string;
  entryCipher : CipherT;
  entrySecret : string
}.

Definition MakeCipherEntry (id : string) (cipher : CipherT) (secret : string)
  : CipherEntry :=
  {| entryID := id; entryCipher := cipher; entrySecret := secret |}.

(** [ssPort].  Modelled from the spec: a [service.TCPService] and a
    [service.UDPService] are each known by the number given to them when they
    were made; [cipherList] is the content of the [service.CipherList] that
    both services share. *)
Record ssPort := {
  tcpService : nat;
  udpService : nat;
  cipherList : list CipherEntry
}.

(** What a pass does to the world outside the port map. *)
Inductive Event :=
| BindTCP (portNum : Z)
| BindUDP (portNum : Z)
| ServeTCP (portNum : Z) (svc : nat)
| ServeUDP (portNum : Z) (svc : nat)
| StopTCP (portNum : Z) (svc : nat)
| StopUDP (portNum : Z) (svc : nat)
| UpdateCiphers (portNum : Z) (entries : list CipherEntry)
| SetNumAccessKeys (numKeys numPorts : Z).

(** [SSServer]: the map [ports], the number of the next service to be made,
    and the events so far, oldest first. *)
Record SSServer := {
  ports : gmap Z ssPort;
  nextService : nat;
  trace : list Event
}.

Definition emit (evs : list Event) (s : SSServer) : SSServer :=
  {| ports := ports s; nextService := nextService s; trace := trace s ++ evs |}.

Definition startPort (os : OS) (s : SSServer) (portNum : Z) : option error * SSServer :=
  let s := emit [BindTCP portNum] s in
  match ListenTCP os portNum with
  | Some err =>
      (Some ("Failed to start TCP on port " +:+ itoa portNum +:+ ": " +:+ err), s)
  | None =>
      let s := emit [BindUDP portNum] s in
      match ListenUDP os portNum with
      | Some err =>
          (Some ("Failed to start UDP on port " +:+ itoa portNum +:+ ": " +:+ err), s)
      | None =>
          let port := {| tcpService := nextService s;
                         udpService := S (nextService s);
                         cipherList := [] |} in
          (None,
           {| ports := <[portNum := port]> (ports s);
              nextService := S (S (nextService s));
              trace := trace s ++ [ServeTCP portNum (tcpService port);
                                   ServeUDP portNum (udpService port)] |})
      end
  end.

Definition removePort (os : OS) (s : SSServer) (portNum : Z) : option error * SSServer :=
  match ports s !! portNum with
  | None => (Some ("Port " +:+ itoa portNum +:+ " doesn't exist"), s)
  | Some port =>
      let tcpErr := tcpStop os (tcpService port) in
      let udpErr := udpStop os (udpService port) in
      let s := {| ports := delete portNum (ports s);
                  nextService := nextService s;
                  trace := trace s ++ [StopTCP portNum (tcpService port);
                                       StopUDP portNum (udpService port)] |} in
      match tcpErr with
      | Some tcpErr =>
          (Some ("Failed to close listener on " +:+ itoa portNum +:+ ": " +:+ tcpErr), s)
      | None =>
          match udpErr with
          | Some udpErr =>
              (Some ("Failed to close packetConn on " +:+ itoa portNum +:+ ": " +:+ udpErr), s)
          | None => (None, s)
          end
      end
  end.

(** The first loop of [loadConfig], over [config.Keys] in order. *)
Fixpoint buildCiphers (keys : list KeyConfig)
    (portChanges : gmap Z Z) (portCiphers : gmap Z (list CipherEntry))
  : error + (gmap Z Z * gmap Z (list CipherEntry)) :=
  match keys with
  | [] => inr (portChanges, portCiphers)
  | keyConfig :: keys =>
      let portChanges := <[Port keyConfig := 1]> portChanges in
      let portCiphers :=
        match portCiphers !! Port keyConfig with
        | Some _ => portCiphers
        | None => <[Port keyConfig := []]> portCiphers
        end in
      match NewCipher (Cipher keyConfig) (Secret keyConfig) with
      | inr err =>
          inl ("Failed to create cipher for key " +:+ ID keyConfig +:+ ": " +:+ err)
      | inl cipher =>
          let entry := MakeCipherEntry (ID keyConfig) cipher (Secret keyConfig) in
          let cipherList := default [] (portCiphers !! Port keyConfig) in
          buildCiphers keys portChanges
            (<[Port keyConfig := cipherList ++ [entry]]> portCiphers)
      end
  end.

(** The second loop: [portChanges[port] = portChanges[port] - 1]. *)
Definition countBound (portChanges : gmap Z Z) (bound : list Z) : gmap Z Z :=
  foldl (fun pc port => <[port := default 0 (pc !! port) - 1]> pc) portChanges bound.

(** The third loop, over the entries of [portChanges] in the order given. *)
Fixpoint applyChanges (os : OS) (changes : list (Z * Z)) (s : SSServer)
  : option error * SSServer :=
  match changes with
  | [] => (None, s)
  | (portNum, count) :: changes =>
      if count =? -1 then
        match removePort os s portNum with
        | (Some err, s) =>
            (Some ("Failed to remove port " +:+ itoa portNum +:+ ": " +:+ err), s)
        | (None, s) => applyChanges os changes s
        end
      else if count =? 1 then
        match startPort os s portNum with
        | (Some err, s) =>
            (Some ("Failed to start port " +:+ itoa portNum +:+ ": " +:+ err), s)
        | (None, s) => applyChanges os changes s
        end
      else applyChanges os changes s
  end.

(** The fourth loop: [s.ports[portNum].cipherList.Update(cipherList)].
    [None] is the nil dereference of a port that is not in the map. *)
Fixpoint updateCiphers (ciphers : list (Z * list CipherEntry)) (s : SSServer)
  : option SSServer :=
  match ciphers with
  | [] => Some s
  | (portNum, entries) :: ciphers =>
      match ports s !! portNum with
      | None => None
      | Some port =>
          let port := {| tcpService := tcpService port;
                         udpService := udpService port;
                         cipherList := entries |} in
          updateCiphers ciphers
            {| ports := <[portNum := port]> (ports s);
               nextService := nextService s;
               trace := trace s ++ [UpdateCiphers portNum entries] |}
      end
  end.

(** How a call ends: it returns its [error], or the process panics. *)
Inductive outcome :=
| Returned (err : option error)
| Panicked.

Definition loadConfig (os : OS) (s : SSServer) (config : Config) : outcome * SSServer :=
  match buildCiphers (Keys config) ∅ ∅ with
  | inl err => (Returned (Some err), s)
  | inr (portChanges, portCiphers) =>
      let portChanges :=
        countBound portChanges (rangeOrder (rangePorts os) (map_to_list (ports s)).*1) in
      match applyChanges os (rangeOrder (rangeChanges os) (map_to_list portChanges)) s with
      | (Some err, s) => (Returned (Some err), s)
      | (None, s) =>
          match updateCiphers (rangeOrder (rangeCiphers os) (map_to_list portCiphers)) s with
          | None => (Panicked, s)
          | Some s =>
              (Returned None,
               emit [SetNumAccessKeys (Z.of_nat (length (Keys config)))
                                      (Z.of_nat (size portCiphers))] s)
          end
      end
  end.

(** The entries that a configuration gives to a port: one for each of its
    keys that names the port, in the order of the keys. *)
Definition entriesFor (portNum : Z) (keys : list KeyConfig) : list CipherEntry :=
  omap (fun keyConfig =>
          match NewCipher (Cipher keyConfig) (Secret keyConfig) with
          | inl cipher =>
              Some (MakeCipherEntry (ID keyConfig) cipher (Secret keyConfig))
          | inr _ => None
          end)
       (filter (fun keyConfig => Port keyConfig = portNum) keys).

(** The port that an event starts or stops, if it does. *)
Definition start_stop_port (ev : Event) : option Z :=
  match ev with
  | BindTCP p | BindUDP p | ServeTCP p _ | ServeUDP p _
  | StopTCP p _ | StopUDP p _ => Some p
  | UpdateCiphers _ _ | SetNumAccessKeys _ _ => None
  end.

(** All keys of the list get a cipher. *)
Definition ciphers_ok (keys : list KeyConfig) : Prop :=
  Forall (fun k => exists c, NewCipher (Cipher k) (Secret k) = inl c) keys.

(** The change that a pass intends for a port: [1] is a start, [-1] a stop,
    [0] nothing. *)
Definition change (keys : list KeyConfig) (s : SSServer) (p : Z) : Z :=
  (if decide (p ∈ Port <$> keys) then 1 else 0) -
  (if decide (is_Some (ports s !! p)) then 1 else 0).

(** What the third and the fourth loop of [loadConfig] range over, in
    whatever order: the intended change of every port that is named or
    bound, and the entries of every port that is named. *)
Definition changes_of (keys : list KeyConfig) (s : SSServer)
    (changes : list (Z * Z)) : Prop :=
  NoDup changes.*1 /\
  forall p c, (p, c) ∈ changes <->
    (p ∈ Port <$> keys \/ is_Some (ports s !! p)) /\ c = change keys s p.

Definition ciphers_of (keys : list KeyConfig)
    (ciphers : list (Z * list CipherEntry)) : Prop :=
  NoDup ciphers.*1 /\
  forall p entries, (p, entries) ∈ ciphers <->
    p ∈ Port <$> keys /\ entries = entriesFor p keys.

(** The outcome of a pass that fails while it builds the cipher entries: the
    error names the key, and the server is as it was. *)
Definition cipher_failure (s : SSServer) (config : Config) (err : error)
    (s' : SSServer) : Prop :=
  exists k e,
    k ∈ Keys config /\ NewCipher (Cipher k) (Secret k) = inr e /\
    err = "Failed to create cipher for key " +:+ ID k +:+ ": " +:+ e /\
    s' = s.

(** The outcome of a pass that fails at a port: the changes [applied] were
    made and stay, the change of [portNum] failed with [cause] and the error
    names [portNum], and the changes [rest] were not tried. *)
Definition port_failure (os : OS) (s : SSServer) (config : Config) (err : error)
    (s' : SSServer) : Prop :=
  ciphers_ok (Keys config) /\
  exists applied portNum count rest s_mid cause,
    changes_of (Keys config) s (applied ++ (portNum, count) :: rest) /\
    applyChanges os applied s = (None, s_mid) /\
    ((count = -1 /\ removePort os s_mid portNum = (Some cause, s') /\
      err = "Failed to remove port " +:+ itoa portNum +:+ ": " +:+ cause) \/
     (count = 1 /\ startPort os s_mid portNum = (Some cause, s') /\
      err = "Failed to start port " +:+ itoa portNum +:+ ": " +:+ cause)) /\
    mentions (itoa portNum) err = true /\
    (forall p, (p, -1) ∈ applied -> is_Some (ports s !! p) /\ ports s' !! p = None) /\
    (forall p, (p, 1) ∈ applied -> ports s !! p = None /\ is_Some (ports s' !! p)) /\
    (forall p, p <> portNum -> (forall c, (p, c) ∈ applied -> c = 0) ->
       ports s' !! p = ports s !! p) /\
    ports s' !! portNum = None /\
    exists evs, trace s' = trace s ++ evs /\
      Forall (fun ev => exists q c, start_stop_port ev = Some q /\
                          (q, c) ∈ applied ++ [(portNum, count)]) evs.

(** ** Stopping the server *)

(** The loop of [Stop] over the port numbers in the order given:
    [removePort] deletes the port at hand and no other. *)
Fixpoint stopPorts (os : OS) (portNums : list Z) (s : SSServer)
  : option error * SSServer :=
  match portNums with
  | [] => (None, s)
  | portNum :: portNums =>
      match removePort os s portNum with
      | (Some err, s) => (Some err, s)
      | (None, s) => stopPorts os portNums s
      end
  end.

(** [Stop]: stop serving on all ports. *)
Definition Stop (os : OS) (s : SSServer) : option error * SSServer :=
  stopPorts os (rangeOrder (rangePorts os) (map_to_list (ports s)).*1) s.

(** The events of stopping the ports of the list one after the other, each
    with the services it has in [s]. *)
Definition stop_events (s : SSServer) (portNums : list Z) : list Event :=
  flat_map (fun p => match ports s !! p with
                     | Some port => [StopTCP p (tcpService port);
                                     StopUDP p (udpService port)]
                     | None => []
                     end) portNums.

(** [Stop] called again and again, once on each system of the list. *)
Definition Stop_again (oss : list OS) (s : SSServer) : SSServer :=
  foldl (fun s os => (Stop os s).2) s oss.

(** ** Loading the configuration file *)

(** The files of the system: what [ioutil.ReadFile] returns for a name, what
    [yaml.Unmarshal] makes of the content, what [yaml.Marshal] makes of a
    configuration, and what [ioutil.WriteFile] does with a name and a
    content (it may fail, and may have changed the file when it does). *)
Record Files (FS : Type) := {
  ReadFile : FS -> string -> list byte + error;
  WriteFile : FS -> string -> list byte -> option error * FS;
  yaml_Unmarshal : list byte -> Config + error;
  yaml_Marshal : Config -> list byte;
  json_Decode : list byte -> Config + error
}.
Arguments ReadFile {FS}.
Arguments WriteFile {FS}.
Arguments yaml_Unmarshal {FS}.
Arguments yaml_Marshal {FS}.
Arguments json_Decode {FS}.

Definition loadConfigFile {FS} (io : Files FS) (fs : FS) (os : OS) (s : SSServer)
    (filename : string) : outcome * SSServer :=
  match ReadFile io fs filename with
  | inr err => (Returned (Some err), s)
  | inl configData =>
      match yaml_Unmarshal io configData with
      | inr err =>
          (Returned (Some ("Failed to read config file " +:+ filename +:+ ": " +:+ err)), s)
      | inl config => loadConfig os s config
      end
  end.

(** The fields [natTimeout], [m] and [replayCache] of [SSServer]:
    [RunSSServer] sets them, and [startPort] hands them to the services it
    makes, which are not among the sources. *)
Record Settings (MetricsT ReplayCacheT : Type) := {
  natTimeout : Z;
  m : MetricsT;
  replayCache : ReplayCacheT
}.
Arguments natTimeout {MetricsT ReplayCacheT}.
Arguments m {MetricsT ReplayCacheT}.
Arguments replayCache {MetricsT ReplayCacheT}.

(** [RunSSServer] up to its [return]: the server it returns, with the fields
    it has set, or [None] for the nil pointer, how the call ended, and what
    the call has done to the world outside (the events of the server it
    made, returned or not).  [service.NewReplayCache] is not among the
    sources: it is the parameter [NewReplayCache], from the capacity to the
    cache, or [None] when the call panics; the literal of the server calls it
    before [loadConfigFile] runs.  The goroutine that [RunSSServer] starts
    before it returns runs [loadConfigFile] again on every SIGHUP and logs
    the error. *)
Definition RunSSServer {FS MetricsT ReplayCacheT}
    (NewReplayCache : Z -> option ReplayCacheT)
    (io : Files FS) (fs : FS) (os : OS)
    (filename : string) (natTimeout : Z) (sm : MetricsT) (replayHistory : Z)
  : option (Settings MetricsT ReplayCacheT * SSServer) * outcome * list Event :=
  match NewReplayCache replayHistory with
  | None => (None, Panicked, [])
  | Some cache =>
      let settings := {| natTimeout := natTimeout; m := sm; replayCache := cache |} in
      let server := {| ports := ∅; nextService := 0; trace := [] |} in
      match loadConfigFile io fs os server filename with
      | (Returned (Some err), server) =>
          (None,
           Returned (Some ("Failed to load config file " +:+ filename +:+ ": " +:+ err)),
           trace server)
      | (Returned None, server) => (Some (settings, server), Returned None, trace server)
      | (Panicked, server) => (None, Panicked, trace server)
      end
  end.

(** ** The handler of /secrets *)

(** The quotation mark, and a text between two of them. *)
Definition quotation_mark : string := String (ascii_of_nat 34) EmptyString.
Definition quoted (text : string) : string := quotation_mark +:+ text +:+ quotation_mark.

(** The two answers of the handlers: [{"success":false,"error":"%v"}] and
    [{"success":true,"response":"%v"}]; the text goes in as it is. *)
Definition answer_error (err : string) : string :=
  ("{" +:+ quoted "success" +:+ ":false," +:+ quoted "error" +:+ ":" +:+ quotation_mark)
  +:+ err +:+ (quotation_mark +:+ "}").

Definition answer_ok (response : string) : string :=
  ("{" +:+ quoted "success" +:+ ":true," +:+ quoted "response" +:+ ":" +:+ quotation_mark)
  +:+ response +:+ (quotation_mark +:+ "}").

(** [server.loadConfig(&jsonConfig)] on the package variable [server], which
    is nil until [RunSSServer] has returned: the first loop does not touch
    the receiver, the second loop dereferences it. *)
Definition server_loadConfig (os : OS) (server : option SSServer) (config : Config)
  : outcome * option SSServer :=
  match server with
  | Some s => let '(res, s) := loadConfig os s config in (res, Some s)
  | None =>
      match buildCiphers (Keys config) ∅ ∅ with
      | inl err => (Returned (Some err), None)
      | inr _ => (Panicked, None)
      end
  end.

(** [LoadSecretsHandler]: what it writes to the response ([None] when it
    panics before it writes), the files and the server afterwards.
    [ConfigFile] is [flags.ConfigFile], [body] the body of the request; the
    error of [yaml.Marshal] is dropped, as in the source. *)
Definition LoadSecretsHandler {FS} (io : Files FS) (ConfigFile : string)
    (fs : FS) (os : OS) (server : option SSServer) (body : list byte)
  : option string * FS * option SSServer :=
  match json_Decode io body with
  | inr err => (Some (answer_error err), fs, server)
  | inl jsonConfig =>
      match server_loadConfig os server jsonConfig with
      | (Panicked, server) => (None, fs, server)
      | (Returned (Some err), server) => (Some (answer_error err), fs, server)
      | (Returned None, server) =>
          let configByteArray := yaml_Marshal io jsonConfig in
          match WriteFile io fs ConfigFile configByteArray with
          | (Some err, fs) => (Some (answer_error err), fs, server)
          | (None, fs) =>
              (Some (answer_ok ("Loaded " +:+ itoa (Z.of_nat (length (Keys jsonConfig)))
                                +:+ " access keys")),
               fs, server)
          end
      end
  end.

(** The ports that a configuration names, each once. *)
Definition named_ports (config : Config) : list Z := remove_dups (Port <$> Keys config).

(** What a pass may do to the world: stop a port that was bound and is not
    named, start a port that is named and was not bound, replace the
    ciphers of a named port by the entries of its keys, and report the
    numbers of keys and of named ports. *)
Definition event_of_pass (s : SSServer) (config : Config) (ev : Event) : Prop :=
  match ev with
  | StopTCP p svc =>
      (p ∉ Port <$> Keys config) /\
      exists port, ports s !! p = Some port /\ svc = tcpService port
  | StopUDP p svc =>
      (p ∉ Port <$> Keys config) /\
      exists port, ports s !! p = Some port /\ svc = udpService port
  | BindTCP p | BindUDP p | ServeTCP p _ | ServeUDP p _ =>
      p ∈ Port <$> Keys config /\ ports s !! p = None
  | UpdateCiphers p entries =>
      p ∈ Port <$> Keys config /\ entries = entriesFor p (Keys config)
  | SetNumAccessKeys numKeys numPorts =>
      numKeys = Z.of_nat (length (Keys config)) /\
      numPorts = Z.of_nat (length (named_ports config))
  end.

(** The same for the third loop alone, on its list of changes. *)
Definition event_of_changes (s : SSServer) (changes : list (Z * Z)) (ev : Event) : Prop :=
  match ev with
  | StopTCP p svc =>
      (p, -1) ∈ changes /\ exists port, ports s !! p = Some port /\ svc = tcpService port
  | StopUDP p svc =>
      (p, -1) ∈ changes /\ exists port, ports s !! p = Some port /\ svc = udpService port
  | BindTCP p | BindUDP p | ServeTCP p _ | ServeUDP p _ => (p, 1) ∈ changes
  | UpdateCiphers _ _ | SetNumAccessKeys _ _ => False
  end.

(** The system lets a pass through: every port that the pass has to start
    can be bound, and every service that it has to stop stops. *)
Definition pass_can_go (os : OS) (s : SSServer) (config : Config) : Prop :=
  (forall p, p ∈ Port <$> Keys config -> ports s !! p = None ->
     ListenTCP os p = None /\ ListenUDP os p = None) /\
  (forall p port, ports s !! p = Some port -> p ∉ (Port <$> Keys config) ->
     tcpStop os (tcpService port) = None /\ udpStop os (udpService port) = None).

End WithCipher.

Arguments CipherEntry : clear implicits.
Arguments ssPort : clear implicits.
Arguments Event : clear implicits.
Arguments SSServer : clear implicits.
Arguments start_stop_port {CipherT} ev.
Arguments Stop {CipherT} os s.
Arguments stopPorts {CipherT} os portNums s.
Arguments Stop_again {CipherT} oss s.
Arguments stop_events {CipherT} s portNums.
Arguments event_of_changes {CipherT} s changes ev.
Arguments ReadFile {FS}.
Arguments WriteFile {FS}.
Arguments yaml_Unmarshal {FS}.
Arguments yaml_Marshal {FS}.
Arguments json_Decode {FS}.
Arguments natTimeout {MetricsT ReplayCacheT}.
Arguments m {MetricsT ReplayCacheT}.
Arguments replayCache {MetricsT ReplayCacheT}.

End Main.

(* ================================================================== *)
(** * Sample inputs *)
(* ================================================================== *)

Import Net Metrics Main.

Definition open_sink : Sink := {| w_data := []; w_fail := None |}.

(** A connection that yields three bytes in two reads, and one that yields
    two bytes. *)
Definition conn_a3 : DuplexConn :=
  tcpConn (Chunk [x01; x02] (Chunk [x03] (End [] None))) open_sink 0 0.
Definition conn_b2 : DuplexConn :=
  tcpConn (Chunk [x0a; x0b] (End [] None)) open_sink 0 0.

(** Two connections whose streams end in an error. *)
Definition conn_ea : DuplexConn :=
  tcpConn (Chunk [x01] (End [] (Some "ea"%string))) open_sink 0 0.
Definition conn_eb : DuplexConn :=
  tcpConn (Chunk [x0a; x0b] (End [] (Some "eb"%string))) open_sink 0 0.

(** A server with port 80 bound, and a system on which every [Stop]
    fails. *)
Definition port80 : ssPort unit :=
  {| tcpService := 0; udpService := 1; cipherList := [] |}.
Definition server80 : SSServer unit :=
  {| ports := {[ 80 := port80 ]}; nextService := 2; trace := [] |}.
Definition os_fail_stops : OS :=
  {| ListenTCP := fun _ => None; ListenUDP := fun _ => None;
     tcpStop := fun _ => Some "tcp boom"%string;
     udpStop := fun _ => Some "udp boom"%string;
     rangePorts := []; rangeChanges := []; rangeCiphers := [] |}.

(** A configuration without keys, and a cipher factory for the server of
    port 80. *)
Definition config_none : Config := {| Keys := [] |}.
Definition unitCipher (cipher secret : string) : unit + error := inl tt.

(** A cipher factory that knows one cipher, three configurations, and a
    system on which everything works but the bind of port 3. *)
Definition sampleCipher (cipher secret : string) : (string * string) + error :=
  if String.eqb cipher "chacha20-ietf-poly1305" then inl (cipher, secret)
  else inr "unsupported cipher"%string.

Definition key (id : string) (port : Z) (secret : string) : KeyConfig :=
  {| ID := id; Port := port; Cipher := "chacha20-ietf-poly1305"; Secret := secret |}.

Definition config_ABC : Config :=
  {| Keys := [key "A" 1 "sa"; key "B" 1 "sb"; key "C" 2 "sc"] |}.
Definition config_AD : Config :=
  {| Keys := [key "A" 1 "sa"; key "D" 3 "sd"] |}.

Definition os_port3_busy : OS :=
  {| ListenTCP := fun p => if p =? 3 then Some "address already in use"%string else None;
     ListenUDP := fun _ => None;
     tcpStop := fun _ => None; udpStop := fun _ => None;
     rangePorts := [1%nat]; rangeChanges := [1%nat; 0%nat]; rangeCiphers := [] |}.

Definition server_empty : SSServer (string * string) :=
  {| ports := ∅; nextService := 0; trace := [] |}.

(** The server after a first pass with the configuration [config_ABC]. *)
Definition server_ABC : SSServer (string * string) :=
  (loadConfig sampleCipher os_port3_busy server_empty config_ABC).2.


(** The server after a second pass, with [config_AD], that stops port 2 and
    then fails to start port 3. *)
Definition server_AD_failed : SSServer (string * string) :=
  (loadConfig sampleCipher os_port3_busy server_ABC config_AD).2.


(** Two IPv6 addresses of the network 2001:db8:1::/48. *)
Definition ip6_a : IP :=
  [x20; x01; x0d; xb8; x00; x01; x00; x00; x00; x00; x00; x00; x00; x00; x00; x01].
Definition ip6_b : IP :=
  [x20; x01; x0d; xb8; x00; x01; xff; xff; x00; x00; x00; x00; x00; x00; x00; x02].

(** A socket on which [setsockopt] is not permitted. *)
Definition conn_eperm : sysConn :=
  {| SyscallConn_err := None; Control_err := None;
     setsockopt_err := Some "operation not permitted"%string; so_mark := None |}.

(** The byte counts of two connections. *)
Definition proxyMetrics_1 : ProxyMetrics :=
  {| ClientProxy := 1; ProxyTarget := 2; TargetProxy := 3; ProxyClient := 4 |}.
Definition proxyMetrics_2 : ProxyMetrics :=
  {| ClientProxy := 10; ProxyTarget := 20; TargetProxy := 30; ProxyClient := 40 |}.
Definition proxyMetrics_0 : ProxyMetrics :=
  {| ClientProxy := 0; ProxyTarget := 0; TargetProxy := 0; ProxyClient := 0 |}.
(* ================================================================== *)
(** * Properties *)
(* ================================================================== *)

Example itoa_examples :
  itoa 8080 = "8080"%string /\ itoa 0 = "0"%string /\ itoa (-7) = "-7"%string.
Proof. repeat split; reflexivity. Qed.

(** Published FNV-1a test vectors: the empty input and the input "a". *)
Example fnv32a_vectors :
  fnv32a_Sum32 [] = 0x811c9dc5 /\ fnv32a_Sum32 [x61] = 0xe40c292c.
Proof. split; reflexivity. Qed.

Example NewMarker_4byte :
  NewMarker [x01; x02; x03; x04] = Some {| mark := 0x01020304 |}.
Proof. reflexivity. Qed.

(** ** Socket marks *)

Lemma byteZ_range b : 0 <= byteZ b < 256.
Proof. unfold byteZ. pose proof (Byte.to_N_bounded b). lia. Qed.

Lemma byteZ_inj b1 b2 : byteZ b1 = byteZ b2 -> b1 = b2.
Proof.
  unfold byteZ. intros H. apply N2Z.inj in H.
  pose proof (Byte.of_to_N b1) as H1. rewrite H, Byte.of_to_N in H1. congruence.
Qed.

Lemma lor_shiftl_add x y k :
  0 <= k -> 0 <= x < 2 ^ k -> Z.lor x (Z.shiftl y k) = x + y * 2 ^ k.
Proof.
  intros Hk Hx. rewrite <- Z.add_nocarry_lor.
  - by rewrite Z.shiftl_mul_pow2.
  - apply Z.bits_inj'. intros n Hn. rewrite Z.land_spec, Z.bits_0.
    destruct (Z.lt_ge_cases n k) as [Hlt | Hge].
    + rewrite Z.shiftl_spec_low by done. apply andb_false_r.
    + rewrite <- (Z.mod_small x (2 ^ k)) by done.
      rewrite Z.mod_pow2_bits_high by lia. done.
Qed.

Lemma BigEndian_Uint32_sum b0 b1 b2 b3 rest :
  BigEndian_Uint32 (b0 :: b1 :: b2 :: b3 :: rest) =
  Some (byteZ b3 + byteZ b2 * 2 ^ 8 + byteZ b1 * 2 ^ 16 + byteZ b0 * 2 ^ 24).
Proof.
  pose proof (byteZ_range b0). pose proof (byteZ_range b1).
  pose proof (byteZ_range b2). pose proof (byteZ_range b3).
  unfold BigEndian_Uint32. f_equal.
  rewrite (lor_shiftl_add (byteZ b3)) by lia.
  rewrite (lor_shiftl_add _ (byteZ b1)) by lia.
  rewrite (lor_shiftl_add _ (byteZ b0)) by lia. done.
Qed.

Lemma To4_4 ip : length ip = 4%nat -> To4 ip = Some ip.
Proof. intros H. unfold To4. by rewrite H. Qed.

Lemma NewMarker_ipv4_injective (ip1 ip2 : IP) :
  length ip1 = 4%nat -> length ip2 = 4%nat ->
  NewMarker ip1 = NewMarker ip2 -> ip1 = ip2.
Proof.
  intros H1 H2. unfold NewMarker. rewrite !To4_4 by done.
  destruct ip1 as [|a0 [|a1 [|a2 [|a3 [|? ?]]]]]; try discriminate H1.
  destruct ip2 as [|c0 [|c1 [|c2 [|c3 [|? ?]]]]]; try discriminate H2.
  rewrite !BigEndian_Uint32_sum. simpl. intros [= H].
  pose proof (byteZ_range a0). pose proof (byteZ_range a1).
  pose proof (byteZ_range a2). pose proof (byteZ_range a3).
  pose proof (byteZ_range c0). pose proof (byteZ_range c1).
  pose proof (byteZ_range c2). pose proof (byteZ_range c3).
  assert (byteZ a0 = byteZ c0 /\ byteZ a1 = byteZ c1 /\ byteZ a2 = byteZ c2 /\ byteZ a3 = byteZ c3) as (E0 & E1 & E2 & E3) by lia.
  apply byteZ_inj in E0, E1, E2, E3. congruence.
Qed.

Lemma NewMarker_ipv6_prefix (ip1 ip2 : IP) :
  To4 ip1 = None -> To4 ip2 = None ->
  (6 <= length ip1)%nat -> (6 <= length ip2)%nat ->
  take 6 ip1 = take 6 ip2 ->
  NewMarker ip1 = NewMarker ip2 /\ is_Some (NewMarker ip1).
Proof.
  intros T1 T2 L1 L2 E. unfold NewMarker. rewrite T1, T2.
  destruct (Nat.ltb_spec (length ip1) 6); [lia|].
  destruct (Nat.ltb_spec (length ip2) 6); [lia|].
  rewrite E. eauto.
Qed.

(** [NewMarker] is a function: the mark only depends on the address. *)
Lemma NewMarker_deterministic (ip1 ip2 : IP) : ip1 = ip2 -> NewMarker ip1 = NewMarker ip2.
Proof. by intros ->. Qed.

(** C6 (defect of the code).  For an IPv4 address in its 16-byte form, the
    form of [net.IPv4] and of the peers of a dual-stack listener, [To4]
    recognises the address but [NewMarker] reads the first four bytes of the
    16-byte slice, which are zero: every such address gets the mark 0, and
    so do the distinct addresses 1.2.3.4 and 1.2.3.5.  (In the 4-byte form
    distinct addresses do get distinct marks, [NewMarker_ipv4_injective], and
    equal top 48 bits give equal marks, [NewMarker_ipv6_prefix].) *)
Theorem C6_NewMarker_mapped_ipv4_zero :
  (forall a b c d,
     To4 (IPv4 a b c d) = Some [a; b; c; d] /\
     NewMarker (IPv4 a b c d) = Some {| mark := 0 |}) /\
  IPv4 x01 x02 x03 x04 <> IPv4 x01 x02 x03 x05 /\
  NewMarker (IPv4 x01 x02 x03 x04) = NewMarker (IPv4 x01 x02 x03 x05).
Proof. split; [by intros a b c d|]. split; [discriminate|reflexivity]. Qed.

(** ** [io.Copy] on the halves of two connections *)

Section copyLoop_sim.
Context {W R : Type}.
Variable write : list byte -> W -> (nat * option error) * W.
Variable read : R -> (list byte * option read_err) * R.
Variables (w_get : W -> Sink) (w_cl : W -> bool) (w_put : W -> Sink -> W).
Variables (r_get : R -> Stream) (r_cl : R -> bool) (r_put : R -> Stream -> R).
Hypothesis write_spec : forall b d,
  write b d = let '(res, k) := half_write (w_cl d) b (w_get d) in (res, w_put d k).
Hypothesis read_spec : forall x,
  read x = let '(res, s) := half_read (r_cl x) (r_get x) in (res, r_put x s).
Hypothesis w_get_put : forall d k, w_get (w_put d k) = k.
Hypothesis w_cl_put : forall d k, w_cl (w_put d k) = w_cl d.
Hypothesis w_put_put : forall d k k', w_put (w_put d k) k' = w_put d k'.
Hypothesis w_put_get : forall d, w_put d (w_get d) = d.
Hypothesis r_get_put : forall x s, r_get (r_put x s) = s.
Hypothesis r_cl_put : forall x s, r_cl (r_put x s) = r_cl x.
Hypothesis r_put_put : forall x s s', r_put (r_put x s) s' = r_put x s'.
Hypothesis r_put_get : forall x, r_put x (r_get x) = x.

Lemma copy_iter_sim dst src written :
  copy_iter write read dst src written =
  let '(k, s, n, brk) :=
    copy_iter (half_write (w_cl dst)) (half_read (r_cl src)) (w_get dst) (r_get src) written in
  (w_put dst k, r_put src s, n, brk).
Proof.
  unfold copy_iter. rewrite read_spec.
  destruct (half_read (r_cl src) (r_get src)) as [[data er] s].
  destruct (0 <? length data)%nat.
  - rewrite write_spec.
    destruct (half_write (w_cl dst) data (w_get dst)) as [[nw ew] k].
    destruct ew; [done|]. destruct (negb _); [done|].
    destruct er as [[|e]|]; done.
  - destruct er as [[|e]|]; by rewrite w_put_get.
Qed.

Lemma copyLoop_sim n dst src written :
  copyLoop write read n dst src written =
  let '(res, k, s) :=
    copyLoop (half_write (w_cl dst)) (half_read (r_cl src)) n (w_get dst) (r_get src) written in
  (res, w_put dst k, r_put src s).
Proof.
  revert dst src written. induction n as [|n IH]; intros dst src written; simpl;
    rewrite copy_iter_sim;
    destruct (copy_iter (half_write (w_cl dst)) (half_read (r_cl src)) (w_get dst) (r_get src) written)
      as [[[k s] m] [err|]]; try done.
  rewrite IH. rewrite w_cl_put, r_cl_put, w_get_put, r_get_put.
  destruct (copyLoop _ _ n k s m) as [[res k'] s'].
  by rewrite w_put_put, r_put_put.
Qed.
End copyLoop_sim.

Lemma Read_half c :
  Read c = let '(res, s) := half_read (readClosed c) (conn_stream c) in (res, put_stream c s).
Proof.
  destruct c as [rd wr cr cw|conn r w]; simpl; unfold half_read.
  - destruct (0 <? cr)%nat; [done|]. by destruct (Stream_Read rd).
  - by destruct (Stream_Read r).
Qed.

Lemma Write_half b c :
  Write b c = let '(res, k) := half_write (writeClosed c) b (conn_sink c) in (res, put_sink c k).
Proof.
  destruct c as [rd wr cr cw|conn r w]; simpl; unfold half_write.
  - destruct (0 <? cw)%nat; [done|]. by destruct (Sink_Write b wr).
  - by destruct (Sink_Write b w).
Qed.

Lemma Stream_Read_half x :
  Stream_Read x = let '(res, s) := half_read false x in (res, s).
Proof. simpl. by destruct (Stream_Read x). Qed.

Lemma Sink_Write_half b d :
  Sink_Write b d = let '(res, k) := half_write false b d in (res, k).
Proof. simpl. by destruct (Sink_Write b d). Qed.

Lemma io_Copy_transfer dst src :
  io_Copy dst src =
  let '(res, k, s) := transfer (writeClosed dst) (readClosed src) (conn_sink dst) (conn_stream src) in
  (res, put_sink dst k, put_stream src s).
Proof.
  unfold transfer.
  destruct src as [rd wr cr cw|conn r w]; destruct dst as [rd' wr' cr' cw'|conn' r' w'];
    unfold io_Copy, WriteTo, io_Copy_to, ReadFrom, conn_chunks; cbn [conn_stream].
  - rewrite (copyLoop_sim Write Read conn_sink writeClosed put_sink conn_stream readClosed put_stream);
      try (by intros []); auto using Read_half, Write_half.
  - rewrite (copyLoop_sim Sink_Write Read (fun k => k) (fun _ => false) (fun _ k => k) conn_stream readClosed put_stream);
      try (by intros []); auto using Read_half, Sink_Write_half.
    simpl. by destruct (copyLoop _ _ _ _ _ _) as [[? ?] ?].
  - rewrite (copyLoop_sim Write Stream_Read conn_sink writeClosed put_sink (fun s => s) (fun _ => false) (fun _ s => s));
      try (by intros []); auto using Write_half, Stream_Read_half.
    simpl. by destruct (copyLoop _ _ _ _ _ _) as [[? ?] ?].
  - rewrite (copyLoop_sim Sink_Write Stream_Read (fun k => k) (fun _ => false) (fun _ k => k) (fun s => s) (fun _ => false) (fun _ s => s));
      auto using Sink_Write_half, Stream_Read_half.
    simpl. by destruct (copyLoop _ _ _ _ _ _) as [[? ?] ?].
Qed.

(** Lens-style facts *)
(** ** What a directional copy touches *)

Lemma put_sink_facts c k :
  conn_sink (put_sink c k) = k /\ conn_stream (put_sink c k) = conn_stream c /\
  readClosed (put_sink c k) = readClosed c /\ writeClosed (put_sink c k) = writeClosed c /\
  closeReadCalls (put_sink c k) = closeReadCalls c /\
  closeWriteCalls (put_sink c k) = closeWriteCalls c /\
  depth (put_sink c k) = depth c.
Proof. by destruct c. Qed.

Lemma put_stream_facts c s :
  conn_stream (put_stream c s) = s /\ conn_sink (put_stream c s) = conn_sink c /\
  readClosed (put_stream c s) = readClosed c /\ writeClosed (put_stream c s) = writeClosed c /\
  closeReadCalls (put_stream c s) = closeReadCalls c /\
  closeWriteCalls (put_stream c s) = closeWriteCalls c /\
  depth (put_stream c s) = depth c.
Proof. by destruct c. Qed.

Lemma CloseWrite_facts c :
  conn_stream (CloseWrite c).2 = conn_stream c /\ conn_sink (CloseWrite c).2 = conn_sink c /\
  readClosed (CloseWrite c).2 = readClosed c /\
  closeReadCalls (CloseWrite c).2 = closeReadCalls c /\
  closeWriteCalls (CloseWrite c).2 = S (closeWriteCalls c) /\
  depth (CloseWrite c).2 = depth c.
Proof.
  induction c as [rd wr cr cw|conn IH r w]; simpl; [done|].
  destruct (CloseWrite conn) as [err conn']. simpl in *.
  destruct IH as (H1 & H2 & H3 & H4 & H5 & H6). repeat split; congruence.
Qed.

Lemma CloseRead_facts c :
  conn_stream (CloseRead c).2 = conn_stream c /\ conn_sink (CloseRead c).2 = conn_sink c /\
  writeClosed (CloseRead c).2 = writeClosed c /\
  closeWriteCalls (CloseRead c).2 = closeWriteCalls c /\
  closeReadCalls (CloseRead c).2 = S (closeReadCalls c) /\
  depth (CloseRead c).2 = depth c.
Proof.
  induction c as [rd wr cr cw|conn IH r w]; simpl; [done|].
  destruct (CloseRead conn) as [err conn']. simpl in *.
  destruct IH as (H1 & H2 & H3 & H4 & H5 & H6). repeat split; congruence.
Qed.

Lemma copyOneWay_transfer leftConn rightConn :
  copyOneWay leftConn rightConn =
  let '(res, k, s) := transfer (writeClosed leftConn) (readClosed rightConn)
                        (conn_sink leftConn) (conn_stream rightConn) in
  (res, (CloseWrite (put_sink leftConn k)).2, (CloseRead (put_stream rightConn s)).2).
Proof.
  unfold copyOneWay. rewrite io_Copy_transfer.
  destruct (transfer _ _ _ _) as [[res k] s].
  destruct (CloseWrite _) as [e1 l]. by destruct (CloseRead _) as [e2 r].
Qed.

(** The copy of a stream with no read error into a sink that does not fail. *)
Lemma copyLoop_clean s : forall n k written,
  (chunks s <= n)%nat -> stream_err s = None -> w_fail k = None ->
  copyLoop (half_write false) (half_read false) n k s written =
  ((written + Z.of_nat (length (stream_bytes s)), None),
   {| w_data := w_data k ++ stream_bytes s; w_fail := None |}, End [] None).
Proof.
  induction s as [data rest IH|data err]; intros n k written Hn Herr Hk; simpl in *.
  - destruct n as [|n]; [lia|]. simpl. unfold copy_iter. simpl.
    destruct (Nat.ltb_spec 0 (length data)) as [Hlen|Hlen].
    + unfold Sink_Write. rewrite Hk. rewrite Nat.eqb_refl. simpl.
      rewrite IH by (done || lia). simpl. rewrite length_app, <- app_assoc, Nat2Z.inj_add, Z.add_assoc. done.
    + rewrite IH by (done || lia). destruct data; [|simpl in Hlen; lia].
      done.
  - subst err. destruct n; simpl; unfold copy_iter; simpl;
      (destruct (Nat.ltb_spec 0 (length data)) as [Hlen|Hlen];
       [ unfold Sink_Write; rewrite Hk, Nat.eqb_refl; done
       | destruct data; [|simpl in Hlen; lia]; simpl; rewrite Z.add_0_r, app_nil_r;
         destruct k; simpl in *; congruence ]).
Qed.

Lemma transfer_clean k s :
  stream_err s = None -> w_fail k = None ->
  transfer false false k s =
  ((Z.of_nat (length (stream_bytes s)), None),
   {| w_data := w_data k ++ stream_bytes s; w_fail := None |}, End [] None).
Proof. intros. unfold transfer. by rewrite copyLoop_clean. Qed.

Lemma copyOneWay_facts leftConn rightConn :
  let '(_, l, r) := copyOneWay leftConn rightConn in
  closeWriteCalls l = S (closeWriteCalls leftConn) /\
  closeReadCalls r = S (closeReadCalls rightConn) /\
  closeReadCalls l = closeReadCalls leftConn /\
  closeWriteCalls r = closeWriteCalls rightConn /\
  readClosed l = readClosed leftConn /\
  writeClosed r = writeClosed rightConn /\
  conn_stream l = conn_stream leftConn /\
  conn_sink r = conn_sink rightConn.
Proof.
  rewrite copyOneWay_transfer. destruct (transfer _ _ _ _) as [[res k] s].
  pose proof (CloseWrite_facts (put_sink leftConn k)) as (W1 & W2 & W3 & W4 & W5 & W6).
  pose proof (CloseRead_facts (put_stream rightConn s)) as (R1 & R2 & R3 & R4 & R5 & R6).
  pose proof (put_sink_facts leftConn k) as (K1 & K2 & K3 & K4 & K5 & K6 & K7).
  pose proof (put_stream_facts rightConn s) as (S1 & S2 & S3 & S4 & S5 & S6 & S7).
  repeat split; congruence.
Qed.

(** The result of a directional copy only depends on the halves it uses. *)
Lemma copyOneWay_result_ext l r l' r' :
  writeClosed l' = writeClosed l -> conn_sink l' = conn_sink l ->
  readClosed r' = readClosed r -> conn_stream r' = conn_stream r ->
  (copyOneWay l' r').1.1 = (copyOneWay l r).1.1.
Proof.
  intros E1 E2 E3 E4. rewrite !copyOneWay_transfer, E1, E2, E3, E4.
  by destruct (transfer _ _ _ _) as [[res k] s].
Qed.

Lemma copyOneWay_opposite leftConn rightConn :
  let '(_, l, r) := copyOneWay leftConn rightConn in
  (copyOneWay r l).1.1 = (copyOneWay rightConn leftConn).1.1.
Proof.
  pose proof (copyOneWay_facts leftConn rightConn) as H.
  destruct (copyOneWay leftConn rightConn) as [[res l] r].
  destruct H as (_ & _ & _ & _ & H5 & H6 & H7 & H8).
  by apply copyOneWay_result_ext.
Qed.

Lemma Relay_results leftConn rightConn :
  (Relay leftConn rightConn).1.1 =
  ((copyOneWay leftConn rightConn).1.1.1, (copyOneWay rightConn leftConn).1.1.1,
   match (copyOneWay leftConn rightConn).1.1.2 with
   | None => (copyOneWay rightConn leftConn).1.1.2
   | Some e => Some e
   end).
Proof.
  unfold Relay.
  pose proof (copyOneWay_opposite rightConn leftConn) as H.
  destruct (copyOneWay rightConn leftConn) as [[[rsN rsErr] r] l].
  destruct (copyOneWay l r) as [[[n err] l'] r']. simpl in *. rewrite <- H.
  by destruct err.
Qed.

Lemma copyOneWay_clean dst src n :
  yields src n -> accepts dst -> (copyOneWay dst src).1.1 = (n, None).
Proof.
  intros (Hc & He & Hn) (Hw & Hf). rewrite copyOneWay_transfer, Hc, Hw.
  rewrite transfer_clean by done. simpl. by rewrite Hn.
Qed.

(** C3, as the specification states it, fails: with three bytes from [a] (in two
    reads) and two bytes from [b], [Relay(a, b)] returns (2, 3, nil), the
    bytes from [b] to [a] first, and not (3, 2, nil). *)
Lemma C3_Relay_counts_counterexample :
  yields conn_a3 3 /\ yields conn_b2 2 /\ accepts conn_a3 /\ accepts conn_b2 /\
  (Relay conn_a3 conn_b2).1.1 = (2, 3, None) /\
  (Relay conn_a3 conn_b2).1.1 <> (3, 2, None).
Proof. repeat split; try reflexivity. discriminate. Qed.

(** C3 (amended).  When [a] yields exactly [N] bytes and [b] exactly [M]
    bytes, in any number of reads, and nothing fails, [Relay(a, b)] returns
    [(M, N, nil)]: first the bytes copied from [b] to [a], then the bytes
    copied from [a] to [b], as the comment of [Relay] says ("from right to
    left, from left to right"). *)
Theorem C3_Relay_counts_amended a b N M :
  yields a N -> yields b M -> accepts a -> accepts b ->
  (Relay a b).1.1 = (M, N, None).
Proof.
  intros Ha Hb Hwa Hwb. rewrite Relay_results.
  by rewrite (copyOneWay_clean a b M), (copyOneWay_clean b a N).
Qed.

Lemma C3_Relay_counts_amended_witness :
  yields conn_a3 3 /\ yields conn_b2 2 /\ accepts conn_a3 /\ accepts conn_b2 /\
  (Relay conn_a3 conn_b2).1.1 = (2, 3, None).
Proof.
  assert (yields conn_a3 3) as Ha by (repeat split; reflexivity).
  assert (yields conn_b2 2) as Hb by (repeat split; reflexivity).
  assert (accepts conn_a3) as Hwa by (split; reflexivity).
  assert (accepts conn_b2) as Hwb by (split; reflexivity).
  split_and!; [exact Ha | exact Hb | exact Hwa | exact Hwb |].
  exact (C3_Relay_counts_amended conn_a3 conn_b2 3 2 Ha Hb Hwa Hwb).
Defined.

(** C4, as the specification states it, fails: when the copy from [a] to [b] fails
    with "ea" and the copy from [b] to [a] fails with "eb", [Relay(a, b)]
    returns "eb", the error of the copy from [b] to [a], and drops "ea". *)
Lemma C4_Relay_error_counterexample :
  (copyOneWay conn_eb conn_ea).1.1.2 = Some "ea"%string /\
  (copyOneWay conn_ea conn_eb).1.1.2 = Some "eb"%string /\
  (Relay conn_ea conn_eb).1.1.2 = Some "eb"%string /\
  (Relay conn_ea conn_eb).1.1.2 <> Some "ea"%string.
Proof. repeat split; try reflexivity. discriminate. Qed.

(** C4 (amended).  The error of [Relay(a, b)] is the error of the copy from
    [b] to [a], the one the caller runs itself, when that copy fails, and
    else the error of the copy from [a] to [b]: when both fail the error of
    the copy from [a] to [b] is dropped, when one fails its error is
    returned, when none fails the error is nil. *)
Theorem C4_Relay_error_amended a b :
  let err_ab := (copyOneWay b a).1.1.2 in
  let err_ba := (copyOneWay a b).1.1.2 in
  let err := (Relay a b).1.1.2 in
  err = match err_ba with Some e => Some e | None => err_ab end /\
  (forall e_ab e_ba, err_ab = Some e_ab -> err_ba = Some e_ba -> err = Some e_ba) /\
  (forall e_ab, err_ab = Some e_ab -> err_ba = None -> err = Some e_ab) /\
  (forall e_ba, err_ab = None -> err_ba = Some e_ba -> err = Some e_ba) /\
  (err_ab = None -> err_ba = None -> err = None).
Proof.
  simpl. rewrite Relay_results. simpl.
  repeat split; intros; repeat match goal with H : _ = _ |- _ => rewrite H end; done.
Qed.

Lemma C4_Relay_error_amended_witness :
  (copyOneWay conn_eb conn_ea).1.1.2 = Some "ea"%string /\
  (copyOneWay conn_ea conn_eb).1.1.2 = Some "eb"%string /\
  (Relay conn_ea conn_eb).1.1.2 = Some "eb"%string.
Proof.
  assert ((copyOneWay conn_eb conn_ea).1.1.2 = Some "ea"%string) as Hab by reflexivity.
  assert ((copyOneWay conn_ea conn_eb).1.1.2 = Some "eb"%string) as Hba by reflexivity.
  split_and!; [exact Hab | exact Hba |].
  destruct (C4_Relay_error_amended conn_ea conn_eb) as (_ & Hboth & _).
  exact (Hboth "ea"%string "eb"%string Hab Hba).
Defined.

(** C5.  [copyOneWay(leftConn, rightConn)], which copies from [rightConn]
    into [leftConn], ends with exactly two half-closes: one [CloseWrite] on
    the destination and one [CloseRead] on the source.  The read half of the
    destination and the write half of the source receive no close and are as
    before, so the copy in the opposite direction, run afterwards, moves the
    bytes and returns the result it would have returned before. *)
Theorem C5_copyOneWay_half_closes leftConn rightConn :
  let '(_, l, r) := copyOneWay leftConn rightConn in
  closeWriteCalls l = S (closeWriteCalls leftConn) /\
  closeReadCalls r = S (closeReadCalls rightConn) /\
  closeReadCalls l = closeReadCalls leftConn /\
  closeWriteCalls r = closeWriteCalls rightConn /\
  readClosed l = readClosed leftConn /\
  writeClosed r = writeClosed rightConn /\
  conn_stream l = conn_stream leftConn /\
  conn_sink r = conn_sink rightConn /\
  (copyOneWay r l).1.1 = (copyOneWay rightConn leftConn).1.1.
Proof.
  pose proof (copyOneWay_facts leftConn rightConn) as H.
  pose proof (copyOneWay_opposite leftConn rightConn) as Ho.
  destruct (copyOneWay leftConn rightConn) as [[res l] r].
  destruct H as (H1 & H2 & H3 & H4 & H5 & H6 & H7 & H8). by split_and!.
Qed.

(** ** Wrapped connections *)

Lemma WrapConn_underlying c r w : WrapConn c r w = duplexConnAdaptor (underlying c) r w.
Proof. by destruct c. Qed.

Lemma WrapConn_WrapConn c r1 w1 r2 w2 :
  WrapConn (WrapConn c r1 w1) r2 w2 = WrapConn c r2 w2.
Proof. by destruct c. Qed.

Lemma rewrap_WrapConn rws : forall c r w,
  exists r' w', rewrap (WrapConn c r w) rws = WrapConn c r' w'.
Proof.
  induction rws as [|[r1 w1] rws IH]; intros c r w; simpl.
  - eauto.
  - rewrite WrapConn_WrapConn. apply IH.
Qed.

(** C8.  The connection that [WrapConn(c, r, w)] returns reads from [r] and
    writes to [w], also when [io.Copy] takes its [WriteTo] or its [ReadFrom]
    (the copy out of it is the copy out of [r], the copy into it is the copy
    into [w]), while [CloseRead] and [CloseWrite] go to the connection under
    it.  Wrapping a wrapped connection replaces the two streams and keeps
    the connection under it: it equals the wrap of [c], and however many
    times a network connection is wrapped again there is one adaptor on
    it. *)
Theorem C8_WrapConn c r w :
  Read (WrapConn c r w) = ((Stream_Read r).1, WrapConn c (Stream_Read r).2 w) /\
  (forall b, Write b (WrapConn c r w) = ((Sink_Write b w).1, WrapConn c r (Sink_Write b w).2)) /\
  (forall dst,
     io_Copy dst (WrapConn c r w) = WriteTo (underlying c) r w dst /\
     io_Copy dst (WrapConn c r w) =
       let '(res, k, r') := transfer (writeClosed dst) false (conn_sink dst) r in
       (res, put_sink dst k, WrapConn c r' w)) /\
  (forall src,
     io_Copy (WrapConn c r w) src =
       let '(res, w', s) := transfer false (readClosed src) w (conn_stream src) in
       (res, WrapConn c r w', put_stream src s)) /\
  (forall rd wr cr cw,
     io_Copy (WrapConn c r w) (tcpConn rd wr cr cw) =
       ReadFrom Read conn_chunks (underlying c) r w (tcpConn rd wr cr cw)) /\
  CloseRead (WrapConn c r w) =
    ((CloseRead (underlying c)).1, duplexConnAdaptor (CloseRead (underlying c)).2 r w) /\
  CloseWrite (WrapConn c r w) =
    ((CloseWrite (underlying c)).1, duplexConnAdaptor (CloseWrite (underlying c)).2 r w) /\
  (forall r2 w2, WrapConn (WrapConn c r w) r2 w2 = WrapConn c r2 w2) /\
  (forall rws, depth (rewrap (WrapConn c r w) rws) = depth (WrapConn c r w)) /\
  (forall rd wr cr cw rws,
     underlying (WrapConn (tcpConn rd wr cr cw) r w) = tcpConn rd wr cr cw /\
     depth (rewrap (WrapConn (tcpConn rd wr cr cw) r w) rws) = 1%nat).
Proof.
  split_and!.
  - rewrite WrapConn_underlying. simpl. by destruct (Stream_Read r).
  - intros b. rewrite WrapConn_underlying. simpl. by destruct (Sink_Write b w).
  - intros dst. split; [by rewrite WrapConn_underlying|].
    rewrite io_Copy_transfer, !WrapConn_underlying. simpl.
    by destruct (transfer _ _ _ _) as [[res k] r'].
  - intros src. rewrite io_Copy_transfer, !WrapConn_underlying. simpl.
    by destruct (transfer _ _ _ _) as [[res k] r'].
  - intros rd wr cr cw. by rewrite WrapConn_underlying.
  - rewrite WrapConn_underlying. simpl. by destruct (CloseRead (underlying c)).
  - rewrite WrapConn_underlying. simpl. by destruct (CloseWrite (underlying c)).
  - intros. apply WrapConn_WrapConn.
  - intros rws. destruct (rewrap_WrapConn rws c r w) as (r' & w' & ->).
    by rewrite !WrapConn_underlying.
  - intros rd wr cr cw rws. split; [done|].
    by destruct (rewrap_WrapConn rws (tcpConn rd wr cr cw) r w) as (r' & w' & ->).
Qed.

(** ** The relay under every schedule *)

Lemma task_run_S k l r t :
  task_run (S k) (l, r, t) = task_run k (copyOneWay_step l r t).
Proof. unfold task_run. by rewrite Nat.iter_succ_r. Qed.

Lemma task_run_Finished k l r n err :
  task_run k (l, r, Finished n err) = (l, r, Finished n err).
Proof. induction k as [|k IH]; [done|]. by rewrite task_run_S. Qed.

Lemma task_run_Copied k l r n err :
  (2 <= k)%nat ->
  task_run k (l, r, Copied n err) = ((CloseWrite l).2, (CloseRead r).2, Finished n err).
Proof.
  intros Hk. destruct k as [|[|k]]; try lia.
  rewrite task_run_S. simpl. destruct (CloseWrite l) as [e1 l'].
  rewrite task_run_S. simpl. destruct (CloseRead r) as [e2 r'].
  by rewrite task_run_Finished.
Qed.

Lemma copy_iter_continue l r z l' r' z' :
  copy_iter Write Read l r z = (l', r', z', None) -> conn_chunks r = S (conn_chunks r').
Proof.
  unfold copy_iter. rewrite Read_half. unfold half_read, conn_chunks.
  destruct (readClosed r).
  - simpl. discriminate.
  - destruct (conn_stream r) as [data rest|data err] eqn:Hs; simpl.
    + destruct (0 <? length data)%nat.
      * destruct (Write data l) as [[nw [e|]] l1]; [discriminate|].
        destruct (negb _); [discriminate|]. intros [= <- <- <-].
        by destruct (put_stream_facts r rest) as (-> & _).
      * intros [= <- <- <-]. by destruct (put_stream_facts r rest) as (-> & _).
    + destruct (0 <? length data)%nat.
      * destruct (Write data l) as [[nw [e|]] l1]; [discriminate|].
        destruct (negb _); [discriminate|]. destruct err; discriminate.
      * destruct err; discriminate.
Qed.

Lemma task_run_copyLoop n : forall l r z k,
  (conn_chunks r <= n)%nat -> (n + 3 <= k)%nat ->
  task_run k (l, r, Copying z) =
  let '((m, err), l', r') := copyLoop Write Read n l r z in
  ((CloseWrite l').2, (CloseRead r').2, Finished m err).
Proof.
  induction n as [|n IH]; intros l r z k Hn Hk;
    (destruct k as [|k]; [lia|]); rewrite task_run_S; simpl;
    destruct (copy_iter Write Read l r z) as [[[l1 r1] z1] [err|]] eqn:Hit;
    try (rewrite task_run_Copied by lia; done).
  - apply copy_iter_continue in Hit. lia.
  - apply copy_iter_continue in Hit. apply IH; lia.
Qed.

Lemma io_Copy_loop l r : io_Copy l r = copyLoop Write Read (conn_chunks r) l r 0.
Proof.
  rewrite io_Copy_transfer. unfold transfer, conn_chunks.
  rewrite (copyLoop_sim Write Read conn_sink writeClosed put_sink conn_stream readClosed put_stream);
    try (by intros []); auto using Read_half, Write_half.
Qed.

Lemma task_run_copyOneWay l r k :
  (conn_chunks r + 3 <= k)%nat ->
  task_run k (l, r, Copying 0) =
  let '((m, err), l', r') := copyOneWay l r in (l', r', Finished m err).
Proof.
  intros Hk. rewrite (task_run_copyLoop (conn_chunks r)) by lia.
  unfold copyOneWay. rewrite io_Copy_loop.
  destruct (copyLoop _ _ _ _ _ _) as [[[m err] l'] r'].
  destruct (CloseWrite l') as [e1 l'']. by destruct (CloseRead r') as [e2 r''].
Qed.

Lemma copyOneWay_step_ops l r t :
  copyOneWay_step l r t =
  let '(x, r') := task_rop t r in
  let '(y, l') := task_wop t x l in
  (l', r', task_next t x y).
Proof.
  destruct t as [z|n err|n err|n err]; simpl.
  - unfold copy_iter. destruct (Read r) as [[data er] r']. simpl.
    destruct (0 <? length data)%nat.
    + destruct (Write data l) as [[nw ew] l']. simpl.
      destruct ew; [done|]. destruct (negb _); [done|]. by destruct er as [[|e]|].
    + simpl. by destruct er as [[|e]|].
  - by destruct (CloseWrite l).
  - unfold closeRead_op. by destruct (CloseRead r).
  - done.
Qed.

Ltac halves :=
  repeat (simpl;
    match goal with
    | |- context [if ?b then _ else _] => destruct b eqn:?
    | |- context [let '(_, _) := ?e in _] => destruct e eqn:?
    | H : ?a = _ |- context [?a] => rewrite H
    end); simpl.

Lemma commute_Read_Write b : commute Read (Write b).
Proof. intros [rd wr cr cw|conn r w]; halves; by simplify_eq. Qed.

Lemma commute_Read_CloseWrite : commute Read closeWrite_op.
Proof. intros [rd wr cr cw|conn r w]; unfold closeWrite_op; halves; by simplify_eq. Qed.

Lemma commute_CloseRead_Write b : commute closeRead_op (Write b).
Proof. intros [rd wr cr cw|conn r w]; unfold closeRead_op; halves; by simplify_eq. Qed.

Lemma CloseRead_CloseWrite c :
  (CloseRead (CloseWrite c).2).2 = (CloseWrite (CloseRead c).2).2.
Proof.
  induction c as [rd wr cr cw|conn IH r w]; simpl; [done|].
  destruct (CloseWrite conn) as [e1 c1], (CloseRead conn) as [e2 c2]; simpl in *.
  destruct (CloseRead c1) as [e3 c3], (CloseWrite c2) as [e4 c4]; simpl in *. by subst.
Qed.

Lemma commute_CloseRead_CloseWrite : commute closeRead_op closeWrite_op.
Proof.
  intros c. unfold closeRead_op, closeWrite_op. simpl.
  by rewrite CloseRead_CloseWrite.
Qed.

Lemma commute_no_read {Y} (g : DuplexConn -> Y * DuplexConn) : commute no_read g.
Proof. by intros c. Qed.

Lemma commute_no_write {X} (f : DuplexConn -> X * DuplexConn) : commute f no_write.
Proof. by intros c. Qed.

Lemma commute_task t t' x : commute (task_rop t) (task_wop t' x).
Proof.
  destruct t, t'; simpl; try destruct (0 <? length x.1)%nat;
    auto using commute_Read_Write, commute_Read_CloseWrite, commute_CloseRead_Write,
      commute_CloseRead_CloseWrite, commute_no_read, commute_no_write.
Qed.

Lemma Relay_step_caller L R tm tg :
  Relay_step {| st_left := L; st_right := R; caller := tm; goroutine := tg |} false =
  {| st_left := (task_wop tm (task_rop tm R).1 L).2;
     st_right := (task_rop tm R).2;
     caller := task_next tm (task_rop tm R).1 (task_wop tm (task_rop tm R).1 L).1;
     goroutine := tg |}.
Proof.
  unfold Relay_step. cbn [st_left st_right caller goroutine].
  rewrite copyOneWay_step_ops. destruct (task_rop tm R) as [x R']. simpl.
  by destruct (task_wop tm x L) as [y L'].
Qed.

Lemma Relay_step_goroutine L R tm tg :
  Relay_step {| st_left := L; st_right := R; caller := tm; goroutine := tg |} true =
  {| st_left := (task_rop tg L).2;
     st_right := (task_wop tg (task_rop tg L).1 R).2;
     caller := tm;
     goroutine := task_next tg (task_rop tg L).1 (task_wop tg (task_rop tg L).1 R).1 |}.
Proof.
  unfold Relay_step. cbn [st_left st_right caller goroutine].
  rewrite copyOneWay_step_ops. destruct (task_rop tg L) as [x L']. simpl.
  by destruct (task_wop tg x R) as [y R'].
Qed.

(** A turn of the caller and a turn of the goroutine can be swapped. *)
Lemma Relay_step_swap st :
  Relay_step (Relay_step st true) false = Relay_step (Relay_step st false) true.
Proof.
  destruct st as [L R tm tg].
  rewrite Relay_step_goroutine, Relay_step_caller, Relay_step_caller, Relay_step_goroutine.
  destruct (commute_task tm tg (task_rop tg L).1 R) as (A1 & A2 & A3).
  destruct (commute_task tg tm (task_rop tm R).1 L) as (B1 & B2 & B3).
  rewrite A1, B1, A2, B2, A3, B3. done.
Qed.

Lemma goroutine_turns_swap k st :
  goroutine_turns k (Relay_step st false) = Relay_step (goroutine_turns k st) false.
Proof.
  unfold goroutine_turns. induction k as [|k IH]; [done|].
  by rewrite !Nat.iter_succ, IH, Relay_step_swap.
Qed.

Lemma goroutine_turns_S k st :
  goroutine_turns (S k) st = goroutine_turns k (Relay_step st true).
Proof. unfold goroutine_turns. by rewrite Nat.iter_succ_r. Qed.

Lemma caller_turns_S k st :
  caller_turns (S k) st = caller_turns k (Relay_step st false).
Proof. unfold caller_turns. by rewrite Nat.iter_succ_r. Qed.

Lemma Relay_run_sorted sched : forall st,
  Relay_run sched st =
  caller_turns (count_occ bool_dec sched false)
    (goroutine_turns (count_occ bool_dec sched true) st).
Proof.
  induction sched as [|b sched IH]; intros st; [done|].
  change (Relay_run (b :: sched) st) with (Relay_run sched (Relay_step st b)).
  rewrite IH. destruct b; simpl (count_occ _ _ _).
  - by rewrite goroutine_turns_S.
  - by rewrite goroutine_turns_swap, caller_turns_S.
Qed.

Lemma caller_turns_task k L R tm tg :
  caller_turns k {| st_left := L; st_right := R; caller := tm; goroutine := tg |} =
  let '(l, r, t) := task_run k (L, R, tm) in
  {| st_left := l; st_right := r; caller := t; goroutine := tg |}.
Proof.
  unfold caller_turns, task_run. induction k as [|k IH]; [done|].
  rewrite !Nat.iter_succ, IH. destruct (Nat.iter k _ (L, R, tm)) as [[l r] t].
  unfold Relay_step. cbn [st_left st_right caller goroutine].
  by destruct (copyOneWay_step l r t) as [[l' r'] t'].
Qed.

Lemma goroutine_turns_task k L R tm tg :
  goroutine_turns k {| st_left := L; st_right := R; caller := tm; goroutine := tg |} =
  let '(r, l, t) := task_run k (R, L, tg) in
  {| st_left := l; st_right := r; caller := tm; goroutine := t |}.
Proof.
  unfold goroutine_turns, task_run. induction k as [|k IH]; [done|].
  rewrite !Nat.iter_succ, IH. destruct (Nat.iter k _ (R, L, tg)) as [[r l] t].
  unfold Relay_step. cbn [st_left st_right caller goroutine].
  by destruct (copyOneWay_step r l t) as [[r' l'] t'].
Qed.

(** Every schedule that gives each task the turns it needs ends in what
    [Relay] returns and in the connections that [Relay] leaves. *)
Theorem Relay_interleaved leftConn rightConn sched :
  (conn_chunks rightConn + 3 <= count_occ bool_dec sched false)%nat ->
  (conn_chunks leftConn + 3 <= count_occ bool_dec sched true)%nat ->
  let st := Relay_run sched (Relay_start leftConn rightConn) in
  Relay_return st = Some (Relay leftConn rightConn).1.1 /\
  st_left st = (Relay leftConn rightConn).1.2 /\
  st_right st = (Relay leftConn rightConn).2.
Proof.
  intros Hm Hg. simpl. rewrite Relay_run_sorted. unfold Relay_start.
  rewrite goroutine_turns_task, task_run_copyOneWay by done.
  unfold Relay.
  pose proof (copyOneWay_facts rightConn leftConn) as Hf.
  destruct (copyOneWay rightConn leftConn) as [[[rsN rsErr] r] l].
  destruct Hf as (_ & _ & _ & _ & _ & _ & Hs & _).
  rewrite caller_turns_task, task_run_copyOneWay
    by (unfold conn_chunks in *; rewrite Hs; done).
  by destruct (copyOneWay l r) as [[[n err] l'] r'].
Qed.

(** A finished relay does not move any more. *)
Lemma Relay_step_finished st b res :
  Relay_return st = Some res -> Relay_step st b = st.
Proof.
  destruct st as [L R tm tg]. unfold Relay_return. simpl.
  destruct tm, tg; try discriminate. by destruct b.
Qed.

Lemma Relay_run_finished sched st res :
  Relay_return st = Some res -> Relay_run sched st = st.
Proof.
  intros H. unfold Relay_run. induction sched as [|b sched IH]; simpl; [done|].
  by rewrite (Relay_step_finished st b res).
Qed.

Lemma count_occ_replicate (b b' : bool) n :
  count_occ bool_dec (replicate n b) b' = if bool_decide (b = b') then n else 0%nat.
Proof.
  induction n as [|n IH]; simpl; [by case_bool_decide|].
  rewrite IH. destruct (bool_dec b b'); case_bool_decide; done.
Qed.

(** Whatever the schedule, what the relay returns is what [Relay] returns. *)
Theorem Relay_interleaved_any leftConn rightConn sched res :
  Relay_return (Relay_run sched (Relay_start leftConn rightConn)) = Some res ->
  res = (Relay leftConn rightConn).1.1.
Proof.
  intros H.
  set (more := replicate (conn_chunks rightConn + 3) false ++
               replicate (conn_chunks leftConn + 3) true).
  pose proof (Relay_run_finished more _ _ H) as Hmore.
  unfold Relay_run in *. rewrite <- foldl_app in Hmore.
  destruct (Relay_interleaved leftConn rightConn (sched ++ more)) as (Hr & _).
  - unfold more. rewrite !count_occ_app, !count_occ_replicate. simpl. lia.
  - unfold more. rewrite !count_occ_app, !count_occ_replicate. simpl. lia.
  - unfold Relay_run in Hr. rewrite Hmore in Hr. congruence.
Qed.
(** ** The metrics boundary *)

Lemma addIfNonZero_nonpositive value cv lvs :
  value <= 0 -> addIfNonZero value cv lvs = cv.
Proof. intros H. unfold addIfNonZero. destruct (Z.ltb_spec 0 value); [lia|done]. Qed.

Lemma WithLabelValues_lookup lvs cv l :
  series (WithLabelValues lvs cv) !! l =
  if decide (l = lvs) then Some (default 0 (series cv !! lvs)) else series cv !! l.
Proof.
  unfold WithLabelValues. destruct (series cv !! lvs) as [v|] eqn:E; simpl.
  - case_decide; [by subst|done].
  - case_decide; [subst; by rewrite lookup_insert_eq|by rewrite lookup_insert_ne].
Qed.

Lemma WithLabelValues_observations lvs cv :
  observations (WithLabelValues lvs cv) = observations cv.
Proof. unfold WithLabelValues. by destruct (series cv !! lvs). Qed.

Lemma float64_exact value :
  - 2 ^ 53 <= value <= 2 ^ 53 -> float64 value = value.
Proof.
  intros H. destruct (decide (value = 2 ^ 53)) as [->|H1]; [by vm_compute|].
  destruct (decide (value = - 2 ^ 53)) as [->|H2]; [by vm_compute|].
  unfold float64. cbv zeta.
  destruct (Z.ltb_spec (Z.abs value) (2 ^ 53)) as [_|Hge]; [done|].
  change (2 ^ 53) with 9007199254740992 in *. lia.
Qed.

Lemma float64_positive value : 0 < value -> 0 < float64 value.
Proof.
  intros H. unfold float64. cbv zeta.
  destruct (Z.ltb_spec (Z.abs value) (2 ^ 53)) as [_|Hge]; [done|].
  rewrite Z.abs_eq in * by lia. rewrite Z.sgn_pos by done.
  assert (He : 0 <= Z.log2 value - 52).
  { assert (53 <= Z.log2 value); [|lia]. apply Z.log2_le_pow2; lia. }
  set (e := Z.log2 value - 52) in *.
  assert (Hp : 0 < 2 ^ e) by (apply Z.pow_pos_nonneg; lia).
  assert (Hq : 1 <= value / 2 ^ e).
  { apply Z.div_le_lower_bound; [done|]. rewrite Z.mul_1_r.
    transitivity (2 ^ Z.log2 value); [|apply Z.log2_spec; lia].
    apply Z.pow_le_mono_r; lia. }
  repeat case_match; nia.
Qed.

Lemma addIfNonZero_positive value cv lvs :
  0 < value ->
  series (addIfNonZero value cv lvs) !! lvs
    = Some (default 0 (series cv !! lvs) + float64 value) /\
  (forall l, l <> lvs -> series (addIfNonZero value cv lvs) !! l = series cv !! l) /\
  observations (addIfNonZero value cv lvs) = observations cv ++ [(lvs, float64 value)].
Proof.
  intros H. unfold addIfNonZero. destruct (Z.ltb_spec 0 value); [|lia].
  unfold Add. simpl. split_and!.
  - rewrite lookup_insert_eq, WithLabelValues_lookup. by case_decide.
  - intros l Hl. rewrite lookup_insert_ne by done.
    rewrite WithLabelValues_lookup. by case_decide.
  - by rewrite WithLabelValues_observations.
Qed.

(** C9, as the specification states it, fails: the delta [2^53 + 1] is
    positive, yet [Add(float64(value))] receives [2^53], so the new series
    holds [2^53] and is not increased by exactly the delta. *)
Lemma C9_addIfNonZero_counterexample :
  0 < 2 ^ 53 + 1 /\
  series (addIfNonZero (2 ^ 53 + 1) newCounterVec ["c>p"; "tcp"; "key"; "ip"])
    !! ["c>p"; "tcp"; "key"; "ip"] = Some (2 ^ 53) /\
  observations (addIfNonZero (2 ^ 53 + 1) newCounterVec ["c>p"; "tcp"; "key"; "ip"])
    = [(["c>p"; "tcp"; "key"; "ip"], 2 ^ 53)] /\
  2 ^ 53 <> default 0 (series newCounterVec !! ["c>p"; "tcp"; "key"; "ip"]) + (2 ^ 53 + 1).
Proof. by vm_compute. Qed.

(** C9 (amended).  [addIfNonZero(value, counterVec, lvs...)] with
    [value <= 0] returns the vector as it was, with no series made or
    touched; with [value > 0] the series of [lvs] grows by [float64(value)]
    (from zero when it did not exist), which is positive, no other series
    changes and one observation is recorded; the growth is [value] exactly
    when [value <= 2^53].  So the deltas 0, 0, 5, 0, 3 to one series of a new
    vector leave the vector new after the first two calls and record the two
    observations 5 and 3. *)
Theorem C9_addIfNonZero_amended value counterVec lvs :
  (value <= 0 -> addIfNonZero value counterVec lvs = counterVec) /\
  (0 < value ->
     series (addIfNonZero value counterVec lvs) !! lvs
       = Some (default 0 (series counterVec !! lvs) + float64 value) /\
     (forall l, l <> lvs ->
        series (addIfNonZero value counterVec lvs) !! l = series counterVec !! l) /\
     observations (addIfNonZero value counterVec lvs)
       = observations counterVec ++ [(lvs, float64 value)] /\
     0 < float64 value) /\
  (0 < value <= 2 ^ 53 ->
     series (addIfNonZero value counterVec lvs) !! lvs
       = Some (default 0 (series counterVec !! lvs) + value) /\
     observations (addIfNonZero value counterVec lvs)
       = observations counterVec ++ [(lvs, value)]) /\
  (let calls deltas := foldl (fun cv v => addIfNonZero v cv lvs) newCounterVec deltas in
   calls [0; 0] = newCounterVec /\
   series (calls [0; 0]) !! lvs = None /\
   observations (calls [0; 0; 5; 0; 3]) = [(lvs, 5); (lvs, 3)] /\
   series (calls [0; 0; 5; 0; 3]) !! lvs = Some 8).
Proof.
  split; [apply addIfNonZero_nonpositive|]. split; [|split].
  - intros Hpos. destruct (addIfNonZero_positive value counterVec lvs Hpos)
      as (HS & Hne & HO).
    split_and!; try done. by apply float64_positive.
  - intros [Hpos Hle].
    destruct (addIfNonZero_positive value counterVec lvs Hpos) as (HS & _ & HO).
    rewrite HS, HO, float64_exact; [done|]. change (2 ^ 53) with 9007199254740992 in *. lia.
  - intros calls. unfold calls. cbn [foldl].
    rewrite !(addIfNonZero_nonpositive 0) by lia.
    destruct (addIfNonZero_positive 5 newCounterVec lvs) as (S5 & _ & O5); [lia|].
    destruct (addIfNonZero_positive 3 (addIfNonZero 5 newCounterVec lvs) lvs)
      as (S3 & _ & O3); [lia|].
    rewrite S3, O3, S5, O5. done.
Qed.

Lemma C9_addIfNonZero_amended_witness :
  (0 <= 0 /\ addIfNonZero 0 newCounterVec ["c>p"; "tcp"; "key"; "ip"] = newCounterVec) /\
  (0 < 5 <= 2 ^ 53 /\
   series (addIfNonZero 5 newCounterVec ["c>p"; "tcp"; "key"; "ip"])
     !! ["c>p"; "tcp"; "key"; "ip"] = Some 5) /\
  (0 < 2 ^ 53 + 3 /\
   series (addIfNonZero (2 ^ 53 + 3) newCounterVec ["c>p"; "tcp"; "key"; "ip"])
     !! ["c>p"; "tcp"; "key"; "ip"] = Some (2 ^ 53 + 4)).
Proof.
  destruct (C9_addIfNonZero_amended 0 newCounterVec ["c>p"; "tcp"; "key"; "ip"])
    as (H0 & _).
  destruct (C9_addIfNonZero_amended 5 newCounterVec ["c>p"; "tcp"; "key"; "ip"])
    as (_ & _ & H5 & _).
  destruct (C9_addIfNonZero_amended (2 ^ 53 + 3) newCounterVec ["c>p"; "tcp"; "key"; "ip"])
    as (_ & Hbig & _).
  split; [split; [lia | apply H0; lia]|]. split.
  - split; [by vm_compute|]. destruct H5 as (-> & _); [by vm_compute | reflexivity].
  - split; [by vm_compute|]. destruct Hbig as (-> & _); [by vm_compute | reflexivity].
Defined.

(** ** The order of a [range] over a map *)

Lemma insert_at_Permutation {A} k (x : A) l : insert_at k x l ≡ₚ x :: l.
Proof.
  unfold insert_at. rewrite <- Permutation_middle. by rewrite take_drop.
Qed.

Lemma rangeOrder_Permutation {A} (l : list A) : forall sched, rangeOrder sched l ≡ₚ l.
Proof.
  induction l as [|x l IH]; intros sched; simpl; [done|].
  rewrite insert_at_Permutation. by rewrite IH.
Qed.

(** Every order of the elements is the order of some schedule. *)
Lemma rangeOrder_complete {A} (l : list A) : forall l',
  l' ≡ₚ l -> exists sched, rangeOrder sched l = l'.
Proof.
  induction l as [|x l IH]; intros l' Hp.
  - apply Permutation_nil_r in Hp as ->. by exists [].
  - assert (x ∈ l') as Hx by (rewrite Hp; left).
    apply list_elem_of_split in Hx as (l1 & l2 & ->).
    rewrite <- Permutation_middle in Hp. apply Permutation_cons_inv in Hp.
    destruct (IH _ Hp) as (sched & Hs).
    exists (length l1 :: sched). cbn [rangeOrder hd tl]. rewrite Hs.
    unfold insert_at. rewrite Nat.mod_small by (rewrite length_app; lia).
    by rewrite take_app_length, drop_app_length.
Qed.

Lemma rangeOrder_elem_of {A} sched (l : list A) x : x ∈ rangeOrder sched l <-> x ∈ l.
Proof. by rewrite rangeOrder_Permutation. Qed.

Lemma rangeOrder_NoDup_fst {A B} sched (l : list (A * B)) :
  NoDup l.*1 -> NoDup (rangeOrder sched l).*1.
Proof. intros H. by rewrite rangeOrder_Permutation. Qed.

Lemma mentions_prefix needle hay :
  String.prefix needle hay = true -> mentions needle hay = true.
Proof. intros H. destruct hay; cbn [mentions]; by rewrite H. Qed.

Lemma prefix_append needle rest : String.prefix needle (needle +:+ rest) = true.
Proof.
  induction needle as [|a needle IH]; [destruct rest; reflexivity|].
  change (String a needle +:+ rest) with (String a (needle +:+ rest)).
  cbn [String.prefix]. by destruct (Ascii.ascii_dec a a).
Qed.

Lemma mentions_append before needle rest :
  mentions needle (before +:+ needle +:+ rest) = true.
Proof.
  induction before as [|a before IH].
  - change ("" +:+ needle +:+ rest) with (needle +:+ rest).
    apply mentions_prefix, prefix_append.
  - change (String a before +:+ needle +:+ rest)
      with (String a (before +:+ needle +:+ rest)).
    cbn [mentions]. rewrite IH. apply orb_true_r.
Qed.
(** ** Starting and stopping a port *)

Section port_lifecycle.
Context {CipherT : Type}.
Implicit Types (s : SSServer CipherT) (os : OS) (portNum : Z).

Lemma removePort_absent os s portNum :
  ports s !! portNum = None ->
  removePort os s portNum = (Some ("Port " +:+ itoa portNum +:+ " doesn't exist"), s).
Proof. intros H. unfold removePort. by rewrite H. Qed.

Lemma removePort_bound os s portNum port :
  ports s !! portNum = Some port ->
  let '(err, s') := removePort os s portNum in
  ports s' = delete portNum (ports s) /\
  nextService s' = nextService s /\
  trace s' = trace s ++ [StopTCP portNum (tcpService port); StopUDP portNum (udpService port)] /\
  err = match tcpStop os (tcpService port), udpStop os (udpService port) with
        | Some tcpErr, _ =>
            Some ("Failed to close listener on " +:+ itoa portNum +:+ ": " +:+ tcpErr)
        | None, Some udpErr =>
            Some ("Failed to close packetConn on " +:+ itoa portNum +:+ ": " +:+ udpErr)
        | None, None => None
        end.
Proof.
  intros H. unfold removePort. rewrite H.
  destruct (tcpStop os (tcpService port)), (udpStop os (udpService port)); done.
Qed.

Lemma startPort_spec os s portNum :
  let '(err, s') := startPort os s portNum in
  match err with
  | Some _ =>
      ports s' = ports s /\ nextService s' = nextService s /\
      (trace s' = trace s ++ [BindTCP portNum] \/
       trace s' = trace s ++ [BindTCP portNum; BindUDP portNum])
  | None =>
      ports s' = <[portNum := {| tcpService := nextService s;
                                 udpService := S (nextService s);
                                 cipherList := [] |}]> (ports s) /\
      nextService s' = S (S (nextService s)) /\
      trace s' = trace s ++ [BindTCP portNum; BindUDP portNum;
                             ServeTCP portNum (nextService s);
                             ServeUDP portNum (S (nextService s))]
  end.
Proof.
  unfold startPort.
  destruct (ListenTCP os portNum); [simpl; auto|].
  destruct (ListenUDP os portNum); simpl.
  - rewrite <- app_assoc. auto.
  - by rewrite <- !app_assoc.
Qed.

End port_lifecycle.

(** C10.  [removePort] of a port that is not in the map returns an error and
    leaves the server as it was.  [removePort] of a port that is in the map
    deletes it from the map whatever the two [Stop] calls return: the port
    is gone also when [removePort] returns an error. *)
Theorem C10_removePort {CipherT} (os : OS) (s : SSServer CipherT) (portNum : Z) :
  (ports s !! portNum = None ->
     exists err, removePort os s portNum = (Some err, s)) /\
  (forall port, ports s !! portNum = Some port ->
     ports (removePort os s portNum).2 = delete portNum (ports s) /\
     ports (removePort os s portNum).2 !! portNum = None /\
     (forall tcpErr, tcpStop os (tcpService port) = Some tcpErr ->
        is_Some (removePort os s portNum).1) /\
     (forall udpErr, udpStop os (udpService port) = Some udpErr ->
        is_Some (removePort os s portNum).1)).
Proof.
  split.
  - intros H. rewrite removePort_absent by done. eauto.
  - intros port H. pose proof (removePort_bound os s portNum port H) as Hb.
    destruct (removePort os s portNum) as [err s']. simpl.
    destruct Hb as (Hp & _ & _ & He). split_and!.
    + done.
    + rewrite Hp. apply lookup_delete_eq.
    + intros tcpErr Ht. rewrite Ht in He. by subst err.
    + intros udpErr Hu. rewrite Hu in He. subst err.
      by destruct (tcpStop os (tcpService port)).
Qed.

(** C7 (amended).  [removePort] of a port that is in the map calls [Stop] on
    the TCP service and on the UDP service, deletes the port from the map,
    and returns an error if and only if one of the two calls failed.  When
    the TCP call failed the error is made of the TCP error alone, whether
    the UDP call failed or not; the UDP error is reported when only the UDP
    call failed. *)
Theorem C7_removePort_amended {CipherT} (os : OS) (s : SSServer CipherT) (portNum : Z)
    (port : ssPort CipherT) :
  ports s !! portNum = Some port ->
  let '(err, s') := removePort os s portNum in
  trace s' = trace s ++ [StopTCP portNum (tcpService port);
                         StopUDP portNum (udpService port)] /\
  ports s' = delete portNum (ports s) /\
  (is_Some err <->
     is_Some (tcpStop os (tcpService port)) \/ is_Some (udpStop os (udpService port))) /\
  (forall tcpErr, tcpStop os (tcpService port) = Some tcpErr ->
     err = Some ("Failed to close listener on " +:+ itoa portNum +:+ ": " +:+ tcpErr)) /\
  (forall udpErr, tcpStop os (tcpService port) = None ->
     udpStop os (udpService port) = Some udpErr ->
     err = Some ("Failed to close packetConn on " +:+ itoa portNum +:+ ": " +:+ udpErr)).
Proof.
  intros H. pose proof (removePort_bound os s portNum port H) as Hb.
  destruct (removePort os s portNum) as [err s'].
  destruct Hb as (Hp & _ & Ht & He). split_and!; try done.
  - subst err. rewrite !is_Some_alt.
    destruct (tcpStop os (tcpService port)), (udpStop os (udpService port)); tauto.
  - intros tcpErr E. by rewrite E in He.
  - intros udpErr E1 E2. by rewrite E1, E2 in He.
Qed.

(** C7, as the specification states it, fails: when both [Stop] calls fail, with
    "tcp boom" and "udp boom", the error that [removePort] returns has the
    first in it and not the second. *)
Lemma C7_removePort_counterexample :
  ports server80 !! 80 = Some port80 /\
  tcpStop os_fail_stops (tcpService port80) = Some "tcp boom"%string /\
  udpStop os_fail_stops (udpService port80) = Some "udp boom"%string /\
  (removePort os_fail_stops server80 80).1
    = Some "Failed to close listener on 80: tcp boom"%string /\
  mentions "tcp boom" "Failed to close listener on 80: tcp boom" = true /\
  mentions "udp boom" "Failed to close listener on 80: tcp boom" = false.
Proof. repeat split; vm_compute; reflexivity. Qed.

Lemma C7_removePort_amended_witness :
  ports server80 !! 80 = Some port80 /\
  ports (removePort os_fail_stops server80 80).2 = delete 80 (ports server80).
Proof.
  assert (ports server80 !! 80 = Some port80) as H by reflexivity.
  split; [exact H|].
  pose proof (C7_removePort_amended os_fail_stops server80 80 port80 H) as Hc.
  destruct (removePort os_fail_stops server80 80) as [err s'].
  exact (proj1 (proj2 Hc)).
Defined.

Lemma C10_removePort_witness :
  (ports server80 !! 81 = None /\
   exists err, removePort os_fail_stops server80 81 = (Some err, server80)) /\
  (ports server80 !! 80 = Some port80 /\
   ports (removePort os_fail_stops server80 80).2 !! 80 = None /\
   is_Some (removePort os_fail_stops server80 80).1).
Proof.
  assert (ports server80 !! 81 = None) as H81 by reflexivity.
  assert (ports server80 !! 80 = Some port80) as H80 by reflexivity.
  destruct (C10_removePort os_fail_stops server80 81) as (Habs & _).
  destruct (C10_removePort os_fail_stops server80 80) as (_ & Hb).
  destruct (Hb port80 H80) as (_ & Hgone & Htcp & _).
  split; [split; [exact H81 | exact (Habs H81)] |].
  split; [exact H80 | split; [exact Hgone | exact (Htcp "tcp boom"%string eq_refl)]].
Defined.

(** ** One reconcile pass *)

Section loadConfig_proofs.
Context {CipherT : Type}.
Variable NewCipher : string -> string -> CipherT + error.
Implicit Types (s : SSServer CipherT) (os : OS) (portNum p : Z)
  (keys : list KeyConfig) (config : Config).

Local Abbreviation entriesFor := (entriesFor NewCipher).
Local Abbreviation buildCiphers := (buildCiphers NewCipher).
Local Abbreviation loadConfig := (loadConfig NewCipher).
Local Abbreviation ciphers_ok := (ciphers_ok NewCipher).
Local Abbreviation ciphers_of := (ciphers_of NewCipher).
Local Abbreviation cipher_failure := (cipher_failure NewCipher).
Local Abbreviation port_failure := (port_failure NewCipher).

Lemma entriesFor_cons_eq k keys c :
  NewCipher (Cipher k) (Secret k) = inl c ->
  entriesFor (Port k) (k :: keys) =
  MakeCipherEntry (ID k) c (Secret k) :: entriesFor (Port k) keys.
Proof.
  intros H. unfold entriesFor. rewrite filter_cons_True by done. simpl. by rewrite H.
Qed.

Lemma entriesFor_cons_ne p k keys :
  Port k <> p -> entriesFor p (k :: keys) = entriesFor p keys.
Proof. intros H. unfold entriesFor. by rewrite filter_cons_False. Qed.

Lemma entriesFor_absent p keys : p ∉ Port <$> keys -> entriesFor p keys = [].
Proof.
  induction keys as [|k keys IH]; [done|]. rewrite fmap_cons, not_elem_of_cons.
  intros [Hne Hnin]. rewrite entriesFor_cons_ne by done. auto.
Qed.


Lemma buildCiphers_spec keys : forall pc0 pcs0,
  match buildCiphers keys pc0 pcs0 with
  | inr (pc, pcs) =>
      ciphers_ok keys /\
      (forall p, pc !! p = if decide (p ∈ Port <$> keys) then Some 1 else pc0 !! p) /\
      (forall p, pcs !! p =
         if decide (p ∈ Port <$> keys)
         then Some (default [] (pcs0 !! p) ++ entriesFor p keys)
         else pcs0 !! p)
  | inl err =>
      exists k e, k ∈ keys /\ NewCipher (Cipher k) (Secret k) = inr e /\
        err = "Failed to create cipher for key " +:+ ID k +:+ ": " +:+ e
  end.
Proof.
  induction keys as [|k keys IH]; intros pc0 pcs0.
  - simpl. split_and!; [constructor|done|done].
  - cbn [Main.buildCiphers].
    destruct (NewCipher (Cipher k) (Secret k)) as [c|e] eqn:Hc.
    2:{ exists k, e. split; [left|done]. }
    set (pcs1 := match pcs0 !! Port k with Some _ => pcs0 | None => <[Port k:=[]]> pcs0 end).
    assert (default [] (pcs1 !! Port k) = default [] (pcs0 !! Port k)) as Hd.
    { unfold pcs1. destruct (pcs0 !! Port k) eqn:E; [by rewrite E|].
      by rewrite lookup_insert_eq. }
    assert (forall p, p <> Port k -> pcs1 !! p = pcs0 !! p) as Hne.
    { intros p Hp. unfold pcs1. destruct (pcs0 !! Port k); [done|].
      by rewrite lookup_insert_ne. }
    specialize (IH (<[Port k:=1]> pc0)
      (<[Port k := default [] (pcs1 !! Port k) ++ [MakeCipherEntry (ID k) c (Secret k)]]> pcs1)).
    destruct (Main.buildCiphers _ keys _ _) as [err|[pc pcs]].
    { destruct IH as (k' & e & Hin & He & ->). exists k', e. split; [by right|done]. }
    destruct IH as (Hok & Hpc & Hpcs). split_and!.
    + constructor; eauto.
    + intros p. rewrite Hpc, fmap_cons.
      destruct (decide (p = Port k)) as [->|Hp].
      * rewrite lookup_insert_eq. rewrite (decide_True (P := _ ∈ _ :: _)) by left.
        by case_decide.
      * rewrite lookup_insert_ne by done.
        repeat case_decide; try done; set_solver.
    + intros p. rewrite Hpcs, fmap_cons.
      destruct (decide (p = Port k)) as [->|Hp].
      * rewrite lookup_insert_eq, Hd. rewrite (decide_True (P := _ ∈ _ :: _)) by left.
        rewrite (entriesFor_cons_eq _ _ c) by done.
        case_decide as Hin.
        -- simpl. by rewrite <- app_assoc.
        -- by rewrite entriesFor_absent.
      * rewrite lookup_insert_ne, Hne, entriesFor_cons_ne by done.
        repeat case_decide; try done; set_solver.
Qed.

Lemma countBound_spec bound : forall pc,
  NoDup bound ->
  forall p, countBound pc bound !! p =
    if decide (p ∈ bound) then Some (default 0 (pc !! p) - 1) else pc !! p.
Proof.
  unfold countBound.
  induction bound as [|q bound IH]; intros pc Hnd p; [done|].
  apply NoDup_cons in Hnd as [Hq Hnd]. cbn [foldl]. rewrite IH by done.
  destruct (decide (p = q)) as [->|Hp].
  - rewrite lookup_insert_eq. rewrite (decide_True (P := _ ∈ _ :: _)) by left.
    by rewrite decide_False.
  - rewrite lookup_insert_ne by done.
    repeat case_decide; try done; set_solver.
Qed.

Lemma portChanges_spec keys s sched pc pcs :
  buildCiphers keys ∅ ∅ = inr (pc, pcs) ->
  forall p, countBound pc (rangeOrder sched (map_to_list (ports s)).*1) !! p =
    if decide (p ∈ Port <$> keys \/ is_Some (ports s !! p))
    then Some (change keys s p) else None.
Proof.
  intros Hb p. pose proof (buildCiphers_spec keys ∅ ∅) as Hs.
  rewrite Hb in Hs. destruct Hs as (_ & Hpc & _).
  assert (forall q, q ∈ (rangeOrder sched (map_to_list (ports s)).*1)
                    <-> is_Some (ports s !! q)) as Hin.
  { intros q. rewrite rangeOrder_elem_of, list_elem_of_fmap. split.
    - intros ([q' v] & -> & Hqv). apply elem_of_map_to_list in Hqv. by eexists.
    - intros [v Hv]. exists (q, v). split; [done|]. by apply elem_of_map_to_list. }
  rewrite countBound_spec.
  2:{ rewrite rangeOrder_Permutation. apply NoDup_fst_map_to_list. }
  rewrite Hpc, lookup_empty. unfold change.
  repeat case_decide; try done; rewrite ?Hin in *; tauto.
Qed.


(** *** The third loop *)

Lemma removePort_frame os s p q :
  q <> p -> ports (removePort os s p).2 !! q = ports s !! q.
Proof.
  intros Hq. unfold removePort. destruct (ports s !! p) as [port|]; [|done].
  destruct (tcpStop os (tcpService port)), (udpStop os (udpService port)); simpl; by rewrite lookup_delete_ne.
Qed.

Lemma startPort_frame os s p q :
  q <> p -> ports (startPort os s p).2 !! q = ports s !! q.
Proof.
  intros Hq. pose proof (startPort_spec os s p) as H.
  destruct (startPort os s p) as [[e|] s']; simpl.
  - destruct H as (-> & _). done.
  - destruct H as (-> & _). by rewrite lookup_insert_ne.
Qed.

Lemma removePort_trace os s p :
  exists evs, trace (removePort os s p).2 = trace s ++ evs /\
    Forall (fun ev => start_stop_port ev = Some p) evs.
Proof.
  unfold removePort. destruct (ports s !! p) as [port|].
  - exists [StopTCP p (tcpService port); StopUDP p (udpService port)].
    split; [|by repeat constructor].
    by destruct (tcpStop os (tcpService port)), (udpStop os (udpService port)).
  - exists []. split; [by rewrite app_nil_r|constructor].
Qed.

Lemma startPort_trace os s p :
  exists evs, trace (startPort os s p).2 = trace s ++ evs /\
    Forall (fun ev => start_stop_port ev = Some p) evs.
Proof.
  pose proof (startPort_spec os s p) as H.
  destruct (startPort os s p) as [[e|] s']; simpl.
  - destruct H as (_ & _ & [-> | ->]); eexists; (split; [done|]); by repeat constructor.
  - destruct H as (_ & _ & ->). eexists; (split; [done|]); by repeat constructor.
Qed.

(** The third loop only starts and stops ports whose count is [1] or [-1]. *)
Lemma applyChanges_trace os changes : forall s,
  exists evs, trace (applyChanges os changes s).2 = trace s ++ evs /\
    Forall (fun ev => exists q c, start_stop_port ev = Some q /\ (q, c) ∈ changes /\
                                  (c = 1 \/ c = -1)) evs.
Proof.
  induction changes as [|[q c] changes IH]; intros s.
  - exists []. split; [by rewrite app_nil_r|constructor].
  - assert (forall s1 evs1,
      trace s1 = trace s ++ evs1 ->
      Forall (fun ev => start_stop_port ev = Some q) evs1 -> (c = 1 \/ c = -1) ->
      (exists evs, trace s1 = trace s ++ evs /\
        Forall (fun ev => exists q0 c0, start_stop_port ev = Some q0 /\
                  (q0, c0) ∈ (q, c) :: changes /\ (c0 = 1 \/ c0 = -1)) evs) /\
      (exists evs, trace (applyChanges os changes s1).2 = trace s ++ evs /\
        Forall (fun ev => exists q0 c0, start_stop_port ev = Some q0 /\
                  (q0, c0) ∈ (q, c) :: changes /\ (c0 = 1 \/ c0 = -1)) evs)) as Hstep.
    { intros s1 evs1 Ht Hev Hc.
      assert (Forall (fun ev => exists q0 c0, start_stop_port ev = Some q0 /\
                  (q0, c0) ∈ (q, c) :: changes /\ (c0 = 1 \/ c0 = -1)) evs1) as Hev'.
      { eapply Forall_impl; [exact Hev|]. intros ev E. exists q, c. split_and!; [done|left|done]. }
      split; [eauto|].
      destruct (IH s1) as (evs2 & Ht2 & Hev2). exists (evs1 ++ evs2).
      split; [by rewrite Ht2, Ht, app_assoc|].
      apply Forall_app. split; [done|].
      eapply Forall_impl; [exact Hev2|]. intros ev (q0 & c0 & ? & ? & ?).
      exists q0, c0. split_and!; [done|by right|done]. }
    cbn [applyChanges].
    destruct (Z.eqb_spec c (-1)) as [->|Hm].
    { destruct (removePort_trace os s q) as (evs1 & Ht & Hev).
      destruct (Hstep _ _ Ht Hev) as [H1 H2]; [by right|].
      by destruct (removePort os s q) as [[e|] s1]. }
    destruct (Z.eqb_spec c 1) as [->|Hp].
    { destruct (startPort_trace os s q) as (evs1 & Ht & Hev).
      destruct (Hstep _ _ Ht Hev) as [H1 H2]; [by left|].
      by destruct (startPort os s q) as [[e|] s1]. }
    destruct (IH s) as (evs & Ht & Hev). exists evs. split; [done|].
    eapply Forall_impl; [exact Hev|]. intros ev (q0 & c0 & ? & ? & ?).
    exists q0, c0. split_and!; [done|by right|done].
Qed.

(** A port that the list does not start or stop keeps its binding. *)
Lemma applyChanges_frame os changes : forall s p,
  (forall c, (p, c) ∈ changes -> c <> 1 /\ c <> -1) ->
  ports (applyChanges os changes s).2 !! p = ports s !! p.
Proof.
  induction changes as [|[q c] changes IH]; intros s p Hp; [done|].
  assert (forall c0, (p, c0) ∈ changes -> c0 <> 1 /\ c0 <> -1) as Hp'.
  { intros c0 Hin. apply Hp. by right. }
  cbn [applyChanges].
  destruct (Z.eqb_spec c (-1)) as [->|Hm].
  { assert (p <> q) as Hne. { intros ->. destruct (Hp (-1)); [left|done]. }
    pose proof (removePort_frame os s q p Hne) as Hf.
    destruct (removePort os s q) as [[e|] s1]; simpl in *; [done|].
    by rewrite IH. }
  destruct (Z.eqb_spec c 1) as [->|Hc].
  { assert (p <> q) as Hne. { intros ->. destruct (Hp 1); [left|done]. }
    pose proof (startPort_frame os s q p Hne) as Hf.
    destruct (startPort os s q) as [[e|] s1]; simpl in *; [done|].
    by rewrite IH. }
  by apply IH.
Qed.

(** Where the third loop fails: the changes before it were applied, the one
    at hand failed, the ones after it were not tried. *)
Lemma applyChanges_failure os changes : forall s err s',
  applyChanges os changes s = (Some err, s') ->
  exists applied p c rest s_mid cause,
    changes = applied ++ (p, c) :: rest /\
    applyChanges os applied s = (None, s_mid) /\
    ((c = -1 /\ removePort os s_mid p = (Some cause, s') /\
      err = "Failed to remove port " +:+ itoa p +:+ ": " +:+ cause) \/
     (c = 1 /\ startPort os s_mid p = (Some cause, s') /\
      err = "Failed to start port " +:+ itoa p +:+ ": " +:+ cause)).
Proof.
  induction changes as [|[q c] changes IH]; intros s err s' H; [done|].
  cbn [applyChanges] in H.
  assert (forall s1, applyChanges os [(q, c)] s = (None, s1) ->
            applyChanges os changes s1 = (Some err, s') ->
            exists applied p c0 rest s_mid cause,
              (q, c) :: changes = applied ++ (p, c0) :: rest /\
              applyChanges os applied s = (None, s_mid) /\
              ((c0 = -1 /\ removePort os s_mid p = (Some cause, s') /\
                err = "Failed to remove port " +:+ itoa p +:+ ": " +:+ cause) \/
               (c0 = 1 /\ startPort os s_mid p = (Some cause, s') /\
                err = "Failed to start port " +:+ itoa p +:+ ": " +:+ cause))) as Hgo.
  { intros s1 H1 H2. destruct (IH _ _ _ H2) as (applied & p & c0 & rest & s_mid & cause & -> & Ha & Hf).
    exists ((q, c) :: applied), p, c0, rest, s_mid, cause. split_and!; [done| |done].
    cbn [applyChanges] in *.
    destruct (c =? -1).
    { destruct (removePort os s q) as [[e|] s2]; [done|]. by simplify_eq. }
    destruct (c =? 1).
    { destruct (startPort os s q) as [[e|] s2]; [done|]. by simplify_eq. }
    by simplify_eq. }
  destruct (Z.eqb_spec c (-1)) as [->|Hm].
  { destruct (removePort os s q) as [[e|] s1] eqn:E.
    - injection H as <- <-. exists [], q, (-1), changes, s, e. split_and!; [done|done|].
      left. done.
    - apply (Hgo s1); [|done]. cbn [applyChanges]. simpl. by rewrite E. }
  destruct (Z.eqb_spec c 1) as [->|Hc].
  { destruct (startPort os s q) as [[e|] s1] eqn:E.
    - injection H as <- <-. exists [], q, 1, changes, s, e. split_and!; [done|done|].
      right. done.
    - apply (Hgo s1); [|done]. cbn [applyChanges]. simpl. by rewrite E. }
  apply (Hgo s); [|done]. cbn [applyChanges].
  destruct (Z.eqb_spec c (-1)); [done|]. by destruct (Z.eqb_spec c 1).
Qed.

(** What a list of changes that were all applied leaves in the map. *)
Lemma applyChanges_applied os changes : forall s s',
  applyChanges os changes s = (None, s') ->
  NoDup changes.*1 ->
  (forall p, (p, -1) ∈ changes -> is_Some (ports s !! p) /\ ports s' !! p = None) /\
  (forall p, (p, 1) ∈ changes ->
     exists port, ports s' !! p = Some port /\ cipherList port = []).
Proof.
  induction changes as [|[q c] changes IH]; intros s s' H Hnd.
  { split; intros p Hin; by apply elem_of_nil in Hin. }
  rewrite fmap_cons in Hnd. apply NoDup_cons in Hnd as [Hq Hnd]. simpl in Hq.
  assert (forall c0, (q, c0) ∈ changes -> False) as Hq'.
  { intros c0 Hin. apply Hq. apply list_elem_of_fmap. by exists (q, c0). }
  assert (forall s1, ports (applyChanges os changes s1).2 !! q = ports s1 !! q) as Hframe.
  { intros s1. apply applyChanges_frame. intros c0 Hin. by destruct (Hq' c0). }
  cbn [applyChanges] in H.
  destruct (Z.eqb_spec c (-1)) as [->|Hm].
  { destruct (ports s !! q) as [port|] eqn:Eq.
    2:{ rewrite removePort_absent in H by done. done. }
    pose proof (removePort_bound os s q port Eq) as Hb.
    destruct (removePort os s q) as [[e|] s1]; [done|].
    destruct Hb as (Hp1 & _). destruct (IH _ _ H Hnd) as (IH1 & IH2).
    specialize (Hframe s1). rewrite H in Hframe. simpl in Hframe.
    split; intros p Hin; apply elem_of_cons in Hin as [Heq|Hin].
    - injection Heq as ->. split; [by rewrite Eq|].
      rewrite Hframe, Hp1. apply lookup_delete_eq.
    - destruct (IH1 p Hin) as [Hs Hn]. split; [|done].
      rewrite Hp1 in Hs. destruct (decide (p = q)) as [->|Hne].
      + by rewrite lookup_delete_eq in Hs; destruct Hs.
      + by rewrite lookup_delete_ne in Hs.
    - done.
    - by apply IH2. }
  destruct (Z.eqb_spec c 1) as [->|Hc].
  { pose proof (startPort_spec os s q) as Hb.
    destruct (startPort os s q) as [[e|] s1]; [done|].
    destruct Hb as (Hp1 & _). destruct (IH _ _ H Hnd) as (IH1 & IH2).
    specialize (Hframe s1). rewrite H in Hframe. simpl in Hframe.
    split; intros p Hin; apply elem_of_cons in Hin as [Heq|Hin].
    - done.
    - destruct (IH1 p Hin) as [Hs Hn]. split; [|done].
      rewrite Hp1 in Hs. rewrite lookup_insert_ne in Hs; [done|].
      intros ->. by apply (Hq' (-1)).
    - injection Heq as ->. eexists. rewrite Hframe, Hp1, lookup_insert_eq. done.
    - by apply IH2. }
  destruct (IH _ _ H Hnd) as (IH1 & IH2).
  split; intros p Hin; apply elem_of_cons in Hin as [Heq|Hin]; try (by simplify_eq); auto.
Qed.

(** *** The fourth loop *)

Lemma updateCiphers_spec (ciphers : list (Z * list (CipherEntry CipherT))) : forall s,
  NoDup ciphers.*1 ->
  (forall p entries, (p, entries) ∈ ciphers -> is_Some (ports s !! p)) ->
  exists s', updateCiphers ciphers s = Some s' /\
    nextService s' = nextService s /\
    (forall p entries, (p, entries) ∈ ciphers ->
       exists port, ports s !! p = Some port /\
         ports s' !! p = Some {| tcpService := tcpService port;
                                 udpService := udpService port;
                                 cipherList := entries |}) /\
    (forall p, p ∉ ciphers.*1 -> ports s' !! p = ports s !! p) /\
    exists evs, trace s' = trace s ++ evs /\
      Forall (fun ev => start_stop_port ev = None) evs.
Proof.
  induction ciphers as [|[q entries] ciphers IH]; intros s Hnd Hall.
  { exists s. split_and!; try done.
    - intros p e Hin. by apply elem_of_nil in Hin.
    - exists []. by rewrite app_nil_r. }
  rewrite fmap_cons in Hnd. apply NoDup_cons in Hnd as [Hq Hnd]. simpl in Hq.
  destruct (Hall q entries) as [port Hport]; [left|].
  cbn [updateCiphers]. rewrite Hport.
  set (s1 := {| ports := _; nextService := nextService s; trace := _ |}).
  destruct (IH s1 Hnd) as (s' & Hu & Hn & Hin & Hout & evs & Ht & Hev).
  { intros p e Hpe. unfold s1. simpl. destruct (decide (p = q)) as [->|Hne].
    - by rewrite lookup_insert_eq.
    - rewrite lookup_insert_ne by done. eapply Hall. by right. }
  exists s'. split_and!; [done|done| | |].
  - intros p e Hpe. apply elem_of_cons in Hpe as [Heq|Hpe].
    + injection Heq as -> ->. exists port. split; [done|].
      rewrite Hout by done. unfold s1. simpl. by rewrite lookup_insert_eq.
    + destruct (Hin p e Hpe) as (port' & Hp' & Hs').
      assert (p <> q) as Hne.
      { intros ->. apply Hq. apply list_elem_of_fmap. by exists (q, e). }
      unfold s1 in Hp'. simpl in Hp'. rewrite lookup_insert_ne in Hp' by done. eauto.
  - intros p Hp. rewrite fmap_cons, not_elem_of_cons in Hp. destruct Hp as [Hne Hp].
    rewrite Hout by done. unfold s1. simpl. by rewrite lookup_insert_ne.
  - exists (UpdateCiphers q entries :: evs). split.
    + rewrite Ht. unfold s1. simpl. by rewrite <- app_assoc.
    + by constructor.
Qed.

(** *** The whole pass *)

Lemma map_to_list_order {V} (m : gmap Z V) sched :
  NoDup (rangeOrder sched (map_to_list m)).*1 /\
  forall p v, (p, v) ∈ rangeOrder sched (map_to_list m) <-> m !! p = Some v.
Proof.
  split.
  - rewrite rangeOrder_Permutation. apply NoDup_fst_map_to_list.
  - intros p v. rewrite rangeOrder_elem_of. apply elem_of_map_to_list.
Qed.

(** The three ways a pass can go; it never panics. *)
Lemma loadConfig_cases os s config :
  (exists k e,
     k ∈ Keys config /\ NewCipher (Cipher k) (Secret k) = inr e /\
     loadConfig os s config =
       (Returned (Some ("Failed to create cipher for key " +:+ ID k +:+ ": " +:+ e)), s)) \/
  (ciphers_ok (Keys config) /\
   exists changes ciphers,
     changes_of (Keys config) s changes /\ ciphers_of (Keys config) ciphers /\
     ((exists err s1,
         applyChanges os changes s = (Some err, s1) /\
         loadConfig os s config = (Returned (Some err), s1)) \/
      (exists s1 s2,
         applyChanges os changes s = (None, s1) /\
         updateCiphers ciphers s1 = Some s2 /\
         loadConfig os s config =
           (Returned None,
            emit [SetNumAccessKeys (Z.of_nat (length (Keys config)))
                                   (Z.of_nat (length ciphers))] s2)))).
Proof.
  unfold Main.loadConfig.
  pose proof (buildCiphers_spec (Keys config) ∅ ∅) as Hb.
  destruct (buildCiphers (Keys config) ∅ ∅) as [err|[pc pcs]] eqn:Eb.
  { left. destruct Hb as (k & e & Hin & He & ->). by exists k, e. }
  right. destruct Hb as (Hok & _ & Hpcs). split; [done|].
  set (pc2 := countBound pc _).
  set (changes := rangeOrder (rangeChanges os) (map_to_list pc2)).
  set (ciphers := rangeOrder (rangeCiphers os) (map_to_list pcs)).
  exists changes, ciphers.
  assert (changes_of (Keys config) s changes) as Hch.
  { destruct (map_to_list_order pc2 (rangeChanges os)) as [Hnd Hin].
    split; [done|]. intros p c. fold changes in Hin. rewrite Hin. unfold pc2.
    rewrite (portChanges_spec _ _ _ _ _ Eb). case_decide; naive_solver. }
  assert (ciphers_of (Keys config) ciphers) as Hci.
  { destruct (map_to_list_order pcs (rangeCiphers os)) as [Hnd Hin].
    split; [done|]. intros p e. fold ciphers in Hin. rewrite Hin, Hpcs, lookup_empty.
    case_decide; naive_solver. }
  split_and!; [done|done|].
  destruct (applyChanges os changes s) as [[err|] s1] eqn:Ea.
  { left. by exists err, s1. }
  right. destruct Hch as [Hnd Hch]. destruct Hci as [Hndc Hci].
  destruct (applyChanges_applied _ _ _ _ Ea Hnd) as (_ & Hstarted).
  destruct (updateCiphers_spec ciphers s1 Hndc) as (s2 & Hu & _).
  { intros p e Hpe. apply Hci in Hpe as [Hp _].
    destruct (decide (is_Some (ports s !! p))) as [Hbound|Hfree].
    - assert (ports s1 !! p = ports s !! p) as ->; [|done].
      pose proof (applyChanges_frame os changes s p) as Hf. rewrite Ea in Hf. apply Hf.
      intros c Hc. apply Hch in Hc as [_ ->]. unfold change.
      rewrite !decide_True by done. lia.
    - destruct (Hstarted p) as (port & -> & _); [|done].
      apply Hch. split; [by left|]. unfold change.
      rewrite decide_True, decide_False by done. lia. }
  exists s1, s2. split_and!; [done|done|]. rewrite Hu.
  do 3 f_equal. unfold ciphers. rewrite rangeOrder_Permutation.
  by rewrite length_map_to_list.
Qed.

Lemma loadConfig_never_panics os s config : (loadConfig os s config).1 <> Panicked.
Proof.
  destruct (loadConfig_cases os s config)
    as [(k & e & _ & _ & ->)|(_ & ch & ci & _ & _ &
          [(err & s1 & _ & ->)|(s1 & s2 & _ & _ & ->)])]; done.
Qed.


(** What a pass that returns nil leaves: exactly the ports of the
    configuration, each with the entries of its keys. *)
Lemma loadConfig_success os s config s' :
  loadConfig os s config = (Returned None, s') ->
  ciphers_ok (Keys config) /\
  (forall p, p ∈ Port <$> Keys config ->
     exists port, ports s' !! p = Some port /\
       cipherList port = entriesFor p (Keys config) /\
       forall port0, ports s !! p = Some port0 ->
         tcpService port = tcpService port0 /\ udpService port = udpService port0) /\
  (forall p, p ∉ Port <$> Keys config -> ports s' !! p = None).
Proof.
  intros H.
  destruct (loadConfig_cases os s config)
    as [(k & e & _ & _ & H')|(Hok & changes & ciphers & [Hnd Hch] & [Hndc Hci] &
          [(err & s1 & _ & H')|(s1 & s2 & Ha & Hu & H')])];
    rewrite H in H'; try done.
  injection H' as ->. split; [done|].
  destruct (updateCiphers_spec ciphers s1 Hndc) as (s2' & Hu' & _ & Hin & Hout & _).
  { intros p e Hpe. destruct (decide (is_Some (ports s1 !! p))) as [|Hn]; [done|].
    exfalso. revert Hu. clear -Hpe Hn Hndc.
    revert s1 Hn. induction ciphers as [|[q e'] ciphers IH]; intros s1 Hn; [by apply elem_of_nil in Hpe|].
    cbn [updateCiphers]. apply elem_of_cons in Hpe as [Heq|Hpe].
    - injection Heq as <- <-. destruct (ports s1 !! p); [|done]. by destruct Hn.
    - destruct (ports s1 !! q) as [port|] eqn:Eq; [|done].
      rewrite fmap_cons in Hndc. apply NoDup_cons in Hndc as [Hq Hndc].
      apply IH; [done|done|]. simpl. rewrite lookup_insert_ne; [done|].
      intros ->. by rewrite Eq in Hn; destruct Hn. }
  rewrite Hu in Hu'. injection Hu' as <-.
  pose proof (applyChanges_frame os changes s) as Hframe. rewrite Ha in Hframe.
  destruct (applyChanges_applied _ _ _ _ Ha Hnd) as (Hstopped & _).
  split.
  - intros p Hp. destruct (Hin p (entriesFor p (Keys config))) as (port & Hp1 & Hp2).
    { by apply Hci. }
    eexists. split; [exact Hp2|]. split; [done|]. intros port0 Hp0. simpl.
    rewrite Hframe in Hp1.
    2:{ intros c Hc. apply Hch in Hc as [_ ->]. unfold change.
        rewrite !decide_True by (done || by rewrite Hp0). lia. }
    rewrite Hp0 in Hp1. by injection Hp1 as ->.
  - intros p Hp. simpl. rewrite Hout.
    2:{ intros Hin'. apply list_elem_of_fmap in Hin' as ([p' e] & -> & Hpe).
        apply Hci in Hpe as [? _]. done. }
    destruct (decide (is_Some (ports s !! p))) as [Hb|Hf].
    + apply Hstopped. apply Hch. split; [by right|]. unfold change.
      rewrite decide_False, decide_True by done. lia.
    + rewrite Hframe; [by apply eq_None_not_Some|].
      intros c Hc. apply Hch in Hc as [[?|?] _]; done.
Qed.

Lemma loadConfig_failure os s config err s' :
  loadConfig os s config = (Returned (Some err), s') ->
  cipher_failure s config err s' \/ port_failure os s config err s'.
Proof.
  intros H.
  destruct (loadConfig_cases os s config)
    as [(k & e & Hk & He & H')|(Hok & changes & ciphers & Hch & _ &
          [(err' & s1 & Ha & H')|(s1 & s2 & _ & _ & H')])];
    rewrite H in H'; try done.
  { left. injection H' as -> ->. by exists k, e. }
  right. injection H' as <- <-. split; [done|].
  destruct (applyChanges_failure _ _ _ _ _ Ha)
    as (applied & q & c & rest & s_mid & cause & -> & Hap & Hfail).
  exists applied, q, c, rest, s_mid, cause.
  destruct Hch as [Hnd Hch].
  assert (NoDup applied.*1 /\ q ∉ applied.*1) as [Hnda Hq].
  { rewrite fmap_app, fmap_cons in Hnd. apply NoDup_app in Hnd as (? & Hd & _).
    split; [done|]. intros Hin. apply (Hd q Hin). left. }
  destruct (applyChanges_applied _ _ _ _ Hap Hnda) as (Hstopped & Hstarted).
  pose proof (applyChanges_frame os applied s) as Hframe. rewrite Hap in Hframe.
  simpl in Hframe.
  assert (forall p, p <> q -> ports s' !! p = ports s_mid !! p) as Hother.
  { intros p Hp. destruct Hfail as [(_ & Hr & _)|(_ & Hs & _)].
    - pose proof (removePort_frame os s_mid q p Hp) as Hf. by rewrite Hr in Hf.
    - pose proof (startPort_frame os s_mid q p Hp) as Hf. by rewrite Hs in Hf. }
  assert (forall p c0, (p, c0) ∈ applied -> p <> q) as Hneq.
  { intros p c0 Hin ->. apply Hq. apply list_elem_of_fmap. by exists (q, c0). }
  assert (ports s_mid !! q = ports s !! q) as Hmidq.
  { apply Hframe. intros c0 Hin. by destruct (Hneq _ _ Hin). }
  split_and!; [done|done|done| | | | | |].
  - destruct Hfail as [(_ & _ & ->)|(_ & _ & ->)]; apply mentions_append.
  - intros p Hin. destruct (Hstopped p Hin) as [? ?].
    by rewrite (Hother p (Hneq _ _ Hin)).
  - intros p Hin. destruct (Hstarted p Hin) as (port & Hp & _).
    rewrite (Hother p (Hneq _ _ Hin)), Hp. split; [|done].
    assert ((p, 1) ∈ applied ++ (q, c) :: rest) as Hin' by (apply elem_of_app; by left).
    apply Hch in Hin' as [_ Hc]. unfold change in Hc.
    destruct (decide (is_Some (ports s !! p))) as [|Hn]; [case_decide; lia|].
    by apply eq_None_not_Some.
  - intros p Hp Hz. rewrite (Hother p Hp). apply Hframe.
    intros c0 Hin. rewrite (Hz c0 Hin). lia.
  - destruct Hfail as [(-> & Hr & _)|(-> & Hs & _)].
    + destruct (ports s_mid !! q) as [port|] eqn:Eq.
      * pose proof (removePort_bound os s_mid q port Eq) as Hb. rewrite Hr in Hb.
        destruct Hb as (-> & _). apply lookup_delete_eq.
      * rewrite removePort_absent in Hr by done. by injection Hr as _ <-.
    + pose proof (startPort_spec os s_mid q) as Hb. rewrite Hs in Hb.
      destruct Hb as (-> & _). rewrite Hmidq.
      assert ((q, 1) ∈ applied ++ (q, 1) :: rest) as Hin' by (apply elem_of_app; right; left).
      apply Hch in Hin' as [_ Hc]. unfold change in Hc.
      destruct (decide (is_Some (ports s !! q))) as [|Hn]; [case_decide; lia|].
      by apply eq_None_not_Some.
  - destruct (applyChanges_trace os applied s) as (evs1 & Ht1 & Hev1).
    rewrite Hap in Ht1. simpl in Ht1.
    assert (exists evs2, trace s' = trace s_mid ++ evs2 /\
              Forall (fun ev => start_stop_port ev = Some q) evs2) as (evs2 & Ht2 & Hev2).
    { destruct Hfail as [(_ & Hr & _)|(_ & Hs & _)].
      - pose proof (removePort_trace os s_mid q) as Hx. by rewrite Hr in Hx.
      - pose proof (startPort_trace os s_mid q) as Hx. by rewrite Hs in Hx. }
    exists (evs1 ++ evs2). split; [by rewrite Ht2, Ht1, app_assoc|].
    apply Forall_app. split.
    + eapply Forall_impl; [exact Hev1|]. intros ev (p & c0 & ? & ? & _).
      exists p, c0. split; [done|]. apply elem_of_app. by left.
    + eapply Forall_impl; [exact Hev2|]. intros ev Hev.
      exists q, c. split; [done|]. apply elem_of_app. right. left.
Qed.

(** C2 (amended).  A pass of [loadConfig] that returns a non-nil error failed
    in one of two ways.  Either [NewCipher] rejected a key: then the error names that
    key and the server is exactly as it was, no port was stopped or started.
    Or the stop or the start of one port [portNum] failed: then every change
    that the loop made before it ([applied], which went through without an
    error) is still in effect afterwards - a stopped port is unbound, a
    started port is bound, nothing is rolled back -, the ports that were not
    to change are as they were, [portNum] itself is unbound, no later change
    was tried (the events of the pass are all of [applied] or of
    [portNum]), and the text of the error contains the number of
    [portNum].  So the state is that of the changes made before the failure
    but for [portNum], which a failed stop has deleted from the map all the
    same and a failed start has not added.  As the loop returns at its
    first failure, [portNum] is the only port that failed, and the error is
    that of [portNum] alone, one stop or start with its cause. *)
Theorem C2_loadConfig_failure_amended os s config err s' :
  loadConfig os s config = (Returned (Some err), s') ->
  cipher_failure s config err s' \/ port_failure os s config err s'.
Proof. apply loadConfig_failure. Qed.


End loadConfig_proofs.

(** ** The pass on sample configurations *)


Lemma C2_loadConfig_failure_amended_witness :
  loadConfig sampleCipher os_port3_busy server_ABC config_AD
    = (Returned (Some "Failed to start port 3: Failed to start TCP on port 3: address already in use"%string),
       server_AD_failed) /\
  (cipher_failure sampleCipher server_ABC config_AD
     "Failed to start port 3: Failed to start TCP on port 3: address already in use"
     server_AD_failed \/
   port_failure sampleCipher os_port3_busy server_ABC config_AD
     "Failed to start port 3: Failed to start TCP on port 3: address already in use"
     server_AD_failed).
Proof.
  assert (loadConfig sampleCipher os_port3_busy server_ABC config_AD
    = (Returned (Some "Failed to start port 3: Failed to start TCP on port 3: address already in use"%string),
       server_AD_failed)) as H by (vm_compute; reflexivity).
  split; [exact H|].
  exact (C2_loadConfig_failure_amended sampleCipher os_port3_busy server_ABC config_AD _ _ H).
Defined.

(** On the sample, the failed pass has stopped port 2, which stays stopped,
    and has left port 1 alone. *)
Example failed_pass_is_not_rolled_back :
  is_Some (ports server_ABC !! 2) /\
  ports server_AD_failed !! 2 = None /\
  ports server_AD_failed !! 1 = ports server_ABC !! 1 /\
  ports server_AD_failed !! 3 = None.
Proof. split; [by eexists|]. repeat split; vm_compute; reflexivity. Qed.


(** C2, as the specification states it, fails.  With port 80 bound and no
    key, the one change of the pass is the stop of port 80; it fails, so no
    change was made before the failure, and yet the map of ports is not the
    former one: the failed stop has deleted port 80.  Both [Stop] calls of
    the port failed, and the error has the failure of the first alone. *)
Lemma C2_loadConfig_counterexample :
  ports server80 = {[ 80 := port80 ]} /\
  Keys config_none = [] /\
  tcpStop os_fail_stops (tcpService port80) = Some "tcp boom"%string /\
  udpStop os_fail_stops (udpService port80) = Some "udp boom"%string /\
  (loadConfig unitCipher os_fail_stops server80 config_none).1
    = Returned (Some "Failed to remove port 80: Failed to close listener on 80: tcp boom"%string) /\
  ports (loadConfig unitCipher os_fail_stops server80 config_none).2 = ∅ /\
  ports (loadConfig unitCipher os_fail_stops server80 config_none).2 <> ports server80 /\
  trace (loadConfig unitCipher os_fail_stops server80 config_none).2
    = [StopTCP 80 0; StopUDP 80 1].
Proof.
  split_and!; try (vm_compute; reflexivity).
  intros H. assert (ports server80 !! 80 = Some port80) as H80 by (vm_compute; reflexivity).
  rewrite <- H in H80. vm_compute in H80. discriminate.
Qed.
(* ================================================================== *)
(** * Further properties of package [net] *)
(* ================================================================== *)

(** ** What a copy delivers *)

Lemma Sink_Write_cases b k :
  let '((nw, ew), k') := Sink_Write b k in
  w_data k' = w_data k ++ take nw b /\ (nw <= length b)%nat /\
  (ew = None -> nw = length b).
Proof.
  unfold Sink_Write. destruct (w_fail k) as [[kk e]|]; simpl.
  - destruct (Nat.leb_spec (length b) kk); simpl.
    + by rewrite firstn_all.
    + split_and!; [done|lia|done].
  - by rewrite firstn_all.
Qed.

Lemma half_write_cases wc b k :
  let '((nw, ew), k') := half_write wc b k in
  w_data k' = w_data k ++ take nw b /\ (nw <= length b)%nat /\
  (ew = None -> nw = length b).
Proof.
  unfold half_write. destruct wc; [|apply Sink_Write_cases].
  simpl. rewrite app_nil_r. split_and!; [done|lia|done].
Qed.

(** The loop of [io.Copy] hands the destination a prefix of the bytes of the
    source, counts what it hands over, and returns nil only when it has
    handed over all of them. *)
Lemma copyLoop_delivers wc s : forall n k written,
  (chunks s <= n)%nat ->
  let '((m, err), k', s') := copyLoop (half_write wc) (half_read false) n k s written in
  exists d : nat,
    m = written + Z.of_nat d /\ (d <= length (stream_bytes s))%nat /\
    w_data k' = w_data k ++ take d (stream_bytes s) /\
    (err = None ->
       d = length (stream_bytes s) /\ stream_err s = None /\ stream_bytes s' = []).
Proof.
  induction s as [data rest IH|data e]; intros n k written Hn.
  - simpl in Hn. destruct n as [|n]; [lia|].
    cbn [copyLoop]. unfold copy_iter. cbn [half_read Stream_Read].
    destruct (Nat.ltb_spec 0 (length data)) as [Hlen|Hlen].
    + pose proof (half_write_cases wc data k) as Hw.
      destruct (half_write wc data k) as [[nw ew] k1].
      destruct Hw as (Hd & Hle & Hfull).
      destruct ew as [e|].
      { exists nw. simpl. rewrite length_app. split_and!; [done|lia| |done].
        by rewrite take_app_le. }
      rewrite Hfull, Nat.eqb_refl by done. simpl.
      specialize (IH n k1 (written + Z.of_nat (length data))).
      destruct (copyLoop _ _ n k1 rest _) as [[[m err] k'] s'].
      destruct IH as (d & -> & Hdle & Hk' & Herr); [lia|].
      exists (length data + d)%nat. simpl. rewrite length_app.
      split_and!; [lia|lia| |].
      * rewrite Hk', Hd, Hfull, firstn_all, <- app_assoc by done.
        by rewrite take_app_add.
      * intros E. destruct (Herr E) as (-> & ? & ?). done.
    + destruct data; [|simpl in Hlen; lia]. simpl.
      specialize (IH n k written).
      destruct (copyLoop _ _ n k rest _) as [[[m err] k'] s'].
      apply IH. lia.
  - assert (copyLoop (half_write wc) (half_read false) n k (End data e) written =
            match copy_iter (half_write wc) (half_read false) k (End data e) written with
            | (k', s', m, Some err) => ((m, err), k', s')
            | (k', s', m, None) => ((m, None), k', s')
            end) as ->.
    { destruct n; simpl; unfold copy_iter; simpl;
        destruct (0 <? length data)%nat;
        try destruct (half_write wc data k) as [[nw [ew|]] k1];
        try destruct (negb _); by destruct e. }
    unfold copy_iter. cbn [half_read Stream_Read].
    destruct (Nat.ltb_spec 0 (length data)) as [Hlen|Hlen].
    + pose proof (half_write_cases wc data k) as Hw.
      destruct (half_write wc data k) as [[nw ew] k1].
      destruct Hw as (Hd & Hle & Hfull).
      destruct ew as [e'|].
      { exists nw. simpl. split_and!; [done|lia|done|done]. }
      rewrite Hfull, Nat.eqb_refl by done. simpl.
      destruct e as [e|]; simpl.
      * exists (length data). rewrite Hd, Hfull by done. done.
      * exists (length data). rewrite Hd, Hfull by done. done.
    + destruct data; [|simpl in Hlen; lia]. simpl.
      destruct e as [e|]; simpl; exists 0%nat; rewrite app_nil_r, Z.add_0_r; done.
Qed.

Lemma transfer_delivers wc rc k s :
  let '((n, err), k', s') := transfer wc rc k s in
  0 <= n <= Z.of_nat (length (stream_bytes s)) /\
  w_data k' = w_data k ++ take (Z.to_nat n) (stream_bytes s) /\
  (err = None ->
     n = Z.of_nat (length (stream_bytes s)) /\ stream_err s = None /\
     stream_bytes s' = []).
Proof.
  unfold transfer. destruct rc.
  - assert (copyLoop (half_write wc) (half_read true) (chunks s) k s 0 =
            ((0, Some errClosedRead), k, s)) as ->.
    { by destruct (chunks s). }
    simpl. rewrite app_nil_r. split_and!; [lia|lia|done|done].
  - pose proof (copyLoop_delivers wc s (chunks s) k 0 (Nat.le_refl _)) as H.
    destruct (copyLoop _ _ _ k s 0) as [[[n err] k'] s'].
    destruct H as (d & -> & Hle & Hk & Herr).
    rewrite Z.add_0_l, Nat2Z.id. split_and!; [lia|lia|done|].
    intros E. destruct (Herr E) as (-> & ? & ?). done.
Qed.

Lemma copyOneWay_depth leftConn rightConn :
  let '(_, l, r) := copyOneWay leftConn rightConn in
  depth l = depth leftConn /\ depth r = depth rightConn.
Proof.
  rewrite copyOneWay_transfer. destruct (transfer _ _ _ _) as [[res k] s].
  destruct (CloseWrite_facts (put_sink leftConn k)) as (_ & _ & _ & _ & _ & ->).
  destruct (CloseRead_facts (put_stream rightConn s)) as (_ & _ & _ & _ & _ & ->).
  destruct (put_sink_facts leftConn k) as (_ & _ & _ & _ & _ & _ & ->).
  by destruct (put_stream_facts rightConn s) as (_ & _ & _ & _ & _ & _ & ->).
Qed.

Lemma copyOneWay_halves leftConn rightConn :
  let '(res, l, r) := copyOneWay leftConn rightConn in
  transfer (writeClosed leftConn) (readClosed rightConn)
    (conn_sink leftConn) (conn_stream rightConn)
  = (res, conn_sink l, conn_stream r).
Proof.
  rewrite copyOneWay_transfer. destruct (transfer _ _ _ _) as [[res k] s].
  destruct (CloseWrite_facts (put_sink leftConn k)) as (_ & -> & _).
  destruct (CloseRead_facts (put_stream rightConn s)) as (-> & _).
  destruct (put_sink_facts leftConn k) as (-> & _).
  by destruct (put_stream_facts rightConn s) as (-> & _).
Qed.

(** [copyOneWay(leftConn, rightConn)], from a source [rightConn] whose read
    half is open, gives [leftConn] a prefix of the bytes that [rightConn] had
    to yield, in their order and without a gap or a repeat, and the count it
    returns is the length of that prefix.  It returns a nil error only when
    the source ended without an error and all of its bytes went over; nothing
    is left to read then. *)
Theorem copyOneWay_delivers_prefix leftConn rightConn :
  readClosed rightConn = false ->
  let '((n, err), l, r) := copyOneWay leftConn rightConn in
  0 <= n <= Z.of_nat (length (pending rightConn)) /\
  sent l = sent leftConn ++ take (Z.to_nat n) (pending rightConn) /\
  (err = None ->
     n = Z.of_nat (length (pending rightConn)) /\
     sent l = sent leftConn ++ pending rightConn /\
     stream_err (conn_stream rightConn) = None /\
     pending r = []).
Proof.
  intros _.
  pose proof (copyOneWay_halves leftConn rightConn) as Hh.
  pose proof (transfer_delivers (writeClosed leftConn) (readClosed rightConn)
                (conn_sink leftConn) (conn_stream rightConn)) as H.
  destruct (copyOneWay leftConn rightConn) as [[[n err] l] r].
  rewrite Hh in H. unfold sent, pending.
  destruct H as (Hn & Hk & Herr).
  split_and!; [lia|lia|done|].
  intros E. destruct (Herr E) as (Hall & ? & ?). split_and!; try done.
  rewrite Hk, Hall, Nat2Z.id. by rewrite firstn_all.
Qed.

(** [Relay(a, b)] gives each connection a prefix of what the other had to
    yield and returns the lengths of the two prefixes, the one that went to
    [a] first.  When it returns a nil error, each connection has received
    everything that the other had to yield and nothing is left to read. *)
Theorem Relay_delivers a b :
  let '((n_ba, n_ab, err), a', b') := Relay a b in
  0 <= n_ba <= Z.of_nat (length (pending b)) /\
  0 <= n_ab <= Z.of_nat (length (pending a)) /\
  sent a' = sent a ++ take (Z.to_nat n_ba) (pending b) /\
  sent b' = sent b ++ take (Z.to_nat n_ab) (pending a) /\
  (err = None ->
     n_ba = Z.of_nat (length (pending b)) /\ n_ab = Z.of_nat (length (pending a)) /\
     sent a' = sent a ++ pending b /\ sent b' = sent b ++ pending a /\
     pending a' = [] /\ pending b' = []).
Proof.
  unfold Relay.
  pose proof (copyOneWay_halves b a) as H1.
  pose proof (copyOneWay_facts b a) as F1.
  pose proof (transfer_delivers (writeClosed b) (readClosed a)
                (conn_sink b) (conn_stream a)) as D1.
  destruct (copyOneWay b a) as [[[rsN rsErr] b1] a1].
  pose proof (copyOneWay_halves a1 b1) as H2.
  pose proof (copyOneWay_facts a1 b1) as F2.
  pose proof (transfer_delivers (writeClosed a1) (readClosed b1)
                (conn_sink a1) (conn_stream b1)) as D2.
  destruct (copyOneWay a1 b1) as [[[n err] a2] b2].
  rewrite H1 in D1. rewrite H2 in D2.
  destruct F1 as (_ & _ & _ & _ & _ & _ & Sb1 & Ka1).
  destruct F2 as (_ & _ & _ & _ & _ & _ & Sa2 & Kb2).
  destruct D1 as (N1 & K1 & E1). destruct D2 as (N2 & K2 & E2).
  unfold sent, pending. rewrite Sb1, Ka1 in *. rewrite Kb2, Sa2.
  split_and!; try done; try lia.
  destruct err as [e|]; [done|]. intros ->.
  destruct (E1 eq_refl) as (A1 & _ & A3). destruct (E2 eq_refl) as (B1 & _ & B3).
  split_and!; try done.
  - rewrite K2, B1, Nat2Z.id. by rewrite firstn_all.
  - rewrite K1, A1, Nat2Z.id. by rewrite firstn_all.
Qed.

(** [Relay(a, b)] half-closes each of the four halves exactly once: both
    connections receive one [CloseRead] and one [CloseWrite], whatever the
    two copies return and however deep the connections are wrapped. *)
Theorem Relay_closes_each_half_once a b :
  let '(_, a', b') := Relay a b in
  closeReadCalls a' = S (closeReadCalls a) /\
  closeWriteCalls a' = S (closeWriteCalls a) /\
  closeReadCalls b' = S (closeReadCalls b) /\
  closeWriteCalls b' = S (closeWriteCalls b) /\
  depth a' = depth a /\ depth b' = depth b.
Proof.
  unfold Relay.
  pose proof (copyOneWay_facts b a) as F1.
  pose proof (copyOneWay_depth b a) as G1.
  destruct (copyOneWay b a) as [[[rsN rsErr] b1] a1].
  pose proof (copyOneWay_facts a1 b1) as F2.
  pose proof (copyOneWay_depth a1 b1) as G2.
  destruct (copyOneWay a1 b1) as [[[n err] a2] b2].
  destruct F1 as (W1 & R1 & R1' & W1' & _).
  destruct F2 as (W2 & R2 & R2' & W2' & _).
  destruct G1, G2. split_and!; congruence.
Qed.

(** ** The relay under every schedule *)

(** However the turns of the goroutine and of the caller are interleaved,
    once both tasks have finished the relay returns what [Relay] returns and
    has left the two connections as [Relay] leaves them; and both tasks have
    finished as soon as each has had three turns more than its source has
    chunks to read. *)
Theorem Relay_any_schedule leftConn rightConn sched :
  let st := Relay_run sched (Relay_start leftConn rightConn) in
  (forall res, Relay_return st = Some res ->
     res = (Relay leftConn rightConn).1.1 /\
     st_left st = (Relay leftConn rightConn).1.2 /\
     st_right st = (Relay leftConn rightConn).2) /\
  ((conn_chunks rightConn + 3 <= count_occ bool_dec sched false)%nat ->
   (conn_chunks leftConn + 3 <= count_occ bool_dec sched true)%nat ->
   Relay_return st = Some (Relay leftConn rightConn).1.1).
Proof.
  simpl. split.
  - intros res H.
    set (more := replicate (conn_chunks rightConn + 3) false ++
                 replicate (conn_chunks leftConn + 3) true).
    pose proof (Relay_run_finished more _ _ H) as Hmore.
    unfold Relay_run in *. rewrite <- foldl_app in Hmore.
    destruct (Relay_interleaved leftConn rightConn (sched ++ more)) as (Hr & Hl & Hrt).
    + unfold more. rewrite !count_occ_app, !count_occ_replicate. simpl. lia.
    + unfold more. rewrite !count_occ_app, !count_occ_replicate. simpl. lia.
    + unfold Relay_run in Hr, Hl, Hrt. rewrite Hmore in Hr, Hl, Hrt.
      split_and!; congruence.
  - intros Hm Hg. by destruct (Relay_interleaved leftConn rightConn sched Hm Hg).
Qed.

Lemma Relay_any_schedule_witness :
  Relay_return (Relay_run [true; false; false; true; false; true; true; false;
                           false; true; false; true]
                  (Relay_start conn_a3 conn_b2)) = Some (2, 3, None).
Proof.
  destruct (Relay_any_schedule conn_a3 conn_b2
              [true; false; false; true; false; true; true; false;
               false; true; false; true]) as [_ H].
  apply H; vm_compute; lia.
Defined.

Lemma copyOneWay_delivers_prefix_witness :
  readClosed conn_b2 = false /\
  (copyOneWay conn_a3 conn_b2).1.1 = (2, None) /\
  sent (copyOneWay conn_a3 conn_b2).1.2 = [x0a; x0b] /\
  pending (copyOneWay conn_a3 conn_b2).2 = [].
Proof.
  pose proof (copyOneWay_delivers_prefix conn_a3 conn_b2 eq_refl) as H.
  remember (copyOneWay conn_a3 conn_b2) as x eqn:E. vm_compute in E. subst x.
  destruct H as (_ & _ & H). destruct (H eq_refl) as (_ & Hs & _ & Hp).
  split; [reflexivity|]. split; [reflexivity|]. split; [exact Hs | exact Hp].
Defined.

Lemma Relay_delivers_witness :
  (Relay conn_a3 conn_b2).1.1 = (2, 3, None) /\
  sent (Relay conn_a3 conn_b2).1.2 = [x0a; x0b] /\
  sent (Relay conn_a3 conn_b2).2 = [x01; x02; x03].
Proof.
  pose proof (Relay_delivers conn_a3 conn_b2) as H.
  remember (Relay conn_a3 conn_b2) as x eqn:E. vm_compute in E. subst x.
  destruct H as (_ & _ & _ & _ & H). destruct (H eq_refl) as (_ & _ & Ha & Hb & _).
  split; [reflexivity|]. split; [exact Ha | exact Hb].
Defined.

(** ** Socket marks *)

Lemma fnv32a_Write_range data h :
  0 <= h < 2 ^ 32 -> 0 <= fnv32a_Write h data < 2 ^ 32.
Proof.
  revert h. unfold fnv32a_Write.
  induction data as [|c data IH]; intros h Hh; simpl; [done|].
  apply IH. apply Z.mod_pos_bound. lia.
Qed.

Lemma BigEndian_Uint32_range b v :
  BigEndian_Uint32 b = Some v -> 0 <= v < 2 ^ 32.
Proof.
  destruct b as [|b0 [|b1 [|b2 [|b3 rest]]]]; try discriminate.
  rewrite BigEndian_Uint32_sum. intros [= <-].
  pose proof (byteZ_range b0). pose proof (byteZ_range b1).
  pose proof (byteZ_range b2). pose proof (byteZ_range b3). lia.
Qed.

Lemma To4_length ip ip4 : To4 ip = Some ip4 -> length ip = 4%nat \/ length ip = 16%nat.
Proof.
  unfold To4. destruct (Nat.eqb_spec (length ip) IPv4len); [by left|].
  destruct (Nat.eqb_spec (length ip) IPv6len); [by right|done].
Qed.

(** The mark of an IPv4 address that comes as a 4-byte slice is the address
    read as a big-endian number: it fits 32 bits, and two such addresses have
    the same mark only when they are the same address. *)
Theorem NewMarker_4byte_address (ip1 ip2 : IP) :
  length ip1 = 4%nat -> length ip2 = 4%nat ->
  exists m1 m2,
    NewMarker ip1 = Some m1 /\ NewMarker ip2 = Some m2 /\
    BigEndian_Uint32 ip1 = Some (mark m1) /\
    0 <= mark m1 < 2 ^ 32 /\
    (mark m1 = mark m2 <-> ip1 = ip2).
Proof.
  intros H1 H2.
  assert (forall ip, length ip = 4%nat ->
            exists v, BigEndian_Uint32 ip = Some v /\
                      NewMarker ip = Some {| mark := v |}) as Hv.
  { intros ip H. unfold NewMarker. rewrite To4_4 by done.
    destruct ip as [|b0 [|b1 [|b2 [|b3 rest]]]]; try discriminate H.
    rewrite BigEndian_Uint32_sum. eauto. }
  destruct (Hv ip1 H1) as (v1 & B1 & N1). destruct (Hv ip2 H2) as (v2 & B2 & N2).
  exists {| mark := v1 |}, {| mark := v2 |}. simpl.
  repeat (split; [done || by eapply BigEndian_Uint32_range|]).
  split; [|intros ->; congruence].
  intros E. apply NewMarker_ipv4_injective; congruence.
Qed.

Lemma NewMarker_4byte_address_witness :
  exists m1 m2,
    NewMarker [x01; x02; x03; x04] = Some m1 /\
    NewMarker [x01; x02; x03; x05] = Some m2 /\
    mark m1 <> mark m2.
Proof.
  destruct (NewMarker_4byte_address [x01; x02; x03; x04] [x01; x02; x03; x05]
              eq_refl eq_refl) as (m1 & m2 & N1 & N2 & _ & _ & Hiff).
  exists m1, m2. split; [exact N1|]. split; [exact N2|].
  intros E. apply Hiff in E. discriminate E.
Defined.

(** For an address that is not an IPv4 address, the mark is the FNV-1a hash
    of its first six bytes: it fits 32 bits, and two addresses in the same
    /48 have the same mark. *)
Theorem NewMarker_same_48_bits (ip1 ip2 : IP) :
  To4 ip1 = None -> To4 ip2 = None ->
  (6 <= length ip1)%nat -> (6 <= length ip2)%nat ->
  take 6 ip1 = take 6 ip2 ->
  exists m,
    NewMarker ip1 = Some m /\ NewMarker ip2 = Some m /\
    mark m = fnv32a_Sum32 (take 6 ip1) /\ 0 <= mark m < 2 ^ 32.
Proof.
  intros T1 T2 L1 L2 E. unfold NewMarker. rewrite T1, T2.
  destruct (Nat.ltb_spec (length ip1) 6); [lia|].
  destruct (Nat.ltb_spec (length ip2) 6); [lia|].
  rewrite <- E. eexists. repeat (split; [done|]).
  simpl. apply fnv32a_Write_range. unfold offset32. lia.
Qed.

Lemma NewMarker_same_48_bits_witness :
  ip6_a <> ip6_b /\ exists m, NewMarker ip6_a = Some m /\ NewMarker ip6_b = Some m.
Proof.
  split; [discriminate|].
  destruct (NewMarker_same_48_bits ip6_a ip6_b eq_refl eq_refl) as (m & H1 & H2 & _);
    [vm_compute; lia | vm_compute; lia | reflexivity |].
  exists m. split; [exact H1 | exact H2].
Defined.

Lemma NewMarker_cases (ip : IP) :
  match NewMarker ip with
  | None => (length ip < 6)%nat /\ length ip <> 4%nat
  | Some m => ((6 <= length ip)%nat \/ length ip = 4%nat) /\ 0 <= mark m < 2 ^ 32
  end.
Proof.
  unfold NewMarker. destruct (To4 ip) as [ip4|] eqn:T.
  - assert (exists b0 b1 b2 b3 rest, ip = b0 :: b1 :: b2 :: b3 :: rest)
      as (b0 & b1 & b2 & b3 & rest & ->).
    { destruct (To4_length _ _ T) as [L|L];
        destruct ip as [|b0 [|b1 [|b2 [|b3 rest]]]]; try discriminate L; eauto 6. }
    pose proof (BigEndian_Uint32_range (b0 :: b1 :: b2 :: b3 :: rest)) as Hr.
    rewrite BigEndian_Uint32_sum in *. simpl.
    split; [|by apply Hr].
    destruct (To4_length _ _ T) as [L|L]; simpl in L; simpl; lia.
  - assert (length ip <> 4%nat) as H4.
    { intros L. by rewrite To4_4 in T. }
    destruct (Nat.ltb_spec (length ip) 6); [done|].
    split; [by left|]. simpl. apply fnv32a_Write_range. unfold offset32. lia.
Qed.

(** [NewMarker] panics exactly on a slice of fewer than six bytes that is
    not a 4-byte address (the nil [net.IP] among them; the slice has no
    capacity beyond its length); on every other slice it returns a mark
    that fits 32 bits. *)
Theorem NewMarker_panics_iff_short (ip : IP) :
  (NewMarker ip = None <-> (length ip < 6)%nat /\ length ip <> 4%nat) /\
  (forall m, NewMarker ip = Some m -> 0 <= mark m < 2 ^ 32).
Proof.
  pose proof (NewMarker_cases ip) as H.
  destruct (NewMarker ip) as [m|].
  - destruct H as [Hl Hr]. split; [|by intros ? [= <-]].
    split; [done|]. lia.
  - split; [tauto|done].
Qed.

(** ** Marking a socket *)

(** [MarkSocket] returns the error of [SyscallConn] or of [Control] and
    nothing else: when the [setsockopt] call itself fails, the failure is
    written to the log, the socket keeps the mark it had, and [MarkSocket]
    returns nil all the same.  When the three calls succeed the socket
    carries the mark, and the sockets of two clients with different 4-byte
    addresses carry different marks. *)
Theorem MarkSocket_reports (m : Marker) (conn : sysConn) (log : list string) :
  let '(err, conn', log') := MarkSocket m conn log in
  (err = match SyscallConn_err conn with
         | Some e => Some e
         | None => Control_err conn
         end) /\
  (forall e, SyscallConn_err conn = None -> Control_err conn = None ->
     setsockopt_err conn = Some e ->
     err = None /\ so_mark conn' = so_mark conn /\
     log' = log ++ ["setsockopt: " +:+ e]) /\
  (is_Some err -> conn' = conn /\ log' = log) /\
  (SyscallConn_err conn = None -> Control_err conn = None ->
   setsockopt_err conn = None ->
     err = None /\ log' = log /\ so_mark conn' = Some (mark m mod 2 ^ 32) /\
     forall ip1 ip2 m2,
       length ip1 = 4%nat -> length ip2 = 4%nat -> ip1 <> ip2 ->
       NewMarker ip1 = Some m -> NewMarker ip2 = Some m2 ->
       so_mark (MarkSocket m2 conn log).1.2 <> so_mark conn').
Proof.
  unfold MarkSocket.
  destruct (SyscallConn_err conn) as [e1|] eqn:E1.
  { split_and!; try done. }
  destruct (Control_err conn) as [e2|] eqn:E2.
  { split_and!; try done. }
  destruct (setsockopt_err conn) as [e3|] eqn:E3.
  { split_and!; try done; try (by intros []). by intros e _ _ [= <-]. }
  split_and!; try done; try (by intros []).
  intros _ _ _. split_and!; try done.
  intros ip1 ip2 m2 L1 L2 Hne N1 N2. simpl. intros [= E].
  pose proof (NewMarker_cases ip1) as R1. rewrite N1 in R1. destruct R1 as [_ R1].
  pose proof (NewMarker_cases ip2) as R2. rewrite N2 in R2. destruct R2 as [_ R2].
  rewrite !Z.mod_small in E by done.
  apply Hne. apply NewMarker_ipv4_injective; [done|done|].
  rewrite N1, N2. destruct m, m2. simpl in E. by subst.
Qed.

Lemma MarkSocket_reports_witness :
  (MarkSocket {| mark := 0x01020304 |} conn_eperm []).1.1 = None /\
  so_mark (MarkSocket {| mark := 0x01020304 |} conn_eperm []).1.2 = None /\
  (MarkSocket {| mark := 0x01020304 |} conn_eperm []).2 =
    ["setsockopt: operation not permitted"%string].
Proof.
  pose proof (MarkSocket_reports {| mark := 0x01020304 |} conn_eperm []) as H.
  destruct (MarkSocket {| mark := 0x01020304 |} conn_eperm []) as [[err conn'] log'].
  destruct H as (_ & H & _).
  exact (H "operation not permitted"%string eq_refl eq_refl eq_refl).
Defined.

(** ** The relay of a wrapped connection *)

(** [Relay] of a connection wrapped by [WrapConn(c, r, w)] moves the bytes
    of [r] to the other side and the bytes of the other side into [w]; of
    the connection [c] under the wrap it uses the two half-closes only, one
    [CloseRead] and then one [CloseWrite], and neither reads from [c] nor
    writes to it. *)
Theorem Relay_wrapped c r w b :
  let '((n_ba, n_ab, err), a', b') := Relay (WrapConn c r w) b in
  exists r' w',
    a' = duplexConnAdaptor (CloseWrite (CloseRead (underlying c)).2).2 r' w' /\
    w_data w' = w_data w ++ take (Z.to_nat n_ba) (pending b) /\
    sent b' = sent b ++ take (Z.to_nat n_ab) (stream_bytes r) /\
    conn_stream (underlying a') = conn_stream (underlying c) /\
    conn_sink (underlying a') = conn_sink (underlying c).
Proof.
  rewrite WrapConn_underlying. set (u := underlying c). unfold Relay.
  pose proof (transfer_delivers (writeClosed b) false (conn_sink b) r) as D1.
  rewrite (copyOneWay_transfer b (duplexConnAdaptor u r w)).
  cbn [readClosed conn_stream put_stream].
  destruct (transfer (writeClosed b) false (conn_sink b) r) as [[[rsN rsErr] k1] s1].
  cbn [CloseRead]. destruct (CloseRead u) as [e1 u1] eqn:E1. cbn [snd].
  set (b1 := (CloseWrite (put_sink b k1)).2).
  assert (readClosed b1 = readClosed b /\ conn_stream b1 = conn_stream b /\
          conn_sink b1 = k1) as (Rb1 & Sb1 & Kb1).
  { unfold b1. destruct (CloseWrite_facts (put_sink b k1)) as (-> & -> & -> & _).
    by destruct (put_sink_facts b k1) as (-> & -> & -> & _). }
  pose proof (transfer_delivers false (readClosed b1) w (conn_stream b1)) as D2.
  rewrite (copyOneWay_transfer (duplexConnAdaptor u1 s1 w) b1).
  cbn [writeClosed conn_sink put_sink].
  destruct (transfer false (readClosed b1) w (conn_stream b1)) as [[[n err] k2] s2].
  cbn [CloseWrite]. destruct (CloseWrite u1) as [e2 u2] eqn:E2. cbn [snd].
  exists s1, k2.
  destruct D1 as (_ & K1 & _). destruct D2 as (_ & K2 & _).
  pose proof (CloseRead_facts u) as (CR1 & CR2 & _). rewrite E1 in CR1, CR2.
  pose proof (CloseWrite_facts u1) as (CW1 & CW2 & _). rewrite E2 in CW1, CW2.
  simpl in CR1, CR2, CW1, CW2. unfold sent, pending. split_and!.
  - done.
  - by rewrite K2, Sb1.
  - destruct (CloseRead_facts (put_stream b1 s2)) as (_ & -> & _).
    destruct (put_stream_facts b1 s2) as (_ & -> & _). by rewrite Kb1.
  - simpl. congruence.
  - simpl. congruence.
Qed.
(* ================================================================== *)
(** * Further properties of package [metrics] *)
(* ================================================================== *)

(** ** Byte counters *)

Lemma addIfNonZero_lookup value cv lvs l :
  series (addIfNonZero value cv lvs) !! l =
  if decide (l = lvs /\ 0 < value)
  then Some (default 0 (series cv !! lvs) + float64 value)
  else series cv !! l.
Proof.
  destruct (Z.lt_ge_cases 0 value) as [Hpos|Hneg].
  - destruct (addIfNonZero_positive value cv lvs Hpos) as (Heq & Hne & _).
    case_decide as Hd.
    + destruct Hd as [-> _]. done.
    + apply Hne. tauto.
  - rewrite addIfNonZero_nonpositive by lia. rewrite decide_False; [done|lia].
Qed.

Lemma Inc_lookup lvs cv l :
  series (Inc lvs cv) !! l =
  if decide (l = lvs) then Some (default 0 (series cv !! lvs) + 1) else series cv !! l.
Proof.
  unfold Inc, Add. simpl. rewrite WithLabelValues_lookup.
  rewrite (decide_True (P := lvs = lvs)) by done. simpl.
  case_decide as Hd.
  - subst. by rewrite lookup_insert_eq.
  - rewrite lookup_insert_ne by done. rewrite WithLabelValues_lookup. by rewrite decide_False.
Qed.

Ltac float64_small :=
  intros ?; apply float64_exact; change (2 ^ 53) with 9007199254740992 in *; lia.

Ltac series_of_dir :=
  rewrite !addIfNonZero_lookup; repeat case_decide;
  repeat match goal with H : _ = _ /\ _ |- _ => destruct H as [? ?] end;
  try discriminate; first [done | tauto | exfalso; tauto].

(** [AddClosedTCPConnection] adds each positive byte count of [data], as
    [float64] converts it, to the series of its direction, for the protocol
    "tcp", the access key and the client address; the converted count is the
    count itself up to [2^53].  A count that is not positive leaves the series
    of its direction as it was, not even created.  No other series of [dataBytes]
    changes, the counter of closed connections of (address, status, key)
    grows by one, and the collectors that the method does not name stay as
    they were. *)
Theorem AddClosedTCPConnection_counts m clientIp accessKey status data timeToCipher duration :
  let m' := AddClosedTCPConnection m clientIp accessKey status data timeToCipher duration in
  let grows (dir : string) (value : Z) :=
    series (dataBytes m') !! [dir; "tcp"; accessKey; clientIp] =
    (if decide (0 < value)
     then Some (default 0 (series (dataBytes m) !! [dir; "tcp"; accessKey; clientIp])
                + float64 value)
     else series (dataBytes m) !! [dir; "tcp"; accessKey; clientIp]) /\
    (0 < value <= 2 ^ 53 -> float64 value = value) in
  grows "c>p" (ClientProxy data) /\
  grows "p>t" (ProxyTarget data) /\
  grows "p<t" (TargetProxy data) /\
  grows "c<p" (ProxyClient data) /\
  (forall lvs,
     lvs ∉ [["c>p"; "tcp"; accessKey; clientIp]; ["p>t"; "tcp"; accessKey; clientIp];
            ["p<t"; "tcp"; accessKey; clientIp]; ["c<p"; "tcp"; accessKey; clientIp]] ->
     series (dataBytes m') !! lvs = series (dataBytes m) !! lvs) /\
  (forall lvs,
     series (tcpClosedConnections m') !! lvs =
     if decide (lvs = [clientIp; status; accessKey])
     then Some (default 0 (series (tcpClosedConnections m) !! lvs) + 1)
     else series (tcpClosedConnections m) !! lvs) /\
  tcpOpenConnections m' = tcpOpenConnections m /\
  tcpProbes m' = tcpProbes m /\ buildInfo m' = buildInfo m /\
  accessKeys m' = accessKeys m /\ Metrics.ports m' = Metrics.ports m /\
  udpAddedNatEntries m' = udpAddedNatEntries m /\
  udpRemovedNatEntries m' = udpRemovedNatEntries m.
Proof.
  simpl. unfold AddClosedTCPConnection. cbn [with_dataBytes with_timeToCipherMs dataBytes
    tcpClosedConnections tcpOpenConnections tcpProbes buildInfo accessKeys Metrics.ports
    udpAddedNatEntries udpRemovedNatEntries].
  split_and!; try done; try series_of_dir; try float64_small.
  - intros lvs Hl. rewrite !not_elem_of_cons in Hl. destruct Hl as (H1 & H2 & H3 & H4 & _).
    rewrite !addIfNonZero_lookup.
    rewrite !(decide_False (P := lvs = _ /\ _)) by tauto. done.
  - intros lvs.
    change (series (Inc [clientIp; status; accessKey] (tcpClosedConnections m)) !! lvs =
            if decide (lvs = [clientIp; status; accessKey])
            then Some (default 0 (series (tcpClosedConnections m) !! lvs) + 1)
            else series (tcpClosedConnections m) !! lvs).
    rewrite Inc_lookup. by case_decide; subst.
Qed.

(** [AddUDPPacketFromClient] adds its two byte counts, when positive and as
    [float64] converts them (a count up to [2^53] is kept), to the
    series of the directions "c>p" and "p>t" of the protocol "udp", and
    [AddUDPPacketFromTarget] its two to "p<t" and "c<p"; neither touches
    another series of [dataBytes], a series of the protocol "tcp" least of
    all. *)
Theorem AddUDPPacket_counts m clientIp accessKey status bytes1 bytes2 timeToCipher :
  let fromClient :=
    AddUDPPacketFromClient m clientIp accessKey status bytes1 bytes2 timeToCipher in
  let fromTarget :=
    AddUDPPacketFromTarget m clientIp accessKey status bytes1 bytes2 in
  let grows (m' : shadowsocksMetrics) (dir : string) (value : Z) :=
    series (dataBytes m') !! [dir; "udp"; accessKey; clientIp] =
    (if decide (0 < value)
     then Some (default 0 (series (dataBytes m) !! [dir; "udp"; accessKey; clientIp])
                + float64 value)
     else series (dataBytes m) !! [dir; "udp"; accessKey; clientIp]) /\
    (0 < value <= 2 ^ 53 -> float64 value = value) in
  grows fromClient "c>p" bytes1 /\ grows fromClient "p>t" bytes2 /\
  grows fromTarget "p<t" bytes1 /\ grows fromTarget "c<p" bytes2 /\
  (forall lvs,
     lvs ∉ [["c>p"; "udp"; accessKey; clientIp]; ["p>t"; "udp"; accessKey; clientIp]] ->
     series (dataBytes fromClient) !! lvs = series (dataBytes m) !! lvs) /\
  (forall lvs,
     lvs ∉ [["p<t"; "udp"; accessKey; clientIp]; ["c<p"; "udp"; accessKey; clientIp]] ->
     series (dataBytes fromTarget) !! lvs = series (dataBytes m) !! lvs) /\
  (forall dir key ip,
     series (dataBytes fromClient) !! [dir; "tcp"; key; ip]
       = series (dataBytes m) !! [dir; "tcp"; key; ip] /\
     series (dataBytes fromTarget) !! [dir; "tcp"; key; ip]
       = series (dataBytes m) !! [dir; "tcp"; key; ip]) /\
  tcpOpenConnections fromClient = tcpOpenConnections m /\
  tcpClosedConnections fromClient = tcpClosedConnections m /\
  tcpOpenConnections fromTarget = tcpOpenConnections m /\
  tcpClosedConnections fromTarget = tcpClosedConnections m /\
  timeToCipherMs fromTarget = timeToCipherMs m.
Proof.
  simpl. unfold AddUDPPacketFromClient, AddUDPPacketFromTarget.
  cbn [with_dataBytes with_timeToCipherMs dataBytes tcpClosedConnections
       tcpOpenConnections timeToCipherMs].
  split_and!; try done; try series_of_dir; try float64_small.
  - intros lvs Hl. rewrite !not_elem_of_cons in Hl. destruct Hl as (H1 & H2 & _).
    rewrite !addIfNonZero_lookup.
    rewrite !(decide_False (P := lvs = _ /\ _)) by tauto. done.
  - intros lvs Hl. rewrite !not_elem_of_cons in Hl. destruct Hl as (H1 & H2 & _).
    rewrite !addIfNonZero_lookup.
    rewrite !(decide_False (P := lvs = _ /\ _)) by tauto. done.
  - intros dir key ip. split; series_of_dir.
Qed.

(** ** The collectors in every reachable state *)

Lemma Inc_ok ok lvs cv :
  counters_ok ok cv -> ok lvs -> counters_ok ok (Inc lvs cv).
Proof.
  intros Hcv Hok l v. rewrite Inc_lookup. case_decide as Hd.
  - subst l. intros [= <-]. split; [|done].
    destruct (series cv !! lvs) as [v0|] eqn:E; simpl; [|lia].
    destruct (Hcv _ _ E). lia.
  - apply Hcv.
Qed.

Lemma addIfNonZero_ok ok value lvs cv :
  counters_ok ok cv -> ok lvs -> counters_ok ok (addIfNonZero value cv lvs).
Proof.
  intros Hcv Hok l v. rewrite addIfNonZero_lookup. case_decide as Hd.
  - destruct Hd as [-> Hpos]. intros [= <-]. split; [|done].
    pose proof (float64_positive value Hpos).
    destruct (series cv !! lvs) as [v0|] eqn:E; simpl; [|lia].
    destruct (Hcv _ _ E). lia.
  - apply Hcv.
Qed.

Lemma addIfNonZero_observations value lvs cv :
  Forall (fun o => 0 < o.2) (observations cv) ->
  Forall (fun o => 0 < o.2) (observations (addIfNonZero value cv lvs)).
Proof.
  intros H. destruct (Z.lt_ge_cases 0 value) as [Hpos|Hneg].
  - destruct (addIfNonZero_positive value cv lvs Hpos) as (_ & _ & ->).
    apply Forall_app. split; [done|]. repeat constructor. by apply float64_positive.
  - by rewrite addIfNonZero_nonpositive by lia.
Qed.

Lemma Observe_ok ok lvs v hv :
  samples_ok ok hv -> ok lvs -> samples_ok ok (Observe lvs v hv).
Proof.
  intros Hhv Hok l obs. unfold Observe, samples_ok, HistogramVec in *.
  destruct (decide (l = lvs)) as [->|Hne].
  - rewrite lookup_insert_eq. intros [= <-]. split; [|done].
    by destruct (default [] (hv !! lvs)).
  - rewrite lookup_insert_ne by done. apply Hhv.
Qed.

Lemma isFound_cases accessKey :
  isFound accessKey ∈ ["true"; "false"]%string /\
  (isFound accessKey = "true"%string <-> accessKey <> EmptyString).
Proof.
  unfold isFound. case_decide.
  - split; [left|done].
  - split; [right; left|]. split; [discriminate|done].
Qed.

Lemma dataBytes_lvs_intro (dir proto accessKey clientIp : string) :
  dir ∈ ["c>p"; "p>t"; "p<t"; "c<p"]%string -> proto ∈ ["tcp"; "udp"]%string ->
  dataBytes_lvs [dir; proto; accessKey; clientIp].
Proof. intros. by exists dir, proto, accessKey, clientIp. Qed.

Lemma timeToCipherMs_lvs_intro (proto accessKey : string) :
  proto ∈ ["tcp"; "udp"]%string -> timeToCipherMs_lvs [proto; isFound accessKey].
Proof.
  intros. exists proto, (isFound accessKey). split_and!; [done|done|].
  apply isFound_cases.
Qed.

(** In every state that calls of the interface lead to from
    [newShadowsocksMetrics], each series has as many label values as its
    vector has label names, so that no [WithLabelValues] has met a wrong
    number of them; each counter series is positive and no [Add] had a
    delta that is not positive; a series of [dataBytes] has one of the four
    directions and one of the two protocols, a series of [timeToCipherMs]
    one of the two protocols and "true" or "false"; each histogram series
    has a sample. *)
Theorem collectors_invariant (calls : list call) :
  let m := foldl do_call newShadowsocksMetrics calls in
  counters_ok (fun lvs => length lvs = length dataBytes_labels /\ dataBytes_lvs lvs)
    (dataBytes m) /\
  Forall (fun o => 0 < o.2) (observations (dataBytes m)) /\
  counters_ok (fun lvs => length lvs = length tcpOpenConnections_labels)
    (tcpOpenConnections m) /\
  counters_ok (fun lvs => length lvs = length tcpClosedConnections_labels)
    (tcpClosedConnections m) /\
  samples_ok (fun lvs => length lvs = length timeToCipherMs_labels /\ timeToCipherMs_lvs lvs)
    (timeToCipherMs m) /\
  samples_ok (fun lvs => length lvs = length tcpProbes_labels) (tcpProbes m) /\
  samples_ok (fun lvs => length lvs = length tcpConnectionDurationMs_labels)
    (tcpConnectionDurationMs m) /\
  (forall lvs v, buildInfo m !! lvs = Some v ->
     v = 1 /\ length lvs = length buildInfo_labels) /\
  0 <= udpAddedNatEntries m /\ 0 <= udpRemovedNatEntries m.
Proof.
  simpl. induction calls as [|c calls IH] using rev_ind.
  { simpl. split_and!; try done; try (by intros ? ? ?). }
  rewrite foldl_app. cbn [foldl].
  set (m := foldl do_call newShadowsocksMetrics calls) in *.
  destruct IH as (Hd & Ho & Hop & Hcl & Htc & Hpr & Hdu & Hbi & Ha & Hr).
  assert (forall dir proto k ip,
            dir ∈ ["c>p"; "p>t"; "p<t"; "c<p"]%string -> proto ∈ ["tcp"; "udp"]%string ->
            (fun lvs => length lvs = length dataBytes_labels /\ dataBytes_lvs lvs)
              [dir; proto; k; ip]) as Hlv.
  { intros. split; [done|]. by apply dataBytes_lvs_intro. }
  assert (forall proto k, proto ∈ ["tcp"; "udp"]%string ->
            (fun lvs => length lvs = length timeToCipherMs_labels /\ timeToCipherMs_lvs lvs)
              [proto; isFound k]) as Htl.
  { intros. split; [done|]. by apply timeToCipherMs_lvs_intro. }
  destruct c; simpl; split_and!; try done; try lia.
  - intros lvs v. unfold GaugeVec_Set, GaugeVec in *.
    destruct (decide (lvs = [version])) as [->|Hne].
    + rewrite lookup_insert_eq. by intros [= <-].
    + rewrite lookup_insert_ne by done. apply Hbi.
  - by apply Inc_ok.
  - repeat apply addIfNonZero_ok; try done; apply Hlv; set_solver.
  - by repeat apply addIfNonZero_observations.
  - by apply Inc_ok.
  - apply Observe_ok; [done|]. apply Htl. set_solver.
  - by apply Observe_ok.
  - by apply Observe_ok.
  - repeat apply addIfNonZero_ok; try done; apply Hlv; set_solver.
  - by repeat apply addIfNonZero_observations.
  - apply Observe_ok; [done|]. apply Htl. set_solver.
  - repeat apply addIfNonZero_ok; try done; apply Hlv; set_solver.
  - by repeat apply addIfNonZero_observations.
Qed.

(** ** Sums of proxy metrics *)

Lemma int64_int64_add x y : int64 (int64 x + y) = int64 (x + y).
Proof.
  unfold int64.
  replace ((x + 2 ^ 63) mod 2 ^ 64 - 2 ^ 63 + y + 2 ^ 63)
    with ((x + 2 ^ 63) mod 2 ^ 64 + y) by lia.
  rewrite Zplus_mod_idemp_l. f_equal. f_equal. lia.
Qed.

Lemma int64_small x : - 2 ^ 63 <= x < 2 ^ 63 -> int64 x = x.
Proof. intros H. unfold int64. rewrite Z.mod_small by lia. lia. Qed.

Lemma int64_range x : - 2 ^ 63 <= int64 x < 2 ^ 63.
Proof. unfold int64. pose proof (Z.mod_pos_bound (x + 2 ^ 63) (2 ^ 64)). lia. Qed.

Lemma foldl_ProxyMetrics_add others : forall m,
  ProxyMetrics_in_range m ->
  foldl ProxyMetrics_add m others =
  {| ClientProxy := int64 (ClientProxy m + foldr Z.add 0 (ClientProxy <$> others));
     ProxyTarget := int64 (ProxyTarget m + foldr Z.add 0 (ProxyTarget <$> others));
     TargetProxy := int64 (TargetProxy m + foldr Z.add 0 (TargetProxy <$> others));
     ProxyClient := int64 (ProxyClient m + foldr Z.add 0 (ProxyClient <$> others)) |}.
Proof.
  induction others as [|o others IH]; intros m Hm.
  - simpl. rewrite !Z.add_0_r.
    unfold ProxyMetrics_in_range in Hm. rewrite !Forall_cons in Hm.
    destruct Hm as (H1 & H2 & H3 & H4 & _).
    rewrite !int64_small by done. by destruct m.
  - cbn [foldl]. rewrite IH.
    + cbn [ProxyMetrics_add ClientProxy ProxyTarget TargetProxy ProxyClient].
      rewrite !int64_int64_add. rewrite !fmap_cons. cbn [foldr].
      by rewrite !Z.add_assoc.
    + unfold ProxyMetrics_in_range, ProxyMetrics_add. simpl.
      repeat constructor; apply int64_range.
Qed.

Lemma foldr_add_Permutation (l l' : list Z) :
  l ≡ₚ l' -> foldr Z.add 0 l = foldr Z.add 0 l'.
Proof. induction 1; simpl; lia. Qed.

(** Adding proxy metrics up with [add], one after the other, gives in each
    field the sum of the field over all of them, wrapped to [int64]; the
    order in which they are added does not matter, and as long as the sums
    fit [int64] they are the plain sums. *)
Theorem ProxyMetrics_add_sums (m : ProxyMetrics) (others : list ProxyMetrics) :
  ProxyMetrics_in_range m ->
  let total := foldl ProxyMetrics_add m others in
  ClientProxy total = int64 (ClientProxy m + foldr Z.add 0 (ClientProxy <$> others)) /\
  ProxyTarget total = int64 (ProxyTarget m + foldr Z.add 0 (ProxyTarget <$> others)) /\
  TargetProxy total = int64 (TargetProxy m + foldr Z.add 0 (TargetProxy <$> others)) /\
  ProxyClient total = int64 (ProxyClient m + foldr Z.add 0 (ProxyClient <$> others)) /\
  ProxyMetrics_in_range total /\
  (forall others', others' ≡ₚ others -> foldl ProxyMetrics_add m others' = total) /\
  (- 2 ^ 63 <= ClientProxy m + foldr Z.add 0 (ClientProxy <$> others) < 2 ^ 63 ->
   ClientProxy total = ClientProxy m + foldr Z.add 0 (ClientProxy <$> others)).
Proof.
  intros Hm. simpl. rewrite (foldl_ProxyMetrics_add others m Hm). simpl.
  split_and!; try done.
  - unfold ProxyMetrics_in_range. simpl. repeat constructor; apply int64_range.
  - intros others' Hp. rewrite (foldl_ProxyMetrics_add others' m Hm).
    assert (forall f : ProxyMetrics -> Z,
              foldr Z.add 0 (f <$> others') = foldr Z.add 0 (f <$> others)) as E.
    { intros f. apply foldr_add_Permutation. by apply fmap_Permutation. }
    by rewrite !E.
  - apply int64_small.
Qed.

Lemma ProxyMetrics_add_sums_witness :
  ProxyMetrics_in_range proxyMetrics_0 /\
  ClientProxy (foldl ProxyMetrics_add proxyMetrics_0 [proxyMetrics_1; proxyMetrics_2]) = 11 /\
  foldl ProxyMetrics_add proxyMetrics_0 [proxyMetrics_2; proxyMetrics_1] =
  foldl ProxyMetrics_add proxyMetrics_0 [proxyMetrics_1; proxyMetrics_2].
Proof.
  assert (ProxyMetrics_in_range proxyMetrics_0) as H0.
  { unfold ProxyMetrics_in_range. simpl. repeat constructor; lia. }
  destruct (ProxyMetrics_add_sums proxyMetrics_0 [proxyMetrics_1; proxyMetrics_2] H0)
    as (_ & _ & _ & _ & _ & Hperm & Hplain).
  split; [exact H0|]. split.
  - rewrite Hplain; simpl; lia.
  - apply Hperm. apply Permutation_swap.
Defined.

(** ** The client address of a connection *)

Lemma append_String a s t : String a s +:+ t = String a (s +:+ t).
Proof. reflexivity. Qed.

Lemma append_Empty t : EmptyString +:+ t = t.
Proof. reflexivity. Qed.

Lemma LastIndexByteString_None s c :
  LastIndexByteString s c = None <-> IndexByteString s c = None.
Proof.
  induction s as [|a s IH]; simpl; [done|].
  destruct (LastIndexByteString s c), (Ascii.eqb a c), (IndexByteString s c);
    simpl; intuition congruence.
Qed.

Lemma IndexByteString_append_None s t c :
  IndexByteString (s +:+ t) c = None <->
  IndexByteString s c = None /\ IndexByteString t c = None.
Proof.
  induction s as [|a s IH].
  - rewrite append_Empty. simpl. tauto.
  - rewrite append_String. simpl. destruct (Ascii.eqb a c); [intuition congruence|].
    destruct (IndexByteString (s +:+ t) c), (IndexByteString s c); simpl in *;
      intuition congruence.
Qed.

Lemma IndexByteString_first s c t :
  IndexByteString s c = None ->
  IndexByteString (s +:+ String c t) c = Some (String.length s).
Proof.
  induction s as [|a s IH].
  - intros _. rewrite append_Empty. simpl. by rewrite Ascii.eqb_refl.
  - rewrite append_String. simpl. destruct (Ascii.eqb a c); [done|].
    destruct (IndexByteString s c); [done|]. intros _. by rewrite IH.
Qed.

Lemma LastIndexByteString_last s c t :
  IndexByteString t c = None ->
  LastIndexByteString (s +:+ String c t) c = Some (String.length s).
Proof.
  intros Ht. induction s as [|a s IH].
  - rewrite append_Empty. simpl.
    apply LastIndexByteString_None in Ht. rewrite Ht. by rewrite Ascii.eqb_refl.
  - rewrite append_String. simpl. by rewrite IH.
Qed.

Lemma slice_to_append s t : slice_to (String.length s) (s +:+ t) = s.
Proof.
  induction s as [|a s IH]; [by destruct t|].
  rewrite append_String. simpl. by rewrite IH.
Qed.

Lemma slice_from_append s t : slice_from (String.length s) (s +:+ t) = t.
Proof.
  induction s as [|a s IH]; [by destruct t|].
  rewrite append_String. simpl. by rewrite IH.
Qed.

Lemma length_append s t :
  String.length (s +:+ t) = (String.length s + String.length t)%nat.
Proof.
  induction s as [|a s IH]; [done|]. rewrite append_String. simpl. by rewrite IH.
Qed.

Lemma get_0_append s t c :
  IndexByteString s c = None -> IndexByteString t c = None ->
  String.get 0 (s +:+ String ":" t) <> Some c \/ c = ":"%char.
Proof.
  intros Hs Ht. destruct s as [|a s].
  - rewrite append_Empty. simpl. destruct (Ascii.eqb_spec ":"%char c); [by right|].
    left. congruence.
  - rewrite append_String. simpl in *. left.
    destruct (Ascii.eqb_spec a c); [done|]. congruence.
Qed.

Lemma slice_from_append_S s a t :
  slice_from (String.length s + 1) (s +:+ String a t) = t.
Proof.
  induction s as [|b s IH]; [done|]. rewrite append_String. simpl. by rewrite IH.
Qed.

Lemma append_assoc_String s a t : s +:+ String a t = (s +:+ String a EmptyString) +:+ t.
Proof.
  induction s as [|b s IH]; [done|]. rewrite !append_String. by rewrite IH.
Qed.

Lemma SplitHostPort_plain (host port : string) :
  IndexByteString host "[" = None -> IndexByteString host "]" = None ->
  IndexByteString host ":" = None ->
  IndexByteString port ":" = None -> IndexByteString port "[" = None ->
  IndexByteString port "]" = None ->
  SplitHostPort (host +:+ String ":" port) = (host, port, None).
Proof.
  intros Hh1 Hh2 Hh3 Hp1 Hp2 Hp3. unfold SplitHostPort.
  rewrite LastIndexByteString_last by done.
  rewrite decide_False.
  2:{ destruct (get_0_append host port "["%char Hh1 Hp2) as [H|H]; [done|discriminate H]. }
  rewrite slice_to_append. rewrite decide_False by (rewrite Hh3; by intros []).
  cbn [slice_from].
  assert (forall c, c <> ":"%char -> IndexByteString host c = None ->
            IndexByteString port c = None ->
            IndexByteString (host +:+ String ":" port) c = None) as Hnone.
  { intros c Hc H1 H2. apply IndexByteString_append_None. split; [done|].
    cbn [IndexByteString]. destruct (Ascii.eqb_spec ":"%char c); [done|]. by rewrite H2. }
  rewrite !Hnone by done.
  rewrite !decide_False by (by intros []).
  by rewrite slice_from_append_S.
Qed.

Lemma SplitHostPort_bracketed (host port : string) :
  IndexByteString host "[" = None -> IndexByteString host "]" = None ->
  IndexByteString port ":" = None -> IndexByteString port "[" = None ->
  IndexByteString port "]" = None ->
  SplitHostPort (String "[" (host +:+ String "]" (String ":" port))) = (host, port, None).
Proof.
  intros Hh1 Hh2 Hp1 Hp2 Hp3. unfold SplitHostPort.
  set (rest := host +:+ String "]" (String ":" port)).
  assert (LastIndexByteString (String "[" rest) ":" = Some (S (String.length host + 1))) as ->.
  { cbn [LastIndexByteString]. unfold rest. rewrite append_assoc_String.
    rewrite LastIndexByteString_last by done. by rewrite length_append. }
  rewrite decide_True by done.
  assert (IndexByteString (String "[" rest) "]" = Some (S (String.length host))) as ->.
  { cbn [IndexByteString]. simpl (Ascii.eqb _ _). unfold rest.
    by rewrite IndexByteString_first. }
  assert (String.length (String "[" rest) = S (String.length host + S (S (String.length port)))) as ->.
  { simpl. unfold rest. by rewrite length_append. }
  destruct (Nat.eqb_spec (S (String.length host) + 1) (S (String.length host + S (S (String.length port)))));
    [lia|].
  destruct (Nat.eqb_spec (S (String.length host) + 1) (S (String.length host + 1))); [|lia].
  replace (S (String.length host) - 1)%nat with (String.length host) by lia.
  cbn [slice_from]. fold rest.
  assert (slice_to (String.length host) rest = host) as -> by apply slice_to_append.
  assert (IndexByteString rest "[" = None) as ->.
  { apply IndexByteString_append_None. split; [done|]. simpl. by rewrite Hp2. }
  rewrite decide_False by (by intros []).
  replace (S (String.length host) + 1)%nat with (S (String.length host + 1)) by lia.
  cbn [slice_from].
  assert (slice_from (String.length host + 1) rest = String ":" port) as ->
    by apply slice_from_append_S.
  assert (IndexByteString (String ":" port) "]" = None) as ->.
  { simpl. by rewrite Hp3. }
  rewrite decide_False by (by intros []).
  replace (S (String.length host + 1) + 1)%nat with (S (S (String.length host + 1))) by lia.
  change (slice_from (S (S (String.length host + 1))) (String "[" rest))
    with (slice_from (S (String.length host + 1)) rest).
  assert (slice_from (S (String.length host + 1)) rest = port) as ->; [|done].
  unfold rest. rewrite append_assoc_String.
  replace (S (String.length host + 1)) with (String.length (host +:+ String "]" EmptyString) + 1)%nat.
  - apply slice_from_append_S.
  - rewrite length_append. simpl. lia.
Qed.

(** [GetIpAddress] gives the host of an address and drops the port: for
    the text [host:port] it returns [host], and for the text [[host]:port],
    the form of an IPv6 address, it returns [host] without the brackets.
    For a text with no colon in it, [SplitHostPort] fails and
    [GetIpAddress] returns the empty string. *)
Theorem GetIpAddress_host (host port : string) :
  IndexByteString host "[" = None -> IndexByteString host "]" = None ->
  IndexByteString port ":" = None -> IndexByteString port "[" = None ->
  IndexByteString port "]" = None ->
  (IndexByteString host ":" = None -> GetIpAddress (host +:+ ":" +:+ port) = host) /\
  GetIpAddress ("[" +:+ host +:+ "]:" +:+ port) = host /\
  (forall addr, IndexByteString addr ":" = None -> GetIpAddress addr = EmptyString).
Proof.
  intros Hh1 Hh2 Hp1 Hp2 Hp3. unfold GetIpAddress. split_and!.
  - intros Hh3. change (":" +:+ port) with (String ":" port).
    by rewrite SplitHostPort_plain.
  - change ("[" +:+ host +:+ "]:" +:+ port)
      with (String "[" (host +:+ String "]" (String ":" port))).
    by rewrite SplitHostPort_bracketed.
  - intros addr H. unfold SplitHostPort.
    apply LastIndexByteString_None in H. by rewrite H.
Qed.

Lemma GetIpAddress_host_witness :
  GetIpAddress "192.0.2.7:51820" = "192.0.2.7"%string /\
  GetIpAddress "[2001:db8::7]:51820" = "2001:db8::7"%string.
Proof.
  destruct (GetIpAddress_host "192.0.2.7" "51820") as (H4 & _); try reflexivity.
  destruct (GetIpAddress_host "2001:db8::7" "51820") as (_ & H6 & _); try reflexivity.
  split; [exact (H4 eq_refl) | exact H6].
Defined.

(** ** Measured connections *)

Lemma put_conn_conn_of c d : conn_of (put_conn c d) = d.
Proof. by destruct c. Qed.

Lemma put_conn_put_conn c d d' : put_conn (put_conn c d) d' = put_conn c d'.
Proof. by destruct c. Qed.

Lemma count_read_put_conn c d n h : count_read (put_conn c d) n h = count_read c n h.
Proof. by destruct c. Qed.

Lemma count_written_put_conn c d n h : count_written (put_conn c d) n h = count_written c n h.
Proof. by destruct c. Qed.

Lemma add_at_lookup p n h q :
  add_at p n h q = if decide (q = p) then int64 (h p + n) else h q.
Proof. done. Qed.

Lemma io_Copy_into_eq {R} (read : R -> (list byte * option read_err) * R) turns dst src h :
  io_Copy_into read turns dst src h =
  let '((n, err), d, s) := io_Copy_to read turns (conn_of dst) src in
  ((n, err), put_conn dst d, s, count_written dst n h).
Proof.
  destruct dst as [d|c]; simpl.
  - by destruct (io_Copy_to read turns d src) as [[[n err] d'] s].
  - by destruct (io_Copy_to read turns (mc_DuplexConn c) src) as [[[n err] d'] s].
Qed.

Lemma io_Copy_from_eq dst src h :
  io_Copy_from dst src h =
  let '((n, err), d, s) := io_Copy (conn_of dst) src in
  ((n, err), put_conn dst d, s, count_written dst n h).
Proof.
  destruct src as [rd wr cr cw|conn r w]; unfold io_Copy_from, io_Copy, WriteTo;
    rewrite io_Copy_into_eq; [done|].
  by destruct (io_Copy_to Stream_Read chunks (conn_of dst) r) as [[[n err] d] s].
Qed.

Lemma io_Copy_Conn_eq dst src h :
  io_Copy_Conn dst src h =
  let '((n, err), d, s) := io_Copy (conn_of dst) (conn_of src) in
  ((n, err), put_conn dst d, put_conn src s, count_read src n (count_written dst n h)).
Proof.
  destruct src as [s|c]; unfold io_Copy_Conn; rewrite io_Copy_from_eq; simpl.
  - by destruct (io_Copy (conn_of dst) s) as [[[n err] d] s'].
  - by destruct (io_Copy (conn_of dst) (mc_DuplexConn c)) as [[[n err] d] s'].
Qed.

Lemma Conn_CloseWrite_eq c :
  Conn_CloseWrite c = ((CloseWrite (conn_of c)).1, put_conn c (CloseWrite (conn_of c)).2).
Proof. destruct c as [d|c]; simpl; by destruct (CloseWrite _). Qed.

Lemma Conn_CloseRead_eq c :
  Conn_CloseRead c = ((CloseRead (conn_of c)).1, put_conn c (CloseRead (conn_of c)).2).
Proof. destruct c as [d|c]; simpl; by destruct (CloseRead _). Qed.

Lemma copyOneWay_Conn_eq l r h :
  copyOneWay_Conn l r h =
  let '((n, err), l', r') := copyOneWay (conn_of l) (conn_of r) in
  ((n, err), put_conn l l', put_conn r r', count_read r n (count_written l n h)).
Proof.
  unfold copyOneWay_Conn, copyOneWay. rewrite io_Copy_Conn_eq.
  destruct (io_Copy (conn_of l) (conn_of r)) as [[[n err] d] s].
  rewrite Conn_CloseWrite_eq, Conn_CloseRead_eq, !put_conn_conn_of, !put_conn_put_conn.
  destruct (CloseWrite d) as [e1 d']. by destruct (CloseRead s) as [e2 s'].
Qed.

Lemma Relay_Conn_eq a b h :
  Relay_Conn a b h =
  let '((n_ba, n_ab, err), a', b') := Relay (conn_of a) (conn_of b) in
  ((n_ba, n_ab, err), put_conn a a', put_conn b b',
   count_read b n_ba (count_written a n_ba (count_read a n_ab (count_written b n_ab h)))).
Proof.
  unfold Relay_Conn, Relay. rewrite copyOneWay_Conn_eq.
  destruct (copyOneWay (conn_of b) (conn_of a)) as [[[rsN rsErr] b1] a1].
  rewrite copyOneWay_Conn_eq, !put_conn_conn_of.
  destruct (copyOneWay a1 b1) as [[[n err] a2] b2].
  by rewrite !put_conn_put_conn, !count_read_put_conn, !count_written_put_conn.
Qed.

(** A measured connection behaves as the connection it embeds and counts
    what passes: a [Read] adds the number of bytes it returns to
    [*readCount], also when it returns them with an error, a [Write] adds
    the number of bytes written to [*writeCount], and a copy out of it or
    into it with [io.Copy] returns what the copy between the embedded
    connections returns and adds the number of bytes copied. *)
Theorem measuredConn_counts (c : measuredConn) (h : store) :
  (let '(res, c', h') := measuredConn_Read c h in
   Read (mc_DuplexConn c) = (res, mc_DuplexConn c') /\
   readCount c' = readCount c /\ writeCount c' = writeCount c /\
   h' = add_at (readCount c) (Z.of_nat (length res.1)) h) /\
  (forall b,
     let '(res, c', h') := measuredConn_Write b c h in
     Write b (mc_DuplexConn c) = (res, mc_DuplexConn c') /\
     readCount c' = readCount c /\ writeCount c' = writeCount c /\
     h' = add_at (writeCount c) (Z.of_nat res.1) h) /\
  (forall dst,
     let '((n, err), dst', src', h') := io_Copy_Conn dst (measured c) h in
     io_Copy (conn_of dst) (mc_DuplexConn c) = ((n, err), conn_of dst', conn_of src') /\
     h' = add_at (readCount c) n (count_written dst n h)) /\
  (forall src,
     let '((n, err), dst', src', h') := io_Copy_Conn (measured c) src h in
     io_Copy (mc_DuplexConn c) (conn_of src) = ((n, err), conn_of dst', conn_of src') /\
     h' = count_read src n (add_at (writeCount c) n h)).
Proof.
  split_and!.
  - unfold measuredConn_Read. by destruct (Read (mc_DuplexConn c)) as [[data err] conn].
  - intros b. unfold measuredConn_Write.
    by destruct (Write b (mc_DuplexConn c)) as [[n err] conn].
  - intros dst. rewrite io_Copy_Conn_eq. simpl.
    destruct (io_Copy (conn_of dst) (mc_DuplexConn c)) as [[[n err] d] s].
    by rewrite put_conn_conn_of.
  - intros src. rewrite io_Copy_Conn_eq. simpl.
    destruct (io_Copy (mc_DuplexConn c) (conn_of src)) as [[[n err] d] s].
    by rewrite put_conn_conn_of.
Qed.

(** [Relay] between two measured connections returns what [Relay] between
    the embedded connections returns and leaves these as that [Relay] leaves
    them.  With four different counters, the read counter of each connection
    has grown by the number of bytes relayed out of it and its write counter
    by the number relayed into it: the counters of [a] by the second and the
    first count that [Relay] returns, those of [b] by the first and the
    second; no other variable has changed. *)
Theorem Relay_measured (a b : DuplexConn) (sentA receivedA sentB receivedB : nat)
    (h : store) :
  NoDup [sentA; receivedA; sentB; receivedB] ->
  let '((n_ba, n_ab, err), a', b', h') :=
    Relay_Conn (measured (MeasureConn a sentA receivedA))
               (measured (MeasureConn b sentB receivedB)) h in
  Relay a b = ((n_ba, n_ab, err), conn_of a', conn_of b') /\
  h' receivedA = int64 (h receivedA + n_ab) /\
  h' sentA = int64 (h sentA + n_ba) /\
  h' receivedB = int64 (h receivedB + n_ba) /\
  h' sentB = int64 (h sentB + n_ab) /\
  (forall p, p ∉ [sentA; receivedA; sentB; receivedB] -> h' p = h p).
Proof.
  intros Hnd. rewrite Relay_Conn_eq. simpl.
  destruct (Relay a b) as [[[[n_ba n_ab] err] a'] b'].
  rewrite !NoDup_cons, !not_elem_of_cons in Hnd.
  destruct Hnd as ((? & ? & ? & _) & (? & ? & _) & (? & _) & _).
  split_and!; [done| | | | |].
  - rewrite !add_at_lookup. repeat case_decide; congruence.
  - rewrite !add_at_lookup. repeat case_decide; congruence.
  - rewrite !add_at_lookup. repeat case_decide; congruence.
  - rewrite !add_at_lookup. repeat case_decide; congruence.
  - intros p Hp. rewrite !not_elem_of_cons in Hp. destruct Hp as (? & ? & ? & ? & _).
    rewrite !add_at_lookup. repeat case_decide; congruence.
Qed.

Lemma Relay_measured_witness :
  let h' := (Relay_Conn (measured (MeasureConn conn_a3 0 1))
                        (measured (MeasureConn conn_b2 2 3)) (fun _ => 0)).2 in
  h' 1%nat = 3 /\ h' 0%nat = 2 /\ h' 3%nat = 2 /\ h' 2%nat = 3.
Proof.
  assert (NoDup [0; 1; 2; 3]%nat) as Hnd.
  { repeat (apply NoDup_cons; split; [set_solver|]). apply NoDup_nil_2. }
  pose proof (Relay_measured conn_a3 conn_b2 0 1 2 3 (fun _ => 0) Hnd) as H.
  destruct (Relay_Conn _ _ (fun _ => 0)) as [[[[[n_ba n_ab] err] a'] b'] h'].
  destruct H as (HR & H1 & H0 & H3 & H2 & _).
  vm_compute in HR. injection HR as <- <- _ _ _.
  simpl. rewrite H1, H0, H3, H2. by vm_compute.
Defined.
(* ================================================================== *)
(** * Further properties of package [main] *)
(* ================================================================== *)

(** ** Stopping the server *)

Section Stop_proofs.
Context {CipherT : Type}.
Implicit Types (s : SSServer CipherT) (os : OS) (p q : Z).

Lemma stop_events_frame s s1 portNums :
  (forall q, q ∈ portNums -> ports s1 !! q = ports s !! q) ->
  stop_events s1 portNums = stop_events s portNums.
Proof.
  induction portNums as [|q l IH]; intros H; [done|].
  unfold stop_events in *. simpl. rewrite (H q) by left.
  rewrite IH; [done|]. intros q' Hq'. apply H. by right.
Qed.

Lemma stopPorts_spec os portNums : forall s err s',
  NoDup portNums -> (forall p, p ∈ portNums -> is_Some (ports s !! p)) ->
  stopPorts os portNums s = (err, s') ->
  exists stopped rest,
    portNums = stopped ++ rest /\
    (forall q, ports s' !! q = if decide (q ∈ stopped) then None else ports s !! q) /\
    nextService s' = nextService s /\
    trace s' = trace s ++ stop_events s stopped /\
    match err with
    | None =>
        rest = [] /\
        forall p port, p ∈ portNums -> ports s !! p = Some port ->
          tcpStop os (tcpService port) = None /\ udpStop os (udpService port) = None
    | Some e =>
        exists p port,
          p ∈ stopped /\ ports s !! p = Some port /\
          e = match tcpStop os (tcpService port), udpStop os (udpService port) with
              | Some tcpErr, _ =>
                  "Failed to close listener on " +:+ itoa p +:+ ": " +:+ tcpErr
              | None, Some udpErr =>
                  "Failed to close packetConn on " +:+ itoa p +:+ ": " +:+ udpErr
              | None, None => e
              end /\
          (is_Some (tcpStop os (tcpService port)) \/ is_Some (udpStop os (udpService port)))
    end.
Proof.
  induction portNums as [|p l IH]; intros s err s' Hnd Hbound Hrun.
  { injection Hrun as <- <-. exists [], []. split_and!; try done.
    - by rewrite app_nil_r.
    - intros p port Hp. by apply elem_of_nil in Hp. }
  apply NoDup_cons in Hnd as [Hp Hnd].
  destruct (Hbound p) as [port Hport]; [left|].
  cbn [stopPorts] in Hrun.
  pose proof (removePort_bound os s p port Hport) as Hb.
  destruct (removePort os s p) as [[e|] s1].
  - injection Hrun as <- <-. destruct Hb as (Hports & Hnext & Htrace & He).
    exists [p], l. split_and!; try done.
    + intros q. rewrite Hports. case_decide as Hq.
      * apply list_elem_of_singleton in Hq as ->. apply lookup_delete_eq.
      * rewrite lookup_delete_ne; [done|]. intros ->. apply Hq. left.
    + rewrite Htrace. unfold stop_events. simpl. by rewrite Hport, app_nil_r.
    + exists p, port. split_and!; [left|done| |].
      * destruct (tcpStop os (tcpService port)), (udpStop os (udpService port));
          by simplify_eq.
      * destruct (tcpStop os (tcpService port)), (udpStop os (udpService port));
          simplify_eq; eauto.
  - destruct Hb as (Hports & Hnext & Htrace & He).
    assert (forall q, q ∈ l -> ports s1 !! q = ports s !! q) as Hframe.
    { intros q Hq. rewrite Hports, lookup_delete_ne; [done|]. by intros ->. }
    destruct (IH s1 err s' Hnd) as (stopped & rest & -> & Hlook & Hn & Ht & Herr);
      [|done|].
    { intros q Hq. rewrite Hframe by done. apply Hbound. by right. }
    exists (p :: stopped), rest. split_and!; try done.
    + intros q. rewrite Hlook, Hports. destruct (decide (q = p)) as [->|Hne].
      * rewrite (decide_True (P := p ∈ p :: stopped)) by left.
        case_decide; [done|]. apply lookup_delete_eq.
      * rewrite lookup_delete_ne by done.
        repeat case_decide; try done; set_solver.
    + congruence.
    + rewrite Ht, Htrace, <- app_assoc. f_equal.
      rewrite (stop_events_frame s s1).
      * unfold stop_events. simpl. by rewrite Hport.
      * intros q Hq. apply Hframe. apply elem_of_app. by left.
    + destruct err as [e|].
      * destruct Herr as (p' & port' & Hin & Hp' & He' & Hsome).
        exists p', port'. split_and!; [by right| |done|done].
        rewrite <- Hframe; [done|]. apply elem_of_app. by left.
      * destruct Herr as [-> Hall]. split; [done|].
        intros q portq Hq Hportq. apply elem_of_cons in Hq as [->|Hq].
        -- rewrite Hport in Hportq. injection Hportq as <-.
           by destruct (tcpStop os (tcpService port)), (udpStop os (udpService port)).
        -- apply (Hall q); [done|]. by rewrite Hframe.
Qed.

Lemma Stop_order os s :
  let order := rangeOrder (rangePorts os) (map_to_list (ports s)).*1 in
  NoDup order /\ (forall p, p ∈ order <-> is_Some (ports s !! p)) /\
  order ≡ₚ (map_to_list (ports s)).*1.
Proof.
  simpl. split_and!.
  - rewrite rangeOrder_Permutation. apply NoDup_fst_map_to_list.
  - intros p. rewrite rangeOrder_elem_of, list_elem_of_fmap. split.
    + intros ([q v] & -> & Hqv). apply elem_of_map_to_list in Hqv. by eexists.
    + intros [v Hv]. exists (p, v). split; [done|]. by apply elem_of_map_to_list.
  - apply rangeOrder_Permutation.
Qed.

Lemma Stop_spec os s err s' :
  Stop os s = (err, s') ->
  exists stopped,
    NoDup stopped /\ (forall p, p ∈ stopped -> is_Some (ports s !! p)) /\
    (forall q, ports s' !! q = if decide (q ∈ stopped) then None else ports s !! q) /\
    nextService s' = nextService s /\
    trace s' = trace s ++ stop_events s stopped /\
    match err with
    | None =>
        stopped ≡ₚ (map_to_list (ports s)).*1 /\
        forall p port, ports s !! p = Some port ->
          tcpStop os (tcpService port) = None /\ udpStop os (udpService port) = None
    | Some e =>
        exists p port,
          p ∈ stopped /\ ports s !! p = Some port /\
          e = match tcpStop os (tcpService port), udpStop os (udpService port) with
              | Some tcpErr, _ =>
                  "Failed to close listener on " +:+ itoa p +:+ ": " +:+ tcpErr
              | None, Some udpErr =>
                  "Failed to close packetConn on " +:+ itoa p +:+ ": " +:+ udpErr
              | None, None => e
              end /\
          (is_Some (tcpStop os (tcpService port)) \/ is_Some (udpStop os (udpService port)))
    end.
Proof.
  unfold Stop. intros Hrun.
  destruct (Stop_order os s) as (Hnd & Hin & Hperm).
  destruct (stopPorts_spec os _ s err s' Hnd) as (stopped & rest & Heq & Hlook & Hn & Ht & Herr);
    [by intros p Hp; apply Hin|done|].
  exists stopped. rewrite Heq in Hnd, Hin, Hperm.
  split_and!; try done.
  - by apply NoDup_app in Hnd as (? & _).
  - intros p Hp. apply Hin. apply elem_of_app. by left.
  - destruct err as [e|]; [done|]. destruct Herr as [-> Hall].
    rewrite app_nil_r in *. split; [done|].
    intros p port Hp. apply (Hall p port); [|done]. rewrite Heq.
    apply Hin. by eexists.
Qed.

(** [Stop] returns nil exactly when the two services of every bound port
    stop without an error.  Then no port is bound any more and each service
    was stopped once, the ports taken in some order; on a server with no
    port bound [Stop] does nothing. *)
Theorem Stop_stops_every_port os s :
  let '(err, s') := Stop os s in
  (err = None <->
     forall p port, ports s !! p = Some port ->
       tcpStop os (tcpService port) = None /\ udpStop os (udpService port) = None) /\
  (err = None ->
     ports s' = ∅ /\
     exists order, order ≡ₚ (map_to_list (ports s)).*1 /\
       trace s' = trace s ++ stop_events s order) /\
  (ports s = ∅ -> err = None /\ s' = s).
Proof.
  destruct (Stop os s) as [err s'] eqn:Hrun.
  destruct (Stop_spec os s err s' Hrun) as (stopped & Hnd & Hbound & Hlook & Hn & Ht & Herr).
  split_and!.
  - split.
    + intros ->. by destruct Herr.
    + intros Hall. destruct err as [e|]; [|done].
      destruct Herr as (p & port & _ & Hp & _ & [Hs|Hs]);
        destruct (Hall p port Hp) as [H1 H2]; rewrite ?H1, ?H2 in Hs; by destruct Hs.
  - intros ->. destruct Herr as [Hperm _]. split; [|by exists stopped].
    apply map_eq. intros q. rewrite Hlook, lookup_empty. case_decide as Hq; [done|].
    destruct (ports s !! q) as [port|] eqn:E; [|done].
    exfalso. apply Hq. rewrite Hperm. apply list_elem_of_fmap.
    exists (q, port). split; [done|]. by apply elem_of_map_to_list.
  - intros Hempty. unfold Stop in Hrun. rewrite Hempty, map_to_list_empty in Hrun.
    simpl in Hrun. by injection Hrun as <- <-.
Qed.

(** When [Stop] returns an error, it is the error of one bound port whose
    TCP service or, the TCP service having stopped, whose UDP service failed
    to stop; that port is deleted from the map all the same.  The ports
    that the loop had reached are deleted and their services were stopped;
    the loop has not reached the others, which stay bound and running.  So
    fewer ports are bound than before, and never is the error that a port
    does not exist. *)
Theorem Stop_failure os s err s' :
  Stop os s = (Some err, s') ->
  exists p port cause stopped,
    ports s !! p = Some port /\ ports s' !! p = None /\
    ((tcpStop os (tcpService port) = Some cause /\
      err = "Failed to close listener on " +:+ itoa p +:+ ": " +:+ cause) \/
     (tcpStop os (tcpService port) = None /\
      udpStop os (udpService port) = Some cause /\
      err = "Failed to close packetConn on " +:+ itoa p +:+ ": " +:+ cause)) /\
    NoDup stopped /\ p ∈ stopped /\
    (forall q, q ∈ stopped -> is_Some (ports s !! q)) /\
    (forall q, ports s' !! q = if decide (q ∈ stopped) then None else ports s !! q) /\
    trace s' = trace s ++ stop_events s stopped /\
    (size (ports s') < size (ports s))%nat.
Proof.
  intros Hrun.
  destruct (Stop_spec os s _ s' Hrun) as (stopped & Hnd & Hbound & Hlook & Hn & Ht & Herr).
  destruct Herr as (p & port & Hin & Hp & He & Hsome).
  assert (ports s' !! p = None) as Hgone.
  { rewrite Hlook. by rewrite decide_True. }
  assert (exists cause,
    (tcpStop os (tcpService port) = Some cause /\
      err = "Failed to close listener on " +:+ itoa p +:+ ": " +:+ cause) \/
     (tcpStop os (tcpService port) = None /\
      udpStop os (udpService port) = Some cause /\
      err = "Failed to close packetConn on " +:+ itoa p +:+ ": " +:+ cause)) as [cause Hcause].
  { destruct (tcpStop os (tcpService port)) as [e1|], (udpStop os (udpService port)) as [e2|];
      try (by eexists; left); try (by eexists; right).
    destruct Hsome as [[? [=]]|[? [=]]]. }
  exists p, port, cause, stopped. split_and!; try done.
  apply map_subset_size. split.
  - apply map_subseteq_spec. intros q v. rewrite Hlook. by case_decide.
  - intros Hsub. rewrite map_subseteq_spec in Hsub.
    specialize (Hsub p port Hp). by rewrite Hgone in Hsub.
Qed.

Lemma Stop_progress os s :
  ports (Stop os s).2 = ∅ \/ (size (ports (Stop os s).2) < size (ports s))%nat.
Proof.
  destruct (Stop os s) as [[e|] s'] eqn:Hrun; simpl.
  - right.
    destruct (Stop_spec os s _ s' Hrun) as (stopped & _ & _ & Hlook & _ & _ & Herr).
    destruct Herr as (p & port & Hin & Hp & _).
    apply map_subset_size. split.
    + apply map_subseteq_spec. intros q v. rewrite Hlook. by case_decide.
    + intros Hsub. rewrite map_subseteq_spec in Hsub.
      specialize (Hsub p port Hp). rewrite Hlook in Hsub. by rewrite decide_True in Hsub.
  - left.
    destruct (Stop_spec os s _ s' Hrun) as (stopped & _ & _ & Hlook & _ & _ & Hperm & _).
    apply map_eq. intros q. rewrite Hlook, lookup_empty. case_decide as Hq; [done|].
    destruct (ports s !! q) as [port|] eqn:E; [|done].
    exfalso. apply Hq. rewrite Hperm. apply list_elem_of_fmap.
    exists (q, port). split; [done|]. by apply elem_of_map_to_list.
Qed.

Lemma Stop_empty os s : ports s = ∅ -> Stop os s = (None, s).
Proof. intros H. unfold Stop. by rewrite H, map_to_list_empty. Qed.

Lemma Stop_again_empty oss : forall s, ports s = ∅ -> ports (Stop_again oss s) = ∅.
Proof.
  induction oss as [|os oss IH]; intros s H; [done|].
  unfold Stop_again in *. cbn [foldl]. apply IH. by rewrite Stop_empty.
Qed.

(** [Stop] can be called again after it has failed, and calling it again and
    again comes to an end: every call that leaves a port bound has deleted
    one at least, so after as many calls as there were ports no port is
    bound, whatever the services answer and whatever the order of the
    loop. *)
Theorem Stop_again_stops_every_port (oss : list OS) s :
  (size (ports s) <= length oss)%nat -> ports (Stop_again oss s) = ∅.
Proof.
  revert s. induction oss as [|os oss IH]; intros s Hsize.
  - simpl in *. apply map_size_empty_iff. lia.
  - unfold Stop_again in *. cbn [foldl].
    destruct (Stop_progress os s) as [Hempty|Hless].
    + by apply Stop_again_empty.
    + apply IH. simpl in Hsize. lia.
Qed.

End Stop_proofs.

Lemma Stop_failure_witness :
  Stop os_fail_stops server80
    = (Some "Failed to close listener on 80: tcp boom"%string,
       (Stop os_fail_stops server80).2) /\
  ports (Stop os_fail_stops server80).2 !! 80 = None.
Proof.
  assert (Stop os_fail_stops server80
    = (Some "Failed to close listener on 80: tcp boom"%string,
       (Stop os_fail_stops server80).2)) as H by (vm_compute; reflexivity).
  split; [exact H|].
  destruct (Stop_failure os_fail_stops server80 _ _ H)
    as (p & port & cause & stopped & Hp & Hgone & _ & _ & Hin & Hbound & Hlook & _).
  rewrite Hlook. destruct (decide (80 ∈ stopped)) as [|Hn]; [reflexivity|].
  exfalso. apply Hn.
  assert (p = 80) as <-; [|exact Hin].
  destruct (decide (p = 80)) as [|Hne]; [assumption|].
  exfalso. revert Hp. unfold server80. simpl. by rewrite lookup_singleton_ne.
Defined.

Lemma Stop_again_stops_every_port_witness :
  ports (Stop_again [os_fail_stops] server80) = ∅.
Proof.
  apply Stop_again_stops_every_port. vm_compute. lia.
Defined.

Lemma Stop_stops_every_port_witness :
  (Stop os_port3_busy server_ABC).1 = None /\
  ports (Stop os_port3_busy server_ABC).2 = ∅.
Proof.
  pose proof (Stop_stops_every_port os_port3_busy server_ABC) as H.
  destruct (Stop os_port3_busy server_ABC) as [err s'].
  destruct H as (Hiff & Hnone & _).
  assert (err = None) as He.
  { apply Hiff. intros p port _. split; reflexivity. }
  split; [exact He|]. exact (proj1 (Hnone He)).
Defined.

(** ** More on the reconcile pass *)

Section loadConfig_more.
Context {CipherT : Type}.
Variable NewCipher : string -> string -> CipherT + error.
Implicit Types (s : SSServer CipherT) (os : OS) (portNum p q : Z)
  (keys : list KeyConfig) (config : Config).

Local Abbreviation entriesFor := (entriesFor NewCipher).
Local Abbreviation loadConfig := (loadConfig NewCipher).
Local Abbreviation ciphers_ok := (ciphers_ok NewCipher).
Local Abbreviation ciphers_of := (ciphers_of NewCipher).
Local Abbreviation event_of_pass := (event_of_pass NewCipher).

Lemma startPort_None os s p :
  (startPort os s p).1 = None <-> ListenTCP os p = None /\ ListenUDP os p = None.
Proof.
  unfold startPort. destruct (ListenTCP os p); [simpl; intuition congruence|].
  destruct (ListenUDP os p); simpl; intuition congruence.
Qed.

Lemma removePort_None os s p port :
  ports s !! p = Some port ->
  (removePort os s p).1 = None <->
  tcpStop os (tcpService port) = None /\ udpStop os (udpService port) = None.
Proof.
  intros H. unfold removePort. rewrite H.
  destruct (tcpStop os (tcpService port)), (udpStop os (udpService port));
    simpl; intuition congruence.
Qed.

(** The third loop goes through exactly when every start and every stop on
    its list goes through. *)
Lemma applyChanges_None os changes : forall s,
  NoDup changes.*1 ->
  (forall p, (p, -1) ∈ changes -> is_Some (ports s !! p)) ->
  (applyChanges os changes s).1 = None <->
  (forall p, (p, 1) ∈ changes -> ListenTCP os p = None /\ ListenUDP os p = None) /\
  (forall p port, (p, -1) ∈ changes -> ports s !! p = Some port ->
     tcpStop os (tcpService port) = None /\ udpStop os (udpService port) = None).
Proof.
  induction changes as [|[q c] changes IH]; intros s Hnd Hbound.
  { simpl. split; [|done]. intros _. split; intros p; intros; by apply elem_of_nil in H. }
  rewrite fmap_cons in Hnd. apply NoDup_cons in Hnd as [Hq Hnd]. simpl in Hq.
  assert (forall c0, (q, c0) ∈ changes -> False) as Hq'.
  { intros c0 Hin. apply Hq. apply list_elem_of_fmap. by exists (q, c0). }
  assert (forall s1, (forall p, p <> q -> ports s1 !! p = ports s !! p) ->
            (applyChanges os changes s1).1 = None <->
            (forall p, (p, 1) ∈ changes -> ListenTCP os p = None /\ ListenUDP os p = None) /\
            (forall p port, (p, -1) ∈ changes -> ports s !! p = Some port ->
               tcpStop os (tcpService port) = None /\ udpStop os (udpService port) = None))
    as Hrest.
  { intros s1 Hframe. rewrite IH; [|done|].
    - split; intros [H1 H2]; (split; [done|]); intros p port Hin Hp;
        apply (H2 p port Hin); [rewrite Hframe|rewrite <- Hframe]; try done;
        intros ->; by apply (Hq' (-1)).
    - intros p Hin. rewrite Hframe; [apply Hbound; by right|].
      intros ->. by apply (Hq' (-1)). }
  cbn [applyChanges].
  destruct (Z.eqb_spec c (-1)) as [->|Hm].
  { destruct (Hbound q) as [port Hport]; [left|].
    pose proof (removePort_None os s q port Hport) as Hrm.
    pose proof (removePort_frame os s q) as Hframe.
    destruct (removePort os s q) as [[e|] s1]; simpl in *.
    - split; [done|]. intros [_ H2]. exfalso.
      assert (Some e = None) as [=]. apply Hrm. apply (H2 q port); [left|done].
    - rewrite (Hrest s1) by (intros p Hp; by apply Hframe).
      split; intros [H1 H2]; split.
      + intros p Hin. apply elem_of_cons in Hin as [[=]|Hin]. by apply H1.
      + intros p port' Hin Hp. apply elem_of_cons in Hin as [[= ->]|Hin].
        * rewrite Hport in Hp. injection Hp as <-. by apply Hrm.
        * by apply (H2 p).
      + intros p Hin. apply H1. by right.
      + intros p port' Hin. apply H2. by right. }
  destruct (Z.eqb_spec c 1) as [->|Hc].
  { pose proof (startPort_None os s q) as Hst.
    pose proof (startPort_frame os s q) as Hframe.
    destruct (startPort os s q) as [[e|] s1]; simpl in *.
    - split; [done|]. intros [H1 _]. exfalso.
      assert (Some e = None) as [=]. apply Hst. apply H1. left.
    - rewrite (Hrest s1) by (intros p Hp; by apply Hframe).
      split; intros [H1 H2]; split.
      + intros p Hin. apply elem_of_cons in Hin as [[= ->]|Hin]; [by apply Hst|by apply H1].
      + intros p port' Hin Hp. apply elem_of_cons in Hin as [[=]|Hin]. by apply (H2 p).
      + intros p Hin. apply H1. by right.
      + intros p port' Hin. apply H2. by right. }
  rewrite (Hrest s) by done.
  split; intros [H1 H2]; split.
  - intros p Hin. apply elem_of_cons in Hin as [Heq|Hin]; [by simplify_eq|by apply H1].
  - intros p port' Hin Hp.
    apply elem_of_cons in Hin as [Heq|Hin]; [by simplify_eq|by apply (H2 p)].
  - intros p Hin. apply H1. by right.
  - intros p port' Hin. apply H2. by right.
Qed.

Lemma changes_of_cases keys s changes p c :
  changes_of keys s changes -> (p, c) ∈ changes ->
  (c = 1 <-> p ∈ Port <$> keys /\ ports s !! p = None) /\
  (c = -1 <-> (p ∉ Port <$> keys) /\ is_Some (ports s !! p)).
Proof.
  intros [_ Hch] Hin. apply Hch in Hin as [Hor ->]. unfold change.
  rewrite eq_None_not_Some.
  destruct (decide (p ∈ Port <$> keys)), (decide (is_Some (ports s !! p)));
    split; split; try (intros; lia); try tauto.
Qed.

Lemma changes_of_mem keys s changes p :
  changes_of keys s changes ->
  ((p, 1) ∈ changes <-> p ∈ Port <$> keys /\ ports s !! p = None) /\
  ((p, -1) ∈ changes <-> (p ∉ Port <$> keys) /\ is_Some (ports s !! p)).
Proof.
  intros Hch. split; split.
  - intros Hin. by apply (changes_of_cases keys s changes p 1 Hch Hin).
  - intros [Hn Hu]. apply Hch. split; [by left|]. unfold change.
    rewrite decide_True, decide_False by (done || by rewrite Hu; intros []). lia.
  - intros Hin. by apply (changes_of_cases keys s changes p (-1) Hch Hin).
  - intros [Hn Hb]. apply Hch. split; [by right|]. unfold change.
    rewrite decide_False, decide_True by done. lia.
Qed.

Lemma loadConfig_nil_iff os s config :
  (exists s', loadConfig os s config = (Returned None, s')) <->
  ciphers_ok (Keys config) /\ pass_can_go os s config.
Proof.
  destruct (loadConfig_cases NewCipher os s config)
    as [(k & e & Hk & He & ->)|(Hok & changes & ciphers & Hch & _ & Hrun)].
  { split; [by intros [s' [=]]|]. intros [Hok _].
    unfold Main.ciphers_ok in Hok. rewrite Forall_forall in Hok.
    destruct (Hok k Hk) as [c Hc]. congruence. }
  pose proof (applyChanges_None os changes s (proj1 Hch)) as Hiff.
  assert ((applyChanges os changes s).1 = None <-> pass_can_go os s config) as Hgo.
  { rewrite Hiff.
    2:{ intros p Hin. by apply (changes_of_mem _ _ _ p Hch) in Hin as [_ ?]. }
    unfold pass_can_go. split; intros [H1 H2]; split.
    - intros p Hn Hu. apply H1. by apply (changes_of_mem _ _ _ p Hch).
    - intros p port Hp Hn. apply (H2 p port); [|done].
      apply (changes_of_mem _ _ _ p Hch). split; [done|by eexists].
    - intros p Hin. apply (changes_of_mem _ _ _ p Hch) in Hin as [? ?]. by apply H1.
    - intros p port Hin Hp. apply (changes_of_mem _ _ _ p Hch) in Hin as [? ?].
      by apply (H2 p port). }
  destruct Hrun as [(err & s1 & Ha & ->)|(s1 & s2 & Ha & _ & ->)].
  - rewrite Ha in Hgo. simpl in Hgo. split; [by intros [s' [=]]|].
    intros [_ Hcan]. by apply Hgo in Hcan.
  - rewrite Ha in Hgo. simpl in Hgo. split; [|by eexists].
    intros _. split; [done|]. by apply Hgo.
Qed.

Lemma removePort_events os s p :
  exists evs, trace (removePort os s p).2 = trace s ++ evs /\
    Forall (event_of_changes s [(p, -1)]) evs.
Proof.
  unfold removePort. destruct (ports s !! p) as [port|] eqn:E.
  - exists [StopTCP p (tcpService port); StopUDP p (udpService port)]. split.
    + by destruct (tcpStop os (tcpService port)), (udpStop os (udpService port)).
    + repeat constructor; simpl; eauto using list_elem_of_here.
  - exists []. split; [by rewrite app_nil_r|constructor].
Qed.

Lemma startPort_events os s p :
  exists evs, trace (startPort os s p).2 = trace s ++ evs /\
    Forall (event_of_changes s [(p, 1)]) evs.
Proof.
  pose proof (startPort_spec os s p) as H.
  destruct (startPort os s p) as [[e|] s']; simpl.
  - destruct H as (_ & _ & [-> | ->]); eexists; (split; [done|]);
      repeat constructor; simpl; apply list_elem_of_here.
  - destruct H as (_ & _ & ->). eexists; (split; [done|]);
      repeat constructor; simpl; apply list_elem_of_here.
Qed.

Lemma event_of_changes_mono s s1 changes changes' ev :
  (forall pc, pc ∈ changes -> pc ∈ changes') ->
  (forall p, (p, -1) ∈ changes -> ports s1 !! p = ports s !! p) ->
  event_of_changes s1 changes ev -> event_of_changes s changes' ev.
Proof.
  intros Hsub Hframe. destruct ev; simpl; try done; try apply Hsub.
  - intros [Hin (port & Hp & ->)]. split; [by apply Hsub|].
    exists port. by rewrite <- Hframe.
  - intros [Hin (port & Hp & ->)]. split; [by apply Hsub|].
    exists port. by rewrite <- Hframe.
Qed.

(** The third loop stops ports of its list with the count [-1] and starts
    ports of its list with the count [1], and does nothing else. *)
Lemma applyChanges_events os changes : forall s,
  NoDup changes.*1 ->
  exists evs, trace (applyChanges os changes s).2 = trace s ++ evs /\
    Forall (event_of_changes s changes) evs.
Proof.
  induction changes as [|[q c] changes IH]; intros s Hnd.
  { exists []. split; [by rewrite app_nil_r|constructor]. }
  rewrite fmap_cons in Hnd. apply NoDup_cons in Hnd as [Hq Hnd]. simpl in Hq.
  assert (forall c0, (q, c0) ∈ changes -> False) as Hq'.
  { intros c0 Hin. apply Hq. apply list_elem_of_fmap. by exists (q, c0). }
  assert (forall s1 evs1 c1,
    trace s1 = trace s ++ evs1 -> Forall (event_of_changes s [(q, c1)]) evs1 -> c1 = c ->
    (forall p, p <> q -> ports s1 !! p = ports s !! p) ->
    (exists evs, trace s1 = trace s ++ evs /\
       Forall (event_of_changes s ((q, c) :: changes)) evs) /\
    (exists evs, trace (applyChanges os changes s1).2 = trace s ++ evs /\
       Forall (event_of_changes s ((q, c) :: changes)) evs)) as Hstep.
  { intros s1 evs1 c1 Ht Hev -> Hframe.
    assert (Forall (event_of_changes s ((q, c) :: changes)) evs1) as Hev1.
    { eapply Forall_impl; [exact Hev|]. intros ev.
      apply event_of_changes_mono; [|done].
      intros pc Hpc. apply list_elem_of_singleton in Hpc as ->. left. }
    split; [by exists evs1|].
    destruct (IH s1 Hnd) as (evs2 & Ht2 & Hev2). exists (evs1 ++ evs2).
    split; [by rewrite Ht2, Ht, app_assoc|]. apply Forall_app. split; [done|].
    eapply Forall_impl; [exact Hev2|]. intros ev.
    apply event_of_changes_mono; [by intros pc Hpc; right|].
    intros p Hin. apply Hframe. intros ->. by apply (Hq' (-1)). }
  cbn [applyChanges].
  destruct (Z.eqb_spec c (-1)) as [->|Hm].
  { destruct (removePort_events os s q) as (evs1 & Ht & Hev).
    destruct (Hstep _ _ _ Ht Hev eq_refl) as [H1 H2].
    { intros p Hp. by apply removePort_frame. }
    by destruct (removePort os s q) as [[e|] s1]. }
  destruct (Z.eqb_spec c 1) as [->|Hc].
  { destruct (startPort_events os s q) as (evs1 & Ht & Hev).
    destruct (Hstep _ _ _ Ht Hev eq_refl) as [H1 H2].
    { intros p Hp. by apply startPort_frame. }
    by destruct (startPort os s q) as [[e|] s1]. }
  destruct (IH s Hnd) as (evs & Ht & Hev). exists evs. split; [done|].
  eapply Forall_impl; [exact Hev|]. intros ev.
  apply event_of_changes_mono; [by intros pc Hpc; right|done].
Qed.

Lemma updateCiphers_events (ciphers : list (Z * list (CipherEntry CipherT))) : forall s s',
  updateCiphers ciphers s = Some s' ->
  trace s' = trace s ++ ((fun pe => UpdateCiphers pe.1 pe.2) <$> ciphers).
Proof.
  induction ciphers as [|[q entries] ciphers IH]; intros s s' H.
  { injection H as <-. by rewrite app_nil_r. }
  cbn [updateCiphers] in H. destruct (ports s !! q) as [port|]; [|done].
  rewrite (IH _ _ H). simpl. by rewrite <- app_assoc.
Qed.

Lemma ciphers_of_length keys (ciphers : list (Z * list (CipherEntry CipherT))) :
  ciphers_of keys ciphers -> length ciphers = length (remove_dups (Port <$> keys)).
Proof.
  intros [Hnd Hci]. rewrite <- (length_fmap fst ciphers).
  apply Permutation_length. apply NoDup_Permutation; [done|apply NoDup_remove_dups|].
  intros p. rewrite elem_of_remove_dups, list_elem_of_fmap. split.
  - intros ([p' e] & -> & Hin). by apply Hci in Hin as [? _].
  - intros Hp. exists (p, entriesFor p keys). split; [done|]. by apply Hci.
Qed.

Lemma loadConfig_trace os s config :
  exists evs,
    trace (loadConfig os s config).2 = trace s ++ evs /\
    Forall (event_of_pass s config) evs /\
    ((loadConfig os s config).1 = Returned None ->
       exists before,
         evs = before ++ [SetNumAccessKeys (Z.of_nat (length (Keys config)))
                            (Z.of_nat (length (named_ports config)))] /\
         Forall (fun ev => forall n k, ev <> SetNumAccessKeys n k) before) /\
    ((loadConfig os s config).1 <> Returned None ->
       Forall (fun ev => (forall n k, ev <> SetNumAccessKeys n k) /\
                         (forall p entries, ev <> UpdateCiphers p entries)) evs).
Proof.
  destruct (loadConfig_cases NewCipher os s config)
    as [(k & e & Hk & He & ->)|(Hok & changes & ciphers & Hch & Hci & Hrun)].
  { exists []. simpl. rewrite app_nil_r. split_and!; [done|constructor|done|constructor]. }
  destruct (applyChanges_events os changes s (proj1 Hch)) as (evs1 & Ht1 & Hev1).
  assert (Forall (event_of_pass s config) evs1) as Hev1'.
  { eapply Forall_impl; [exact Hev1|].
    intros [r|r|r svc|r svc|r svc|r svc|r entries|n k]; simpl; try done.
    - intros Hin. by apply (changes_of_mem _ _ _ r Hch) in Hin.
    - intros Hin. by apply (changes_of_mem _ _ _ r Hch) in Hin.
    - intros Hin. by apply (changes_of_mem _ _ _ r Hch) in Hin.
    - intros Hin. by apply (changes_of_mem _ _ _ r Hch) in Hin.
    - intros [Hin Hp]. by apply (changes_of_mem _ _ _ r Hch) in Hin as [? _].
    - intros [Hin Hp]. by apply (changes_of_mem _ _ _ r Hch) in Hin as [? _]. }
  destruct Hrun as [(err & s1 & Ha & ->)|(s1 & s2 & Ha & Hu & ->)].
  - exists evs1. rewrite Ha in Ht1. simpl in *. split_and!; try done.
    intros _. eapply Forall_impl; [exact Hev1|]. intros ev Hev. by split; intros ? ? ->.
  - rewrite Ha in Ht1. simpl in Ht1.
    pose proof (updateCiphers_events _ _ _ Hu) as Ht2.
    exists (evs1 ++ ((fun pe => UpdateCiphers pe.1 pe.2) <$> ciphers) ++
            [SetNumAccessKeys (Z.of_nat (length (Keys config)))
               (Z.of_nat (length ciphers))]).
    rewrite (ciphers_of_length _ _ Hci). fold (named_ports config).
    split_and!.
    + simpl. rewrite Ht2, Ht1. by rewrite <- !app_assoc.
    + apply Forall_app. split; [done|]. apply Forall_app. split.
      * apply Forall_fmap. apply Forall_forall. intros [p entries] Hin. simpl.
        by apply Hci in Hin.
      * by repeat constructor.
    + intros _. eexists. rewrite app_assoc. split; [done|].
      apply Forall_app. split.
      * eapply Forall_impl; [exact Hev1|]. intros ev Hev n k ->. done.
      * apply Forall_fmap. apply Forall_forall. by intros [p entries] _ n k.
    + intros Hne. by destruct Hne.
Qed.

Lemma loadConfig_bound_iff_named os s config s' :
  loadConfig os s config = (Returned None, s') ->
  (forall p, is_Some (ports s' !! p) <-> p ∈ Port <$> Keys config) /\
  (forall p port', ports s' !! p = Some port' ->
     cipherList port' = entriesFor p (Keys config) /\
     forall port, ports s !! p = Some port ->
       tcpService port' = tcpService port /\ udpService port' = udpService port) /\
  size (ports s') = length (named_ports config).
Proof.
  intros H. destruct (loadConfig_success NewCipher os s config s' H) as (_ & Hin & Hout).
  assert (forall p, is_Some (ports s' !! p) <-> p ∈ Port <$> Keys config) as Hiff.
  { intros p. split.
    - intros Hs. destruct (decide (p ∈ Port <$> Keys config)) as [|Hn]; [done|].
      rewrite (Hout p Hn) in Hs. by destruct Hs.
    - intros Hp. destruct (Hin p Hp) as (port & -> & _). by eexists. }
  split_and!; [done| |].
  - intros p port' Hp. destruct (Hin p) as (port & Hp' & Hc & Hsvc).
    { apply Hiff. by eexists. }
    rewrite Hp in Hp'. injection Hp' as <-. done.
  - rewrite <- length_map_to_list, <- (length_fmap fst).
    apply Permutation_length. apply NoDup_Permutation.
    + apply NoDup_fst_map_to_list.
    + apply NoDup_remove_dups.
    + intros p. unfold named_ports. rewrite elem_of_remove_dups, <- Hiff.
      rewrite list_elem_of_fmap. split.
      * intros ([q v] & -> & Hqv). apply elem_of_map_to_list in Hqv. by eexists.
      * intros [v Hv]. exists (p, v). split; [done|]. by apply elem_of_map_to_list.
Qed.


(** A pass returns nil exactly when every key gets a cipher, every port
    that is named and not bound can be bound for TCP and for UDP, and the
    two services of every port that is bound and not named stop without an
    error: the orders of the loops do not matter. *)
Theorem loadConfig_returns_nil_iff os s config :
  (exists s', loadConfig os s config = (Returned None, s')) <->
  ciphers_ok (Keys config) /\ pass_can_go os s config.
Proof. apply loadConfig_nil_iff. Qed.

(** Whatever a pass returns, all that it has done is: stop ports that were
    bound and are not named, with the services they had; start ports that
    are named and were not bound; replace the ciphers of named ports by the
    entries of their keys; and report the number of keys and of named
    ports.  It never stops a port that the configuration names and never
    binds a port that is bound.  The report is made only by a pass that
    returns nil, which makes it once and last; a pass that returns an error
    has made no report and has replaced no ciphers. *)
Theorem loadConfig_events os s config :
  exists evs,
    trace (loadConfig os s config).2 = trace s ++ evs /\
    Forall (event_of_pass s config) evs /\
    ((loadConfig os s config).1 = Returned None ->
       exists before,
         evs = before ++ [SetNumAccessKeys (Z.of_nat (length (Keys config)))
                            (Z.of_nat (length (named_ports config)))] /\
         Forall (fun ev => forall n k, ev <> SetNumAccessKeys n k) before) /\
    ((loadConfig os s config).1 <> Returned None ->
       Forall (fun ev => (forall n k, ev <> SetNumAccessKeys n k) /\
                         (forall p entries, ev <> UpdateCiphers p entries)) evs).
Proof. apply loadConfig_trace. Qed.

(** After a pass that returned nil, the ports that are bound are the ports
    that the configuration names, as many as it names; each has the entries
    of its keys as its ciphers, and each that was bound before still has the
    two services it had. *)
Theorem loadConfig_nil_reconciles os s config s' :
  loadConfig os s config = (Returned None, s') ->
  (forall p, is_Some (ports s' !! p) <-> p ∈ Port <$> Keys config) /\
  (forall p port', ports s' !! p = Some port' ->
     cipherList port' = entriesFor p (Keys config) /\
     forall port, ports s !! p = Some port ->
       tcpService port' = tcpService port /\ udpService port' = udpService port) /\
  size (ports s') = length (named_ports config).
Proof. apply loadConfig_bound_iff_named. Qed.

(** ** Starting the server and loading secrets *)





Local Abbreviation RunSSServer := (RunSSServer NewCipher).
Local Abbreviation LoadSecretsHandler := (LoadSecretsHandler NewCipher).
Local Abbreviation server_loadConfig := (server_loadConfig NewCipher).

Lemma pass_can_go_empty os s config :
  ports s = ∅ ->
  pass_can_go os s config <->
  forall p, p ∈ Port <$> Keys config -> ListenTCP os p = None /\ ListenUDP os p = None.
Proof.
  intros Hs. unfold pass_can_go. rewrite Hs. split.
  - intros [H _] p Hp. apply H; [done|apply lookup_empty].
  - intros H. split; [by intros p Hp _; apply H|]. intros p port Hp.
    by rewrite lookup_empty in Hp.
Qed.

(** [RunSSServer] panics exactly when [service.NewReplayCache] panics on the
    capacity [replayHistory], and has done nothing then; the pass over the
    configuration never makes it panic.  It returns a server exactly when
    moreover the file can be read and parsed, every key gets a cipher and
    every named port can be bound for TCP and for UDP; the server then holds
    the time-out, the metrics and the new replay cache, and has exactly the
    named ports bound, each with the entries of its keys.  When the cache was
    made and the load fails, it returns nil and an error that starts with
    "Failed to load config file", the ports that it had started before the
    failure still being served.  In no case has it stopped a service. *)
Theorem RunSSServer_result {FS MetricsT ReplayCacheT}
    (NewReplayCache : Z -> option ReplayCacheT) (io : Files FS) (fs : FS) os
    (filename : string) (natTimeout : Z) (sm : MetricsT) (replayHistory : Z) :
  let '(server, res, evs) :=
    RunSSServer NewReplayCache io fs os filename natTimeout sm replayHistory in
  (res = Panicked <-> NewReplayCache replayHistory = None) /\
  (res = Panicked -> evs = []) /\
  (is_Some server <-> res = Returned None) /\
  (res = Returned None <->
     is_Some (NewReplayCache replayHistory) /\
     exists configData config,
       ReadFile io fs filename = inl configData /\
       yaml_Unmarshal io configData = inl config /\
       ciphers_ok (Keys config) /\
       forall p, p ∈ Port <$> Keys config ->
         ListenTCP os p = None /\ ListenUDP os p = None) /\
  (forall settings s configData config,
     server = Some (settings, s) -> ReadFile io fs filename = inl configData ->
     yaml_Unmarshal io configData = inl config ->
     Main.natTimeout settings = natTimeout /\ m settings = sm /\
     NewReplayCache replayHistory = Some (replayCache settings) /\
     trace s = evs /\
     (forall p, is_Some (ports s !! p) <-> p ∈ Port <$> Keys config) /\
     forall p port, ports s !! p = Some port ->
       cipherList port = entriesFor p (Keys config)) /\
  Forall (fun ev => forall p svc, ev <> StopTCP p svc /\ ev <> StopUDP p svc) evs /\
  (forall err, res = Returned (Some err) ->
     exists cause,
       err = "Failed to load config file " +:+ filename +:+ ": " +:+ cause).
Proof.
  unfold Main.RunSSServer, loadConfigFile.
  destruct (NewReplayCache replayHistory) as [cache|] eqn:Hcache.
  2:{ split_and!; try done; try (by constructor); try (by split; [intros []|]).
      split; [done|]. by intros [[] _]. }
  cbv zeta.
  set (s0 := {| ports := ∅; nextService := 0; trace := [] |}).
  destruct (ReadFile io fs filename) as [configData|e] eqn:Hread.
  2:{ split_and!; try done; try (by constructor); try (by split; [intros []|]).
      - split; [done|]. by intros (_ & ? & ? & [=] & _).
      - intros err [= <-]. by eexists. }
  destruct (yaml_Unmarshal io configData) as [config|e] eqn:Hparse.
  2:{ split_and!; try done; try (by constructor); try (by split; [intros []|]).
      - split; [done|]. intros (_ & ? & ? & [= <-] & Hp & _). congruence.
      - intros err [= <-]. by eexists. }
  pose proof (loadConfig_nil_iff os s0 config) as Hiff.
  rewrite (pass_can_go_empty os s0 config eq_refl) in Hiff.
  pose proof (loadConfig_never_panics NewCipher os s0 config) as Hnp.
  destruct (loadConfig_trace os s0 config) as (evs & Ht & Hev & _).
  assert (Forall (fun ev => forall p svc, ev <> StopTCP p svc /\ ev <> StopUDP p svc)
            (trace (loadConfig os s0 config).2)) as Hnostop.
  { rewrite Ht. simpl. eapply Forall_impl; [exact Hev|].
    intros ev Hpass p svc. split; intros ->; simpl in Hpass;
      destruct Hpass as (_ & port & Hp & _); by rewrite lookup_empty in Hp. }
  pose proof (loadConfig_bound_iff_named os s0 config) as Hrec.
  destruct (loadConfig os s0 config) as [[[err|]|] s1]; simpl in *; [| |done].
  - split_and!; try done; try (by split; [intros []|]).
    + split; [done|]. intros (_ & cd & c & [= <-] & Hp & Hok & Hl).
      rewrite Hparse in Hp. injection Hp as <-.
      destruct Hiff as [_ Hiff]. by destruct Hiff as [s' [=]].
    + intros e [= <-]. by eexists.
  - destruct (Hrec s1 eq_refl) as (Hb & Hc & _).
    split_and!; try done; try (by split; [|eexists]).
    + split; [|done]. intros _. split; [by eexists|]. exists configData, config.
      destruct Hiff as [Hiff _]. destruct Hiff as [Hok Hl]; [by eexists|]. done.
    + intros st s cd c [= <- <-] [= <-] Hc'. rewrite Hparse in Hc'. injection Hc' as <-.
      split_and!; try done. intros p port Hp. by apply (Hc p port).
Qed.


(** While the package variable [server] is nil, that is until
    [RunSSServer] has returned, [LoadSecretsHandler] answers with the error
    when the body cannot be decoded or a key gets no cipher; when all keys
    get a cipher, it panics at the first use of the receiver and answers
    nothing.  It never writes the file then. *)
Theorem LoadSecretsHandler_before_start {FS} (io : Files FS) (ConfigFile : string)
    (fs : FS) os (body : list byte) :
  let '(answer, fs', server') := LoadSecretsHandler io ConfigFile fs os None body in
  fs' = fs /\ server' = None /\
  match json_Decode io body with
  | inr err => answer = Some (answer_error err)
  | inl jsonConfig =>
      (ciphers_ok (Keys jsonConfig) -> answer = None) /\
      (~ ciphers_ok (Keys jsonConfig) ->
         exists k e,
           k ∈ Keys jsonConfig /\ NewCipher (Cipher k) (Secret k) = inr e /\
           answer = Some (answer_error
                            ("Failed to create cipher for key " +:+ ID k +:+ ": " +:+ e)))
  end.
Proof.
  unfold Main.LoadSecretsHandler.
  destruct (json_Decode io body) as [jsonConfig|e]; [|done].
  unfold Main.server_loadConfig.
  pose proof (buildCiphers_spec NewCipher (Keys jsonConfig) ∅ ∅) as Hb.
  destruct (buildCiphers NewCipher (Keys jsonConfig) ∅ ∅) as [err|[pc pcs]].
  - destruct Hb as (k & e & Hk & He & ->). split_and!; try done.
    + intros Hok. unfold Main.ciphers_ok in Hok. rewrite Forall_forall in Hok.
      destruct (Hok k Hk) as [c Hc]. congruence.
    + intros _. by exists k, e.
  - destruct Hb as (Hok & _). split_and!; try done.
Qed.

End loadConfig_more.

Lemma loadConfig_nil_reconciles_witness :
  loadConfig sampleCipher os_port3_busy server_empty config_ABC
    = (Returned None, server_ABC) /\
  is_Some (ports server_ABC !! 1) /\ is_Some (ports server_ABC !! 2) /\
  ports server_ABC !! 3 = None /\
  size (ports server_ABC) = 2%nat.
Proof.
  assert (loadConfig sampleCipher os_port3_busy server_empty config_ABC
            = (Returned None, server_ABC)) as H by (vm_compute; reflexivity).
  destruct (loadConfig_nil_reconciles sampleCipher os_port3_busy server_empty
              config_ABC server_ABC H) as (Hiff & _ & Hsize).
  split; [exact H|].
  split; [apply Hiff; simpl; set_solver|].
  split; [apply Hiff; simpl; set_solver|].
  split; [|exact Hsize].
  apply eq_None_not_Some. rewrite Hiff. simpl. set_solver.
Defined.
